(** * react-multi-select-component: ordering, search, windowing, loading and
    keyboard navigation

    A shallow embedding of the selection engine of the component:
    - [src/utils/fuzzy.ts]     ([fuzzyScore], [fuzzyFilter]),
    - [src/utils/ordering.ts]  ([separateItems], [orderItemsSync],
                                [orderItemsAsync]),
    - [VirtualList]            (the window computation),
    - [useAsyncItems]          (the paginated loader, as an event machine),
    - [useSelection]           ([commitSelection]),
    - [useKeyboardNavigation]  ([onKeyDown]),
    - [MultiSelect/helpers.ts] ([getSelectedItem]),
    - [useMRUOrder], [MultiSelect.tsx] ([updateMRU], [clearAll]),
    - [useTokenNavigation]     ([handleTokenKeyDown]),
    - [useScrollIntoView]      (the scroll effect),
    - the demo backend         ([fetchItems]).

    JavaScript strings are modelled by [string]: every [ascii] stands for one
    UTF-16 code unit below 256.  JavaScript numbers that the code only uses as
    counters and indices are integers ([Z], [nat]); pixel quantities are
    rationals ([Q]), with exact arithmetic in [VirtualList] and
    [ScrollIntoView] and with the rounding of binary64 arithmetic
    ([Double.round]) in [VirtualList64]. *)

From Stdlib Require Import ZArith QArith Qround Qpower Ascii String List Lia
  Lqa.
From stdpp Require Import gmap strings list sorting.

Local Open Scope string_scope.
Local Open Scope list_scope.
Local Open Scope Z_scope.

(** ** JavaScript built-ins used by the sources *)

Module JS.

(** The code units of a string. *)
Definition chars (s : string) : list ascii := list_ascii_of_string s.

(** [s[i]]: [undefined] (here [None]) outside [0 .. length-1]. *)
Definition charAt (s : list ascii) (i : Z) : option ascii :=
  if i <? 0 then None else s !! Z.to_nat i.

(** [String.prototype.toLowerCase] on code units below 256: [A-Z] and the
    Latin-1 capitals U+00C0..U+00DE except U+00D7 move up by 32.  A string
    is a sequence of such code units; beyond them the built-in can change
    the number of code units (U+0130 becomes two), which is why lengths
    are stated of the lower-case forms. *)
Definition lowerChar (c : ascii) : ascii :=
  let n := N_of_ascii c in
  if ((65 <=? n) && (n <=? 90))%N then ascii_of_N (n + 32)
  else if ((192 <=? n) && (n <=? 222) && negb (n =? 215))%N
       then ascii_of_N (n + 32)
  else c.

Definition toLowerCase (s : string) : string :=
  string_of_list_ascii (map lowerChar (chars s)).

(** White space and line terminators removed by [String.prototype.trim],
    among the code units below 256. *)
Definition isWhiteSpace (c : ascii) : bool :=
  let n := N_of_ascii c in
  ((n =? 9) || (n =? 10) || (n =? 11) || (n =? 12) || (n =? 13)
   || (n =? 32) || (n =? 160))%N.

Fixpoint trimStart (s : list ascii) : list ascii :=
  match s with
  | c :: s' => if isWhiteSpace c then trimStart s' else s
  | [] => []
  end.

Definition trim (s : string) : string :=
  string_of_list_ascii (rev (trimStart (rev (trimStart (chars s))))).

(** Truthiness of a string: [!s] holds exactly for the empty string. *)
Definition isEmpty (s : string) : bool :=
  match s with EmptyString => true | _ => false end.

(** [a[i]] on an array, [undefined] outside the bounds. *)
Definition at_ {A} (a : list A) (i : Z) : option A :=
  if i <? 0 then None else a !! Z.to_nat i.

(** [Array.prototype.slice(start, end)] on integer arguments: negative
    indices count from the end, both are clamped to the array. *)
Definition relIndex (len k : Z) : Z :=
  if k <? 0 then Z.max (len + k) 0 else Z.min k len.

Definition slice {A} (a : list A) (start stop : Z) : list A :=
  let len := Z.of_nat (length a) in
  let k := relIndex len start in
  let final := relIndex len stop in
  take (Z.to_nat (Z.max (final - k) 0)) (drop (Z.to_nat k) a).

(** [Array.prototype.sort(cmp)]: a stable sort.  [cmp a b] is the sign of
    the comparator's result ([Gt] when [a] must come after [b]).  For a
    comparator that is a total preorder the result of every stable sort is
    the same list, here computed by insertion from the right. *)
Section Sort.
Context {A : Type} (cmp : A -> A -> comparison).

Fixpoint insert (x : A) (l : list A) : list A :=
  match l with
  | [] => [x]
  | y :: l' =>
      match cmp x y with
      | Gt => y :: insert x l'
      | _ => x :: l
      end
  end.

Definition sort (l : list A) : list A := foldr insert [] l.
End Sort.

End JS.

(** ** src/utils/fuzzy.ts *)

Module Fuzzy.

(** [isWordBoundary(s, i)] *)
Definition isWordBoundary (s : list ascii) (i : Z) : bool :=
  if i =? 0 then true
  else match JS.charAt s (i - 1) with
       | Some prev =>
           bool_decide (prev = " "%char) || bool_decide (prev = "-"%char)
           || bool_decide (prev = "_"%char) || bool_decide (prev = "/"%char)
       | None => false
       end.

(** The mutable locals of [fuzzyScore].  [matchedAt] is a ghost field: it
    records, most recent first, the haystack index of every match; the
    score never reads it. *)
Record scan := Scan {
  hIdx : nat;
  penalty : Z;
  consecutive : Z;
  firstMatchIndex : Z;
  matchedAt : list nat
}.

Definition scan0 : scan := Scan 0 0 0 (-1) [].

(** The test of the run counter: [i > 0 && hIdx > 0 && h[hIdx-1] === n[i-1]]. *)
Definition continuesRun (h n : list ascii) (i k : nat) : bool :=
  (0 <? i)%nat && (0 <? k)%nat
  && bool_decide (JS.charAt h (Z.of_nat k - 1) = JS.charAt n (Z.of_nat i - 1)).

(** The body of the [if (h[hIdx] === ch)] branch. *)
Definition onMatch (h n : list ascii) (i : nat) (st : scan) : scan :=
  let k := hIdx st in
  {| hIdx := S k;
     penalty := if isWordBoundary h (Z.of_nat k)
                then penalty st - 1 else penalty st;
     consecutive := if continuesRun h n i k
                    then consecutive st + 1 else 1;
     firstMatchIndex := if firstMatchIndex st =? -1
                        then Z.of_nat k else firstMatchIndex st;
     matchedAt := k :: matchedAt st |}.

(** A skipped haystack character: [penalty += 1; hIdx++]. *)
Definition onSkip (st : scan) : scan :=
  {| hIdx := S (hIdx st);
     penalty := penalty st + 1;
     consecutive := consecutive st;
     firstMatchIndex := firstMatchIndex st;
     matchedAt := matchedAt st |}.

(** The inner [while (hIdx < h.length)] loop for needle character [ch] at
    needle index [i]; the boolean is [found].  Every iteration increments
    [hIdx], so [fuel = length h] iterations always suffice. *)
Fixpoint seek (fuel : nat) (h n : list ascii) (i : nat) (ch : ascii)
    (st : scan) : scan * bool :=
  match fuel with
  | O => (st, false)
  | S fuel' =>
      match h !! hIdx st with
      | Some c =>
          if bool_decide (c = ch) then (onMatch h n i st, true)
          else seek fuel' h n i ch (onSkip st)
      | None => (st, false)
      end
  end.

(** The outer [for] loop, from needle index [i] on; [rest] holds
    [n[i], n[i+1], ...].  [None] is [return null]. *)
Fixpoint matchLoop (h n : list ascii) (i : nat) (rest : list ascii)
    (st : scan) : option scan :=
  match rest with
  | [] => Some st
  | ch :: rest' =>
      let '(st', found) := seek (length h) h n i ch st in
      if found then matchLoop h n (S i) rest' st' else None
  end.

Definition runScan (h n : list ascii) : option scan :=
  matchLoop h n 0 n scan0.

(** [h.startsWith(n)] *)
Definition startsWith (h n : list ascii) : bool :=
  bool_decide (take (length n) h = n).

Definition prefixBonus (h n : list ascii) : Z :=
  if startsWith h n then -5 else 0.

Definition wordBonus (h : list ascii) (st : scan) : Z :=
  if isWordBoundary h (firstMatchIndex st) then -3 else 0.

(** [fuzzyScore(haystack, needle)]: [None] is [null]. *)
Definition fuzzyScore (haystack needle : string) : option Z :=
  if JS.isEmpty needle then Some 0
  else
    let h := JS.chars (JS.toLowerCase haystack) in
    let n := JS.chars (JS.toLowerCase needle) in
    match runScan h n with
    | None => None
    | Some st =>
        Some (Z.max 0 (penalty st + prefixBonus h n + wordBonus h st
                       + - consecutive st))
    end.

End Fuzzy.

Import Fuzzy.

(** [fuzzyFilter(items, getText, query, limit)]: the candidates that match,
    with their scores, stably sorted by ascending score. *)
Record FuzzyCandidate (T : Type) := Candidate { item : T; score : Z }.
Arguments Candidate {T} _ _.
Arguments item {T} _.
Arguments score {T} _.

Definition byScore {T} (a b : FuzzyCandidate T) : comparison :=
  score a ?= score b.

Definition fuzzyFilter {T} (items : list T) (getText : T -> string)
    (query : string) (limit : option Z) : list (FuzzyCandidate T) :=
  let results :=
    foldl (fun results it =>
             match fuzzyScore (getText it) query with
             | Some s => results ++ [Candidate it s]
             | None => results
             end) [] items in
  let results := JS.sort byScore results in
  match limit with
  | Some k => JS.slice results 0 k
  | None => results
  end.

(** ** src/types.ts and src/utils/ordering.ts *)

Record Item := MkItem {
  id : string;
  label : string;
  group : option string
}.

Module Ordering.

(** [selectedIds.forEach((id, i) => selectedOrder.set(id, i))], from index
    [i] on: a later occurrence of an id overwrites an earlier one. *)
Fixpoint setOrder (i : nat) (ids : list string) (m : gmap string nat)
    : gmap string nat :=
  match ids with
  | [] => m
  | x :: ids' => setOrder (S i) ids' (<[x := i]> m)
  end.

Definition selectedOrder (selectedIds : list string) : gmap string nat :=
  setOrder 0 selectedIds ∅.

(** The comparator [orderA - orderB] with [?? Infinity]: [None] is
    [Infinity]; [Infinity - Infinity] is [NaN], which [sort] reads as 0. *)
Definition byOrder (m : gmap string nat) (a b : Item) : comparison :=
  match m !! id a, m !! id b with
  | Some x, Some y => (x ?= y)%nat
  | Some _, None => Lt
  | None, Some _ => Gt
  | None, None => Eq
  end.

(** [separateItems(items, selectedIds)] *)
Definition separateItems (items : list Item) (selectedIds : list string)
    : list Item * list Item :=
  let selectedSet : gset string := list_to_set selectedIds in
  let order := selectedOrder selectedIds in
  let '(selected, unselected) :=
    foldl (fun '(selected, unselected) it =>
             if decide (id it ∈ selectedSet)
             then (selected ++ [it], unselected)
             else (selected, unselected ++ [it]))
          ([], []) items in
  (JS.sort (byOrder order) selected, unselected).

(** [orderItemsSync(items, selectedIds, query)] *)
Definition orderItemsSync (items : list Item) (selectedIds : list string)
    (query : string) : list Item :=
  let '(selected, unselected) := separateItems items selectedIds in
  if JS.isEmpty query then selected ++ unselected
  else
    let scored := fuzzyFilter unselected label query None in
    selected ++ (item <$> scored).

(** [orderItemsAsync(items, selectedIds)] *)
Definition orderItemsAsync (items : list Item) (selectedIds : list string)
    : list Item :=
  let '(selected, unselected) := separateItems items selectedIds in
  selected ++ unselected.

End Ordering.

Import Ordering.

(** The items of [ordering.test.ts]. *)
Definition mockItems : list Item :=
  [MkItem "1" "Alpha" (Some "A"); MkItem "2" "Beta" (Some "B");
   MkItem "3" "Gamma" (Some "A"); MkItem "4" "Delta" (Some "B")].

(** *** Counting the calls of [fuzzyScore]

    [fuzzyFilter] and [orderItemsSync] once more, in a writer monad whose
    log is the number of calls of [fuzzyScore]. *)

Module Counted.

Definition counted (A : Type) : Type := (A * nat)%type.

Definition ret {A} (a : A) : counted A := (a, 0%nat).

Definition bind {A B} (m : counted A) (f : A -> counted B) : counted B :=
  let '(b, k) := f (fst m) in (b, (snd m + k)%nat).

Definition fuzzyScore (haystack needle : string) : counted (option Z) :=
  (Fuzzy.fuzzyScore haystack needle, 1%nat).

Definition fuzzyFilter {T} (items : list T) (getText : T -> string)
    (query : string) (limit : option Z) : counted (list (FuzzyCandidate T)) :=
  bind
    (foldl (fun acc it =>
              bind acc (fun results =>
              bind (fuzzyScore (getText it) query) (fun s =>
              ret match s with
                  | Some s => results ++ [Candidate it s]
                  | None => results
                  end)))
           (ret []) items)
    (fun results =>
       let results := JS.sort byScore results in
       ret match limit with
           | Some k => JS.slice results 0 k
           | None => results
           end).

Definition orderItemsSync (items : list Item) (selectedIds : list string)
    (query : string) : counted (list Item) :=
  let '(selected, unselected) := separateItems items selectedIds in
  if JS.isEmpty query then ret (selected ++ unselected)
  else
    bind (fuzzyFilter unselected label query None) (fun scored =>
    ret (selected ++ (item <$> scored))).

End Counted.

(** ** VirtualList: the rendered window *)

Module VirtualList.
Section Window.
Context {T : Type}.
(** The props and the scroll state.  [rowHeight], [height] and
    [scrollTop] are pixel quantities; [overscan] is a number of rows. *)
Variables (items : list T) (rowHeight height : Q) (overscan : Z)
          (scrollTop : Q).

Definition total : Z := Z.of_nat (length items).

(** [Math.max(0, Math.floor(scrollTop / rowHeight) - overscan)] *)
Definition startIndex : Z :=
  Z.max 0 (Qfloor (scrollTop / rowHeight) - overscan).

(** [Math.min(total - 1,
              Math.ceil((scrollTop + height) / rowHeight) + overscan)] *)
Definition endIndex : Z :=
  Z.min (total - 1) (Qceiling ((scrollTop + height) / rowHeight) + overscan).

(** [items.slice(startIndex, endIndex + 1)] *)
Definition visibleItems : list T :=
  JS.slice items startIndex (endIndex + 1).

(** The rows handed to [renderRow]: [index = startIndex + i]. *)
Definition renderedRows : list (Z * T) :=
  imap (fun i it => (startIndex + Z.of_nat i, it)) visibleItems.

Definition contentHeight : Q := inject_Z total * rowHeight.
End Window.
End VirtualList.

(** ** JS numbers

    [scrollTop], [rowHeight] and [height] are JS numbers, binary64 floats,
    and [/] and [+] give the number nearest to the exact result, the one
    with the even significand on a tie.  [Double.round] is that rounding
    on the rationals: 53 significant bits, the subnormal numbers down to
    [2^-1074].  The exponent has no upper bound here: a result of
    magnitude [2^1024] or more, which is [Infinity] in JS, is outside the
    model. *)

Module Double.

(** The integer [e] with [2^e <= x < 2^(e+1)], for a positive [x]. *)
Definition ilog2 (x : Q) : Z :=
  let d := Z.log2 (Qnum x) - Z.log2 (Zpos (Qden x)) in
  if Qle_bool (2 ^ d) x then d else d - 1.

(** The exponent of the unit in the last place at [x]: 53 significant
    bits, and no less than -1074 (the subnormal numbers). *)
Definition ulpExp (x : Q) : Z := Z.max (ilog2 x - 52) (-1074).

(** The nearest integer, the even one on a tie. *)
Definition nearestEven (y : Q) : Z :=
  let f := Qfloor y in
  match (y - inject_Z f ?= 1 # 2)%Q with
  | Lt => f
  | Gt => f + 1
  | Eq => if Z.even f then f else f + 1
  end.

(** The number nearest to a positive [x]. *)
Definition roundPos (x : Q) : Q :=
  (inject_Z (nearestEven (x / 2 ^ ulpExp x)) * 2 ^ ulpExp x)%Q.

(** The number nearest to [x]. *)
Definition round (x : Q) : Q :=
  match Qnum x with
  | Z0 => 0
  | Zpos _ => roundPos x
  | Zneg _ => - roundPos (- x)
  end%Q.

(** [x] is a number. *)
Definition isDouble (x : Q) : Prop := (round x == x)%Q.

End Double.

(** ** VirtualList, with the arithmetic of JS numbers

    The window of [VirtualList] once more, each division and addition
    rounded as the program's arithmetic rounds it; [VirtualList] above
    takes the exact quotients.  The index arithmetic on [overscan] and
    [total] is on small integers, which is exact. *)

Module VirtualList64.
Section Window.
Context {T : Type}.
Variables (items : list T) (rowHeight height : Q) (overscan : Z)
          (scrollTop : Q).

(** [Math.max(0, Math.floor(scrollTop / rowHeight) - overscan)] *)
Definition startIndex : Z :=
  Z.max 0 (Qfloor (Double.round (scrollTop / rowHeight)) - overscan).

(** [Math.min(total - 1,
              Math.ceil((scrollTop + height) / rowHeight) + overscan)] *)
Definition endIndex : Z :=
  Z.min (VirtualList.total items - 1)
    (Qceiling (Double.round (Double.round (scrollTop + height) / rowHeight))
     + overscan).

(** [items.slice(startIndex, endIndex + 1)] *)
Definition visibleItems : list T :=
  JS.slice items startIndex (endIndex + 1).

(** The rows handed to [renderRow]: [index = startIndex + i]. *)
Definition renderedRows : list (Z * T) :=
  imap (fun i it => (startIndex + Z.of_nat i, it)) visibleItems.
End Window.
End VirtualList64.

(** ** useAsyncItems: the paginated loader

    The hook is an event machine.  Every handler of the source (a call of
    [loadMore], the continuation of [loadMore] after its [await], an effect, a
    timer callback) runs to completion before the next one starts; the model
    has one event for each.  An [AbortController] is named by a number, and
    the fetch started together with it carries the same number. *)

Module AsyncItems.

(** A fetch awaiting completion: the [reset] argument of the [loadMore]
    call that started it and the arguments passed to [fetchItems]. *)
Record request := Request {
  reqReset : bool;
  reqQuery : string;
  reqPage : nat
}.

Record loader := Loader {
  (** [useState] *)
  asyncItems : list Item;
  loading : bool;
  hasMore : bool;
  error : option string;
  selectedItemsCache : gmap string Item;
  (** [useRef] *)
  pageRef : nat;
  queryRef : string;
  loadingRef : bool;
  initialLoadDoneRef : bool;
  abortControllerRef : option nat;
  lastQueryRef : string;
  selectedSet : gset string;
  (** [debounceTimerRef] holds a timeout that has neither fired nor been
      cleared *)
  timerArmed : bool;
  (** the controllers whose [signal.aborted] is true *)
  aborted : gset nat;
  (** the fetches whose promise is still pending *)
  inflight : gmap nat request;
  (** the name of the next controller *)
  nextId : nat
}.

Definition set_asyncItems (v : list Item) (s : loader) : loader :=
  {| asyncItems := v; loading := loading s; hasMore := hasMore s;
     error := error s; selectedItemsCache := selectedItemsCache s;
     pageRef := pageRef s; queryRef := queryRef s;
     loadingRef := loadingRef s;
     initialLoadDoneRef := initialLoadDoneRef s;
     abortControllerRef := abortControllerRef s;
     lastQueryRef := lastQueryRef s; selectedSet := selectedSet s;
     timerArmed := timerArmed s; aborted := aborted s;
     inflight := inflight s; nextId := nextId s |}.

Definition set_loading (v : bool) (s : loader) : loader :=
  {| asyncItems := asyncItems s; loading := v; hasMore := hasMore s;
     error := error s; selectedItemsCache := selectedItemsCache s;
     pageRef := pageRef s; queryRef := queryRef s;
     loadingRef := loadingRef s;
     initialLoadDoneRef := initialLoadDoneRef s;
     abortControllerRef := abortControllerRef s;
     lastQueryRef := lastQueryRef s; selectedSet := selectedSet s;
     timerArmed := timerArmed s; aborted := aborted s;
     inflight := inflight s; nextId := nextId s |}.

Definition set_hasMore (v : bool) (s : loader) : loader :=
  {| asyncItems := asyncItems s; loading := loading s; hasMore := v;
     error := error s; selectedItemsCache := selectedItemsCache s;
     pageRef := pageRef s; queryRef := queryRef s;
     loadingRef := loadingRef s;
     initialLoadDoneRef := initialLoadDoneRef s;
     abortControllerRef := abortControllerRef s;
     lastQueryRef := lastQueryRef s; selectedSet := selectedSet s;
     timerArmed := timerArmed s; aborted := aborted s;
     inflight := inflight s; nextId := nextId s |}.

Definition set_error (v : option string) (s : loader) : loader :=
  {| asyncItems := asyncItems s; loading := loading s;
     hasMore := hasMore s; error := v;
     selectedItemsCache := selectedItemsCache s; pageRef := pageRef s;
     queryRef := queryRef s; loadingRef := loadingRef s;
     initialLoadDoneRef := initialLoadDoneRef s;
     abortControllerRef := abortControllerRef s;
     lastQueryRef := lastQueryRef s; selectedSet := selectedSet s;
     timerArmed := timerArmed s; aborted := aborted s;
     inflight := inflight s; nextId := nextId s |}.

Definition set_selectedItemsCache (v : gmap string Item) (s : loader)
    : loader :=
  {| asyncItems := asyncItems s; loading := loading s;
     hasMore := hasMore s; error := error s; selectedItemsCache := v;
     pageRef := pageRef s; queryRef := queryRef s;
     loadingRef := loadingRef s;
     initialLoadDoneRef := initialLoadDoneRef s;
     abortControllerRef := abortControllerRef s;
     lastQueryRef := lastQueryRef s; selectedSet := selectedSet s;
     timerArmed := timerArmed s; aborted := aborted s;
     inflight := inflight s; nextId := nextId s |}.

Definition set_pageRef (v : nat) (s : loader) : loader :=
  {| asyncItems := asyncItems s; loading := loading s;
     hasMore := hasMore s; error := error s;
     selectedItemsCache := selectedItemsCache s; pageRef := v;
     queryRef := queryRef s; loadingRef := loadingRef s;
     initialLoadDoneRef := initialLoadDoneRef s;
     abortControllerRef := abortControllerRef s;
     lastQueryRef := lastQueryRef s; selectedSet := selectedSet s;
     timerArmed := timerArmed s; aborted := aborted s;
     inflight := inflight s; nextId := nextId s |}.

Definition set_queryRef (v : string) (s : loader) : loader :=
  {| asyncItems := asyncItems s; loading := loading s;
     hasMore := hasMore s; error := error s;
     selectedItemsCache := selectedItemsCache s; pageRef := pageRef s;
     queryRef := v; loadingRef := loadingRef s;
     initialLoadDoneRef := initialLoadDoneRef s;
     abortControllerRef := abortControllerRef s;
     lastQueryRef := lastQueryRef s; selectedSet := selectedSet s;
     timerArmed := timerArmed s; aborted := aborted s;
     inflight := inflight s; nextId := nextId s |}.

Definition set_loadingRef (v : bool) (s : loader) : loader :=
  {| asyncItems := asyncItems s; loading := loading s;
     hasMore := hasMore s; error := error s;
     selectedItemsCache := selectedItemsCache s; pageRef := pageRef s;
     queryRef := queryRef s; loadingRef := v;
     initialLoadDoneRef := initialLoadDoneRef s;
     abortControllerRef := abortControllerRef s;
     lastQueryRef := lastQueryRef s; selectedSet := selectedSet s;
     timerArmed := timerArmed s; aborted := aborted s;
     inflight := inflight s; nextId := nextId s |}.

Definition set_initialLoadDoneRef (v : bool) (s : loader) : loader :=
  {| asyncItems := asyncItems s; loading := loading s;
     hasMore := hasMore s; error := error s;
     selectedItemsCache := selectedItemsCache s; pageRef := pageRef s;
     queryRef := queryRef s; loadingRef := loadingRef s;
     initialLoadDoneRef := v; abortControllerRef := abortControllerRef s;
     lastQueryRef := lastQueryRef s; selectedSet := selectedSet s;
     timerArmed := timerArmed s; aborted := aborted s;
     inflight := inflight s; nextId := nextId s |}.

Definition set_abortControllerRef (v : option nat) (s : loader) : loader :=
  {| asyncItems := asyncItems s; loading := loading s;
     hasMore := hasMore s; error := error s;
     selectedItemsCache := selectedItemsCache s; pageRef := pageRef s;
     queryRef := queryRef s; loadingRef := loadingRef s;
     initialLoadDoneRef := initialLoadDoneRef s; abortControllerRef := v;
     lastQueryRef := lastQueryRef s; selectedSet := selectedSet s;
     timerArmed := timerArmed s; aborted := aborted s;
     inflight := inflight s; nextId := nextId s |}.

Definition set_lastQueryRef (v : string) (s : loader) : loader :=
  {| asyncItems := asyncItems s; loading := loading s;
     hasMore := hasMore s; error := error s;
     selectedItemsCache := selectedItemsCache s; pageRef := pageRef s;
     queryRef := queryRef s; loadingRef := loadingRef s;
     initialLoadDoneRef := initialLoadDoneRef s;
     abortControllerRef := abortControllerRef s; lastQueryRef := v;
     selectedSet := selectedSet s; timerArmed := timerArmed s;
     aborted := aborted s; inflight := inflight s; nextId := nextId s |}.

Definition set_selectedSet (v : gset string) (s : loader) : loader :=
  {| asyncItems := asyncItems s; loading := loading s;
     hasMore := hasMore s; error := error s;
     selectedItemsCache := selectedItemsCache s; pageRef := pageRef s;
     queryRef := queryRef s; loadingRef := loadingRef s;
     initialLoadDoneRef := initialLoadDoneRef s;
     abortControllerRef := abortControllerRef s;
     lastQueryRef := lastQueryRef s; selectedSet := v;
     timerArmed := timerArmed s; aborted := aborted s;
     inflight := inflight s; nextId := nextId s |}.

Definition set_timerArmed (v : bool) (s : loader) : loader :=
  {| asyncItems := asyncItems s; loading := loading s;
     hasMore := hasMore s; error := error s;
     selectedItemsCache := selectedItemsCache s; pageRef := pageRef s;
     queryRef := queryRef s; loadingRef := loadingRef s;
     initialLoadDoneRef := initialLoadDoneRef s;
     abortControllerRef := abortControllerRef s;
     lastQueryRef := lastQueryRef s; selectedSet := selectedSet s;
     timerArmed := v; aborted := aborted s; inflight := inflight s;
     nextId := nextId s |}.

Definition set_aborted (v : gset nat) (s : loader) : loader :=
  {| asyncItems := asyncItems s; loading := loading s;
     hasMore := hasMore s; error := error s;
     selectedItemsCache := selectedItemsCache s; pageRef := pageRef s;
     queryRef := queryRef s; loadingRef := loadingRef s;
     initialLoadDoneRef := initialLoadDoneRef s;
     abortControllerRef := abortControllerRef s;
     lastQueryRef := lastQueryRef s; selectedSet := selectedSet s;
     timerArmed := timerArmed s; aborted := v; inflight := inflight s;
     nextId := nextId s |}.

Definition set_inflight (v : gmap nat request) (s : loader) : loader :=
  {| asyncItems := asyncItems s; loading := loading s;
     hasMore := hasMore s; error := error s;
     selectedItemsCache := selectedItemsCache s; pageRef := pageRef s;
     queryRef := queryRef s; loadingRef := loadingRef s;
     initialLoadDoneRef := initialLoadDoneRef s;
     abortControllerRef := abortControllerRef s;
     lastQueryRef := lastQueryRef s; selectedSet := selectedSet s;
     timerArmed := timerArmed s; aborted := aborted s; inflight := v;
     nextId := nextId s |}.

Definition set_nextId (v : nat) (s : loader) : loader :=
  {| asyncItems := asyncItems s; loading := loading s;
     hasMore := hasMore s; error := error s;
     selectedItemsCache := selectedItemsCache s; pageRef := pageRef s;
     queryRef := queryRef s; loadingRef := loadingRef s;
     initialLoadDoneRef := initialLoadDoneRef s;
     abortControllerRef := abortControllerRef s;
     lastQueryRef := lastQueryRef s; selectedSet := selectedSet s;
     timerArmed := timerArmed s; aborted := aborted s;
     inflight := inflight s; nextId := v |}.

(** What the hook returns to the component. *)
Definition visible (s : loader)
    : list Item * bool * bool * option string * gmap string Item :=
  (asyncItems s, loading s, hasMore s, error s, selectedItemsCache s).

(** The result of a fetch: the page, or a thrown value ([Some] message when
    it is an [Error]). *)
Inductive outcome :=
| Fulfilled (fetched : list Item)
| Rejected (message : option string).

Inductive event :=
| QueryChanged (q : string)            (* a render with a new [query] *)
| SelectionChanged (ids : list string) (* a render with new [selectedIds] *)
| EffectsFlushed                       (* a render after [setLoading] *)
| TimerFired                           (* the debounce timeout *)
| LoadMoreCalled (reset : bool)        (* any caller of [loadMore] *)
| Scrolled (nearBottom : bool)         (* [handleScroll] *)
| RetryClicked                         (* [retry] *)
| Settled (rid : nat) (o : outcome)    (* the awaited promise settles *)
| Unmounted.

Section Hook.
Variable pageSize : nat.

(** [abortControllerRef.current.abort()] when the ref is set. *)
Definition abortCurrent (s : loader) : loader :=
  match abortControllerRef s with
  | Some c => set_aborted ({[c]} ∪ aborted s) s
  | None => s
  end.

(** [loadMore(reset)] up to its [await]. *)
Definition loadMore (reset : bool) (s : loader) : loader :=
  if loadingRef s then s
  else
    let s := abortCurrent s in
    let c := nextId s in
    let s := set_nextId (S c) (set_abortControllerRef (Some c) s) in
    let s :=
      if reset
      then set_error None
             (set_hasMore true (set_asyncItems [] (set_pageRef 0%nat s)))
      else s in
    let s := set_error None (set_loading true s) in
    set_inflight
      (<[c := Request reset (queryRef s) (pageRef s)]> (inflight s)) s.

(** The cache update of a loaded page. *)
Definition cacheFetched (selected : gset string) (fetched : list Item)
    (cache : gmap string Item) : gmap string Item :=
  foldl (fun m it => if decide (id it ∈ selected)
                     then <[id it := it]> m else m) cache fetched.

(** The [finally] block of a request that was not aborted. *)
Definition finish (s : loader) : loader :=
  set_abortControllerRef None (set_loading false s).

(** [loadMore] after its [await], for the fetch named [rid]. *)
Definition settle (rid : nat) (o : outcome) (s : loader) : loader :=
  match inflight s !! rid with
  | None => s
  | Some r =>
      let s := set_inflight (delete rid (inflight s)) s in
      if decide (rid ∈ aborted s) then s
      else
        match o with
        | Fulfilled fetched =>
            let s :=
              set_asyncItems (if reqReset r then fetched
                              else asyncItems s ++ fetched) s in
            let s := set_hasMore (pageSize <=? length fetched)%nat s in
            let s :=
              set_selectedItemsCache
                (cacheFetched (selectedSet s) fetched
                   (selectedItemsCache s)) s in
            let s := set_pageRef (S (pageRef s)) s in
            finish s
        | Rejected message =>
            let s :=
              set_error
                (Some (default "Failed to fetch items" message)) s in
            finish s
        end
  end.

(** The "Debounced search" effect for query [q], after the cleanup of
    its previous run. *)
Definition debounceEffect (q : string) (s : loader) : loader :=
  let s := set_timerArmed false s in
  let s :=
    match abortControllerRef s with
    | Some c =>
        if bool_decide (q <> lastQueryRef s)
        then set_abortControllerRef None
               (set_aborted ({[c]} ∪ aborted s) s)
        else s
    | None => s
    end in
  let s := set_lastQueryRef q s in
  set_timerArmed true s.

Definition step (s : loader) (e : event) : loader :=
  match e with
  | QueryChanged q =>
      debounceEffect q (set_queryRef q (set_loadingRef (loading s) s))
  | SelectionChanged ids =>
      set_selectedSet (list_to_set ids) (set_loadingRef (loading s) s)
  | EffectsFlushed => set_loadingRef (loading s) s
  | TimerFired =>
      if timerArmed s
      then loadMore true
             (set_initialLoadDoneRef true (set_timerArmed false s))
      else s
  | LoadMoreCalled reset => loadMore reset s
  | Scrolled nearBottom =>
      if nearBottom && hasMore s && negb (loadingRef s)
         && negb (bool_decide (is_Some (error s)))
      then loadMore false s else s
  | RetryClicked => loadMore true (set_error None s)
  | Settled rid o => settle rid o s
  | Unmounted => set_timerArmed false (abortCurrent s)
  end.

Definition run (es : list event) (s : loader) : loader := foldl step s es.

Definition initial (ids : list string) : loader :=
  {| asyncItems := []; loading := false; hasMore := true; error := None;
     selectedItemsCache := ∅; pageRef := 0%nat; queryRef := "";
     loadingRef := false; initialLoadDoneRef := false;
     abortControllerRef := None; lastQueryRef := "";
     selectedSet := list_to_set ids; timerArmed := false; aborted := ∅;
     inflight := ∅; nextId := 0%nat |}.

(** The effects of the first render, in source order; the last one is
    the "Initial load" effect. *)
Definition mount (q : string) (ids : list string) : loader :=
  let s := debounceEffect q (set_queryRef q (initial ids)) in
  if initialLoadDoneRef s then s else loadMore true s.
End Hook.

End AsyncItems.

(** ** useSelection, useKeyboardNavigation, helpers.ts

    The state a [MultiSelect] instance and its parent hold.  [selectedIds]
    is a prop: [onChange next] is modelled by the parent storing [next], as
    every caller of the component does.  [mruOrder] is the state behind the
    [setMruOrder] option of [useKeyboardNavigation]. *)

Module Widget.

Record widget := MkWidget {
  items : option (list Item);
  isAsync : bool;
  selectedIds : list string;
  open : bool;
  query : string;
  activeIndex : Z;
  mruOrder : list string;
  asyncItems : list Item;
  selectedItemsCache : gmap string Item
}.

Definition set_selectedIds (v : list string) (s : widget) : widget :=
  {| items := items s; isAsync := isAsync s; selectedIds := v;
     open := open s; query := query s; activeIndex := activeIndex s;
     mruOrder := mruOrder s; asyncItems := asyncItems s;
     selectedItemsCache := selectedItemsCache s |}.

Definition set_open (v : bool) (s : widget) : widget :=
  {| items := items s; isAsync := isAsync s; selectedIds := selectedIds s;
     open := v; query := query s; activeIndex := activeIndex s;
     mruOrder := mruOrder s; asyncItems := asyncItems s;
     selectedItemsCache := selectedItemsCache s |}.

Definition set_query (v : string) (s : widget) : widget :=
  {| items := items s; isAsync := isAsync s; selectedIds := selectedIds s;
     open := open s; query := v; activeIndex := activeIndex s;
     mruOrder := mruOrder s; asyncItems := asyncItems s;
     selectedItemsCache := selectedItemsCache s |}.

Definition set_activeIndex (v : Z) (s : widget) : widget :=
  {| items := items s; isAsync := isAsync s; selectedIds := selectedIds s;
     open := open s; query := query s; activeIndex := v;
     mruOrder := mruOrder s; asyncItems := asyncItems s;
     selectedItemsCache := selectedItemsCache s |}.

Definition set_mruOrder (v : list string) (s : widget) : widget :=
  {| items := items s; isAsync := isAsync s; selectedIds := selectedIds s;
     open := open s; query := query s; activeIndex := activeIndex s;
     mruOrder := v; asyncItems := asyncItems s;
     selectedItemsCache := selectedItemsCache s |}.

Definition set_selectedItemsCache (v : gmap string Item) (s : widget)
    : widget :=
  {| items := items s; isAsync := isAsync s; selectedIds := selectedIds s;
     open := open s; query := query s; activeIndex := activeIndex s;
     mruOrder := mruOrder s; asyncItems := asyncItems s;
     selectedItemsCache := v |}.

(** [arr.find(i => i.id === x)] *)
Definition findById (x : string) (arr : list Item) : option Item :=
  find (fun i => bool_decide (id i = x)) arr.

(** The memoised [orderedItems] of [MultiSelect]. *)
Definition orderedItems (w : widget) : list Item :=
  match items w with
  | Some its => orderItemsSync its (selectedIds w) (query w)
  | None => orderItemsAsync (asyncItems w) (selectedIds w)
  end.

(** [commitSelection(id)] of [useSelection]. *)
Definition commitSelection (x : string) (w : widget) : widget :=
  let isRemoving := bool_decide (x ∈ selectedIds w) in
  let kept := filter (fun y => y <> x) (selectedIds w) in
  let next := if isRemoving then kept else x :: kept in
  let w := set_selectedIds next w in
  let w :=
    if isAsync w
    then
      let prev := selectedItemsCache w in
      set_selectedItemsCache
        (if isRemoving then delete x prev
         else match findById x (asyncItems w) with
              | Some it => <[x := it]> prev
              | None => prev
              end) w
    else w in
  set_query "" w.

(** [getSelectedItem(id, isSync, items, selectedItems, asyncItems)] *)
Definition getSelectedItem (x : string) (isSync : bool)
    (its : option (list Item)) (selectedItems : gmap string Item)
    (fetched : list Item) : option Item :=
  match isSync, its with
  | true, Some l => findById x l
  | _, _ =>
      match selectedItems !! x with
      | Some it => Some it
      | None => findById x fetched
      end
  end.

(** [if (active) commitSelection(active.id)] for
    [active = orderedItems[activeIndex]]. *)
Definition commitActive (w : widget) : widget :=
  match JS.at_ (orderedItems w) (activeIndex w) with
  | Some active => commitSelection (id active) w
  | None => w
  end.

(** [onKeyDown(e)] of [useKeyboardNavigation] for [e.key = key]; the
    boolean tells whether [e.preventDefault()] was called. *)
Definition onKeyDown (key : string) (w : widget) : widget * bool :=
  let len := Z.of_nat (length (orderedItems w)) in
  if negb (open w)
     && (bool_decide (key = "ArrowDown") || bool_decide (key = "Enter"))
  then (set_open true w, true)
  else if negb (open w) then (w, false)
  else if bool_decide (key = "ArrowDown")
  then (set_activeIndex (Z.min (activeIndex w + 1) (len - 1)) w, true)
  else if bool_decide (key = "ArrowUp")
  then (set_activeIndex (Z.max (activeIndex w - 1) 0) w, true)
  else if bool_decide (key = "Home") then (set_activeIndex 0 w, true)
  else if bool_decide (key = "End")
  then (set_activeIndex (Z.max 0 (len - 1)) w, true)
  else if bool_decide (key = "Enter") then (commitActive w, true)
  else if bool_decide (key = " ")
  then if JS.isEmpty (JS.trim (query w)) then (commitActive w, true)
       else (w, false)
  else if bool_decide (key = "Escape") then (set_open false w, true)
  else if bool_decide (key = "Backspace")
  then
    if JS.isEmpty (query w) && negb (length (selectedIds w) =? 0)%nat
    then
      match JS.at_ (selectedIds w)
              (Z.of_nat (length (selectedIds w)) - 1) with
      | Some last =>
          if JS.isEmpty last then (w, true)
          else
            let w' :=
              set_selectedIds (JS.slice (selectedIds w) 0 (-1)) w in
            (set_mruOrder
               (last :: filter (fun y => y <> last) (mruOrder w')) w',
             true)
      | None => (w, true)
      end
    else (w, false)
  else (w, false).

End Widget.

(** ** useMRUOrder *)

(** The state update of [updateMRU(id)] and of [updateMRUOnRemove(id)]:
    [prev => [id, ...prev.filter(x => x !== id)]]. *)
Definition updateMRU (x : string) (prev : list string) : list string :=
  x :: filter (fun y => y <> x) prev.

(** ** MultiSelect.tsx: clearAll, and a new page of fetched items *)

(** [clearAll()]: [onChange([])], and in server mode
    [setSelectedItemsCache(new Map())]. *)
Definition clearAll (w : Widget.widget) : Widget.widget :=
  let w := Widget.set_selectedIds [] w in
  if Widget.isAsync w then Widget.set_selectedItemsCache ∅ w else w.

(** The component rendered again with another [asyncItems] from
    [useAsyncItems]. *)
Definition withAsyncItems (fetched : list Item) (w : Widget.widget)
    : Widget.widget :=
  {| Widget.items := Widget.items w; Widget.isAsync := Widget.isAsync w;
     Widget.selectedIds := Widget.selectedIds w;
     Widget.open := Widget.open w; Widget.query := Widget.query w;
     Widget.activeIndex := Widget.activeIndex w;
     Widget.mruOrder := Widget.mruOrder w; Widget.asyncItems := fetched;
     Widget.selectedItemsCache := Widget.selectedItemsCache w |}.

(** ** useTokenNavigation *)

Module TokenNavigation.

(** Where the handler sends the focus: to the search input, or to the
    token button labelled [Remove <label>]. *)
Inductive focus :=
| FocusInput
| FocusToken (label : string).

(** [selectedIds.indexOf(id)]: the first index, or -1. *)
Fixpoint indexOf (ids : list string) (x : string) : Z :=
  match ids with
  | [] => -1
  | y :: ids' =>
      if bool_decide (y = x) then 0
      else let k := indexOf ids' x in if k <? 0 then -1 else k + 1
  end.

(** [focusTokenById(tokenId)], with [getSelectedItem] as [lookup]. *)
Definition focusTokenById (lookup : string -> option Item)
    (tokenId : option string) : focus :=
  match tokenId with
  | None => FocusInput
  | Some t =>
      if JS.isEmpty t then FocusInput
      else match lookup t with
           | Some it =>
               if JS.isEmpty (label it) then FocusInput
               else FocusToken (label it)
           | None => FocusInput
           end
  end.

(** [currentIndex < selectedIds.length - 1
       ? selectedIds[currentIndex + 1] : null] *)
Definition nextId (ids : list string) (currentIndex : Z) : option string :=
  if currentIndex <? Z.of_nat (length ids) - 1
  then JS.at_ ids (currentIndex + 1) else None.

(** [currentIndex > 0 ? selectedIds[currentIndex - 1] : null] *)
Definition prevId (ids : list string) (currentIndex : Z) : option string :=
  if 0 <? currentIndex then JS.at_ ids (currentIndex - 1) else None.

(** [nextId ?? prevId] *)
Definition afterRemoval (ids : list string) (currentIndex : Z)
    : option string :=
  match nextId ids currentIndex with
  | Some t => Some t
  | None => prevId ids currentIndex
  end.

(** [handleTokenKeyDown(id, e)] for [e.key = key]: the new state, the focus
    the handler asks for ([None]: it asks for none), and whether it called
    [preventDefault] and [stopPropagation]. *)
Definition handleTokenKeyDown (x key : string) (w : Widget.widget)
    : Widget.widget * option focus * bool :=
  let ids := Widget.selectedIds w in
  let lookup t :=
    Widget.getSelectedItem t (bool_decide (is_Some (Widget.items w)))
      (Widget.items w) (Widget.selectedItemsCache w) (Widget.asyncItems w) in
  let currentIndex := indexOf ids x in
  if bool_decide (key = "Backspace") || bool_decide (key = "Delete")
  then (Widget.commitSelection x w,
        Some (focusTokenById lookup (afterRemoval ids currentIndex)), true)
  else if bool_decide (key = "ArrowLeft")
  then (w, Some (focusTokenById lookup (prevId ids currentIndex)), true)
  else if bool_decide (key = "ArrowRight")
  then (w, Some (focusTokenById lookup (nextId ids currentIndex)), true)
  else (w, None, false).

End TokenNavigation.

(** ** useScrollIntoView *)

Module ScrollIntoView.

(** What the effect reads of the scrolling container. *)
Record container := Container {
  scrollTop : Q;
  clientHeight : Q
}.

(** The option element found by [getElementById]: its [offsetTop] and
    [offsetHeight]. *)
Record element := Element {
  offsetTop : Q;
  offsetHeight : Q
}.

(** The body of the effect: the value [container.scrollTop] has when it
    ends.  [box] is the container ([None]: the ref is empty), [found] the
    option element of the server mode ([None]: there is none). *)
Definition scrollIntoView (activeIndex : Z) (isOpen : bool) (itemCount : Z)
    (isSync : bool) (rowHeight : Q) (found : option element)
    (box : option container) : option Q :=
  match box with
  | None => None
  | Some c =>
      if negb isOpen || (itemCount =? 0) || (activeIndex <? 0)
      then Some (scrollTop c)
      else
        let geometry :=
          if isSync then Some (inject_Z activeIndex * rowHeight, rowHeight)%Q
          else match found with
               | Some el =>
                   Some (offsetTop el,
                         if Qeq_bool (offsetHeight el) 0 then rowHeight
                         else offsetHeight el)
               | None => None
               end in
        match geometry with
        | None => Some (scrollTop c)
        | Some (optionTop, optionHeight) =>
            let optionBottom := (optionTop + optionHeight)%Q in
            let viewportBottom := (scrollTop c + clientHeight c)%Q in
            if Qlt_le_dec optionTop (scrollTop c) then Some optionTop
            else if Qlt_le_dec viewportBottom optionBottom
                 then Some (optionBottom - clientHeight c)%Q
                 else Some (scrollTop c)
        end
  end.

End ScrollIntoView.

(** ** utils/data.ts: the demo backend *)

Module Backend.

(** [s.includes(t)] on code units. *)
Fixpoint includes (s t : list ascii) : bool :=
  bool_decide (take (length t) s = t)
  || match s with
     | [] => false
     | _ :: s' => includes s' t
     end.

(** The filter of [fetchItems]: the label or the group holds the query,
    whatever the case. *)
Definition matches (query : string) (it : Item) : bool :=
  let q := JS.chars (JS.toLowerCase query) in
  includes (JS.chars (JS.toLowerCase (label it))) q
  || match group it with
     | Some g => includes (JS.chars (JS.toLowerCase g)) q
     | None => false
     end.

(** [fetchItems(query, page)] over the data set [allItems], once its
    delay has passed. *)
Definition fetchItems (allItems : list Item) (query : string) (page : nat)
    : list Item :=
  let pageSize := 50 in
  let offset := Z.of_nat page * pageSize in
  let filtered :=
    if JS.isEmpty query then allItems
    else List.filter (matches query) allItems in
  JS.slice filtered offset (offset + pageSize).

End Backend.

(** ** Vocabulary of the specification *)

(** [needle] is a case-insensitive ordered subsequence of [haystack]. *)
Definition subsequenceIgnoringCase (needle haystack : string) : Prop :=
  JS.chars (JS.toLowerCase needle)
  `sublist_of` JS.chars (JS.toLowerCase haystack).

(** The length of the last run of matches at adjacent haystack positions;
    [ps] lists the matched positions, most recent first. *)
Fixpoint trailingRun (ps : list nat) : nat :=
  match ps with
  | [] => 0
  | p :: rest =>
      match rest with
      | q :: _ => if (p =? S q)%nat then S (trailingRun rest) else 1
      | [] => 1
      end
  end.

(** The lengths of all maximal runs of matches at adjacent positions, last
    run first. *)
Fixpoint maximalRuns (ps : list nat) : list nat :=
  match ps with
  | [] => []
  | p :: rest =>
      let runs := maximalRuns rest in
      match rest, runs with
      | q :: _, r :: rs =>
          if (p =? S q)%nat then S r :: rs else 1%nat :: r :: rs
      | _, _ => [1%nat]
      end
  end.

(** No match is preceded by a stray copy of the previous needle character:
    whenever the test of the run counter succeeds, the two matches are at
    adjacent positions. *)
Fixpoint adjacencyExact (h n : list ascii) (ps : list nat) : bool :=
  match ps with
  | p :: rest =>
      match rest with
      | q :: _ =>
          implb (continuesRun h n (length rest) p) (p =? S q)%nat
          && adjacencyExact h n rest
      | [] => true
      end
  | [] => true
  end.

(** The score under the reading that every maximal run subtracts its own
    length (the code subtracts [consecutive] once). *)
Definition fuzzyScore_every_run (haystack needle : string) : option Z :=
  if JS.isEmpty needle then Some 0
  else
    let h := JS.chars (JS.toLowerCase haystack) in
    let n := JS.chars (JS.toLowerCase needle) in
    match runScan h n with
    | None => None
    | Some st =>
        Some (Z.max 0 (penalty st + prefixBonus h n + wordBonus h st
                       - Z.of_nat (foldr Nat.add 0%nat
                                     (maximalRuns (matchedAt st)))))
    end.

(** The run counter along the outer loop.  [i] needle characters have been
    matched; the last one at the head of [matchedAt]. *)
Definition scanInv (h n : list ascii) (i : nat) (st : scan) : Prop :=
  length (matchedAt st) = i
  /\ match matchedAt st with
     | q :: _ => h !! q = n !! (i - 1)%nat /\ hIdx st = S q
     | [] => True
     end
  /\ (adjacencyExact h n (matchedAt st) = true ->
      consecutive st = Z.of_nat (trailingRun (matchedAt st))).

(** [a] may stand before [b] under the comparator [cmp]. *)
Definition notAfter {A} (cmp : A -> A -> comparison) (a b : A) : Prop :=
  cmp a b <> Gt.

(** The selected partition, as [separateItems] returns it. *)
Definition selectedPart (items : list Item) (selectedIds : list string)
    : list Item :=
  fst (separateItems items selectedIds).

(** The unselected partition, in input order. *)
Definition unselectedPart (items : list Item) (selectedIds : list string)
    : list Item :=
  snd (separateItems items selectedIds).

(** What follows the selected partition in the ordered view. *)
Definition restOf (items : list Item) (selectedIds : list string)
    (query : string) : list Item :=
  if JS.isEmpty query then unselectedPart items selectedIds
  else item <$> fuzzyFilter (unselectedPart items selectedIds) label query None.

(** Server mode: [fetchItems] is given and [items] is not. *)
Definition serverMode (w : Widget.widget) : Prop :=
  Widget.isAsync w = true /\ Widget.items w = None.

(** The lookup [MultiSelect] makes for the token of id [x]. *)
Definition selectedItemOf (x : string) (w : Widget.widget) : option Item :=
  Widget.getSelectedItem x (bool_decide (is_Some (Widget.items w)))
    (Widget.items w) (Widget.selectedItemsCache w) (Widget.asyncItems w).

(** The loader's invariant: controllers are named in the order of their
    creation, and a pending fetch other than the current one has been
    aborted. *)
Record inv (s : AsyncItems.loader) : Prop := Inv {
  inv_inflight_fresh :
    forall rid, is_Some (AsyncItems.inflight s !! rid) ->
                (rid < AsyncItems.nextId s)%nat;
  inv_current_fresh :
    forall c, AsyncItems.abortControllerRef s = Some c ->
              (c < AsyncItems.nextId s)%nat;
  inv_stale_aborted :
    forall rid, is_Some (AsyncItems.inflight s !! rid) ->
                AsyncItems.abortControllerRef s <> Some rid ->
                rid ∈ AsyncItems.aborted s
}.

(** An event that supersedes the outstanding requests: it starts a newer
    request, or it changes the query. *)
Definition supersedes (pageSize : nat) (s : AsyncItems.loader)
    (e : AsyncItems.event) : Prop :=
  (AsyncItems.nextId s < AsyncItems.nextId (AsyncItems.step pageSize s e))%nat
  \/ exists q, e = AsyncItems.QueryChanged q /\ q <> AsyncItems.lastQueryRef s.

(** While the request of the current controller is not cancelled, the hook
    reports that it is loading, and no error. *)
Definition liveReportsLoading (s : AsyncItems.loader) : Prop :=
  forall c, AsyncItems.abortControllerRef s = Some c ->
            c ∉ AsyncItems.aborted s ->
            AsyncItems.loading s = true /\ AsyncItems.error s = None.

(** The hook is loading, and every pending request is cancelled. *)
Definition stalled (s : AsyncItems.loader) : Prop :=
  AsyncItems.loading s = true
  /\ AsyncItems.loadingRef s = true
  /\ forall rid, is_Some (AsyncItems.inflight s !! rid) ->
                 rid ∈ AsyncItems.aborted s.

(** *** Sample widgets *)

(** A widget over the items of the tests, nothing selected, view open. *)
Definition localWidget : Widget.widget :=
  {| Widget.items := Some mockItems; Widget.isAsync := false;
     Widget.selectedIds := []; Widget.open := true; Widget.query := "";
     Widget.activeIndex := 0; Widget.mruOrder := [];
     Widget.asyncItems := []; Widget.selectedItemsCache := ∅ |}.

(** A widget in server mode showing the first page of two items. *)
Definition serverWidget : Widget.widget :=
  {| Widget.items := None; Widget.isAsync := true;
     Widget.selectedIds := []; Widget.open := true; Widget.query := "";
     Widget.activeIndex := 0; Widget.mruOrder := [];
     Widget.asyncItems := [MkItem "1" "Alpha" None; MkItem "2" "Beta" None];
     Widget.selectedItemsCache := ∅ |}.

(** One item whose label holds a space. *)
Definition spacedWidget : Widget.widget :=
  {| Widget.items := Some [MkItem "1" "Alpha Beta" None];
     Widget.isAsync := false; Widget.selectedIds := [];
     Widget.open := true; Widget.query := " ";
     Widget.activeIndex := 0; Widget.mruOrder := [];
     Widget.asyncItems := []; Widget.selectedItemsCache := ∅ |}.

(** * Verification *)

(** *** Facts about the scan of [fuzzyScore] *)

Section FuzzyFacts.
Variables h n : list ascii.

Lemma drop_lookup_cons (k : nat) (c : ascii) :
  h !! k = Some c -> drop k h = c :: drop (S k) h.
Proof.
  revert k. induction h as [|x l IH]; intros [|k] Hk; simplify_eq/=; auto.
Qed.

(** A successful [seek] stops at the first occurrence of [ch] at or after
    the cursor, and has skipped exactly the characters before it. *)
Lemma seek_true fuel i ch st st' :
  seek fuel h n i ch st = (st', true) ->
  exists mid,
    drop (hIdx st) h = mid ++ ch :: drop (hIdx st') h
    /\ (ch ∉ mid)
    /\ hIdx st' = S (hIdx st + length mid)
    /\ penalty st' =
         (if isWordBoundary h (Z.of_nat (hIdx st + length mid))
          then penalty st + Z.of_nat (length mid) - 1
          else penalty st + Z.of_nat (length mid))
    /\ consecutive st' =
         (if continuesRun h n i (hIdx st + length mid)
          then consecutive st + 1 else 1)
    /\ matchedAt st' = (hIdx st + length mid)%nat :: matchedAt st.
Proof.
  revert st. induction fuel as [|fuel IH]; intros st Hs; simpl in Hs.
  { discriminate. }
  destruct (h !! hIdx st) as [c|] eqn:Hc; [|discriminate].
  case_bool_decide as Heq.
  - injection Hs as <-. subst c. exists []. simpl.
    rewrite Nat.add_0_r, Z.add_0_r. split_and!; auto.
    + by apply drop_lookup_cons.
    + apply not_elem_of_nil.
  - apply IH in Hs as (mid & Hd & Hnin & Hk & Hp & Hcons & Hm).
    simpl in *. exists (c :: mid). simpl.
    replace (hIdx st + S (length mid))%nat with (S (hIdx st + length mid))
      by lia.
    split_and!; auto.
    + rewrite (drop_lookup_cons _ _ Hc). by f_equal.
    + apply not_elem_of_cons. split; auto.
    + rewrite Hp. destruct (isWordBoundary _ _); lia.
Qed.

(** With enough fuel a failed [seek] means [ch] does not occur after the
    cursor. *)
Lemma seek_false fuel i ch st st' :
  (length h - hIdx st <= fuel)%nat ->
  seek fuel h n i ch st = (st', false) ->
  ch ∉ drop (hIdx st) h.
Proof.
  revert st. induction fuel as [|fuel IH]; intros st Hf Hs; simpl in Hs.
  { rewrite drop_ge by lia. apply not_elem_of_nil. }
  destruct (h !! hIdx st) as [c|] eqn:Hc.
  - case_bool_decide as Heq; [discriminate|].
    rewrite (drop_lookup_cons _ _ Hc). apply not_elem_of_cons. split.
    + congruence.
    + apply (IH (onSkip st)); [simpl; lia | exact Hs].
  - apply lookup_ge_None in Hc. rewrite drop_ge by lia.
    apply not_elem_of_nil.
Qed.

(** The fuel of [seek] is never the reason to stop: any amount that covers
    the rest of the haystack gives the same result. *)
Lemma seek_fuel fuel1 fuel2 i ch st :
  (length h - hIdx st <= fuel1)%nat -> (length h - hIdx st <= fuel2)%nat ->
  seek fuel1 h n i ch st = seek fuel2 h n i ch st.
Proof.
  revert fuel2 st. induction fuel1 as [|fuel1 IH]; intros fuel2 st H1 H2.
  - destruct fuel2 as [|fuel2]; simpl; [done|].
    rewrite (proj2 (lookup_ge_None h (hIdx st))) by lia. done.
  - simpl. destruct (h !! hIdx st) as [c|] eqn:Hc.
    + pose proof (lookup_lt_Some _ _ _ Hc) as Hlt.
      destruct fuel2 as [|fuel2]; [lia|]. simpl. rewrite Hc.
      case_bool_decide; [done|]. apply IH; simpl; lia.
    + destruct fuel2 as [|fuel2]; simpl; [done|]. by rewrite Hc.
Qed.

Lemma sublist_after_first (ch : ascii) (r mid tl : list ascii) :
  ch ∉ mid -> ch :: r `sublist_of` mid ++ ch :: tl -> r `sublist_of` tl.
Proof.
  induction mid as [|c mid IH]; simpl; intros Hnin Hsub.
  - inversion Hsub; subst; auto.
    etrans; [|eassumption]. by apply sublist_cons.
  - apply not_elem_of_cons in Hnin as [Hne Hnin].
    inversion Hsub; subst; [congruence|]. by apply IH.
Qed.

(** The outer loop succeeds exactly when the rest of the needle is an
    ordered subsequence of the haystack after the cursor. *)
Lemma matchLoop_iff_sublist rest i st :
  is_Some (matchLoop h n i rest st) <-> rest `sublist_of` drop (hIdx st) h.
Proof.
  revert i st. induction rest as [|ch rest IH]; intros i st; simpl.
  { split; [intros _; apply sublist_nil_l | eauto]. }
  destruct (seek (length h) h n i ch st) as [st' found] eqn:Hs.
  destruct found.
  - destruct (seek_true _ _ _ _ _ Hs) as (mid & Hd & Hnin & _).
    rewrite IH, Hd. split.
    + intros Hsub. apply sublist_inserts_l. by constructor.
    + by apply sublist_after_first.
  - apply seek_false in Hs; [|lia]. split.
    + intros [? ?]; discriminate.
    + intros Hsub. exfalso. apply Hs.
      apply (sublist_subseteq _ _ Hsub). left.
Qed.

Lemma charAt_pred (s : list ascii) (k : nat) :
  JS.charAt s (Z.of_nat (S k) - 1) = s !! k.
Proof.
  unfold JS.charAt. destruct (Z.ltb_spec (Z.of_nat (S k) - 1) 0); [lia|].
  f_equal. lia.
Qed.

Lemma scanInv_step i ch st st' :
  n !! i = Some ch ->
  scanInv h n i st ->
  seek (length h) h n i ch st = (st', true) ->
  scanInv h n (S i) st'.
Proof.
  intros Hn (Hlen & Hlast & Hrun) Hs.
  destruct (seek_true _ _ _ _ _ Hs) as (mid & Hd & _ & Hk & _ & Hc & Hm).
  set (k := (hIdx st + length mid)%nat) in *.
  assert (Hhk : h !! k = Some ch).
  { assert (Hl : drop (hIdx st) h !! length mid = Some ch).
    { rewrite Hd. by apply list_lookup_middle. }
    by rewrite lookup_drop in Hl. }
  unfold scanInv. rewrite Hm. simpl. split_and!.
  - by rewrite Hlen.
  - rewrite Nat.sub_0_r. by rewrite Hhk, Hn.
  - exact Hk.
  - rewrite Hc. destruct (matchedAt st) as [|q ps] eqn:Hps.
    + intros _. simpl in Hlen. subst i. reflexivity.
    + destruct Hlast as [Hq Hidx].
      intros [Himp Hrest]%andb_prop.
      specialize (Hrun Hrest). rewrite Hlen in Himp.
      destruct (Nat.eqb_spec k (S q)) as [Heq|Hne].
      * assert (Hcont : continuesRun h n i k = true).
        { unfold continuesRun. rewrite Heq.
          destruct i as [|i]; [simpl in Hlen; lia|].
          rewrite !charAt_pred. simpl in Hq. rewrite Nat.sub_0_r in Hq.
          rewrite Hq. by rewrite bool_decide_eq_true_2. }
        rewrite Hcont, Hrun. lia.
      * destruct (continuesRun h n i k); [discriminate|reflexivity].
Qed.

Lemma matchLoop_scanInv rest i st st' :
  (i <= length n)%nat ->
  drop i n = rest ->
  scanInv h n i st ->
  matchLoop h n i rest st = Some st' ->
  scanInv h n (length n) st'.
Proof.
  revert i st. induction rest as [|ch rest IH]; intros i st Hi Hd Hinv Hm.
  - simpl in Hm. injection Hm as <-.
    apply (f_equal length) in Hd. rewrite length_drop in Hd. simpl in Hd.
    by replace (length n) with i by lia.
  - simpl in Hm.
    destruct (seek (length h) h n i ch st) as [st1 found] eqn:Hs.
    destruct found; [|discriminate].
    assert (Hn : n !! i = Some ch).
    { rewrite <- (Nat.add_0_r i), <- lookup_drop, Hd. reflexivity. }
    apply (IH (S i) st1); auto.
    + apply lookup_lt_Some in Hn. lia.
    + replace (S i) with (i + 1)%nat by lia.
      rewrite <- drop_drop, Hd. reflexivity.
    + eapply scanInv_step; eauto.
Qed.

End FuzzyFacts.

(** ** fuzzyScore *)

Lemma isEmpty_true (s : string) : JS.isEmpty s = true <-> s = "".
Proof. destruct s; simpl; split; congruence. Qed.

(** C3. [fuzzyScore haystack needle] returns a number exactly when [needle]
    is a case-insensitive ordered subsequence of [haystack] (and [null]
    otherwise); the empty needle scores 0 on every haystack; a returned score
    is never negative. *)
Theorem fuzzyScore_matches_subsequences (haystack needle : string) :
  (is_Some (fuzzyScore haystack needle)
   <-> subsequenceIgnoringCase needle haystack)
  /\ fuzzyScore haystack "" = Some 0
  /\ match fuzzyScore haystack needle with
     | Some s => 0 <= s
     | None => True
     end.
Proof.
  split_and!.
  - unfold fuzzyScore, subsequenceIgnoringCase.
    destruct (JS.isEmpty needle) eqn:He.
    + apply isEmpty_true in He. subst needle. split; [|eauto].
      intros _. apply sublist_nil_l.
    + set (h := JS.chars (JS.toLowerCase haystack)).
      set (n := JS.chars (JS.toLowerCase needle)).
      pose proof (matchLoop_iff_sublist h n n 0%nat scan0) as Hiff.
      simpl in Hiff. rewrite <- Hiff. unfold runScan.
      destruct (matchLoop h n 0 n scan0).
      * split; intros _; eexists; reflexivity.
      * split; intros [? ?]; discriminate.
  - reflexivity.
  - unfold fuzzyScore. destruct (JS.isEmpty needle); [lia|].
    destruct (runScan _ _); [lia|exact I].
Qed.

(** The tests of the specification. *)
Example fuzzyScore_prefix_beats_subsequence :
  fuzzyScore "Alpha Beta" "al" = Some 0
  /\ fuzzyScore "Beta Alpha" "al" = Some 3
  /\ fuzzyScore "Alpha Beta" "xyz" = None.
Proof. repeat split; vm_compute; reflexivity. Qed.

(** C6, as the code has it.  When haystack and needle match, the score
    subtracts one run length only, once: the final value of the run counter
    [consecutive] (earlier runs subtract nothing).  Whenever the counter's
    test succeeds only at adjacent matches, that value is the length of the
    last run of matches at adjacent haystack positions. *)
Theorem fuzzyScore_subtracts_last_run (haystack needle : string) (st : scan) :
  let h := JS.chars (JS.toLowerCase haystack) in
  let n := JS.chars (JS.toLowerCase needle) in
  needle <> "" ->
  runScan h n = Some st ->
  fuzzyScore haystack needle
  = Some (Z.max 0 (penalty st + prefixBonus h n + wordBonus h st
                   - consecutive st))
  /\ (adjacencyExact h n (matchedAt st) = true ->
      consecutive st = Z.of_nat (trailingRun (matchedAt st))).
Proof.
  intros h n Hne Hrun. split.
  - unfold fuzzyScore. destruct (JS.isEmpty needle) eqn:He.
    { apply isEmpty_true in He. contradiction. }
    fold h n. rewrite Hrun. reflexivity.
  - unfold runScan in Hrun.
    assert (Hinv : scanInv h n (length n) st).
    { eapply (matchLoop_scanInv h n n 0%nat scan0); eauto.
      - lia.
      - unfold scanInv. simpl. auto. }
    apply Hinv.
Qed.

Lemma fuzzyScore_subtracts_last_run_witness :
  fuzzyScore "xxxxxxxxxxabxcd" "abcd" = Some (Z.max 0 (11 + 0 + 0 - 2))
  /\ 2 = Z.of_nat (trailingRun [14; 13; 11; 10]%nat).
Proof.
  pose proof (fuzzyScore_subtracts_last_run "xxxxxxxxxxabxcd" "abcd"
                (Scan 15 11 2 10 [14; 13; 11; 10]%nat)) as H.
  destruct H as [H1 H2]; [discriminate | reflexivity |].
  split; [exact H1 | apply H2; reflexivity].
Defined.

(** C6 as stated fails, in two ways.  With two maximal runs of length 2
    (["abcd"] in ["xxxxxxxxxxabxcd"], matched at 10, 11, 13, 14) the claim
    subtracts 4, the code 2.  And the counter's test compares characters,
    not positions: in ["xxxxxaab"] the needle ["ab"] matches at 5 and 7,
    which are not adjacent, and still counts as a run of 2, one better than
    ["xxxxxacb"] with the same matched positions. *)
Lemma fuzzyScore_runs_not_as_claimed :
  (fuzzyScore "xxxxxxxxxxabxcd" "abcd" = Some 9
   /\ fuzzyScore_every_run "xxxxxxxxxxabxcd" "abcd" = Some 7
   /\ fuzzyScore "xxxxxxxxxxabxcd" "abcd"
      <> fuzzyScore_every_run "xxxxxxxxxxabxcd" "abcd")
  /\ ((matchedAt <$> runScan (JS.chars "xxxxxaab") (JS.chars "ab"))
      = Some [7; 5]%nat
      /\ trailingRun [7; 5]%nat = 1%nat
      /\ (consecutive <$> runScan (JS.chars "xxxxxaab") (JS.chars "ab"))
         = Some 2
      /\ fuzzyScore "xxxxxaab" "ab" = Some 4
      /\ (matchedAt <$> runScan (JS.chars "xxxxxacb") (JS.chars "ab"))
         = Some [7; 5]%nat
      /\ fuzzyScore "xxxxxacb" "ab" = Some 5).
Proof.
  split.
  - split_and!; [reflexivity | reflexivity | discriminate].
  - split_and!; reflexivity.
Qed.

(** ** Array.prototype.sort *)

Section SortFacts.
Context {A : Type} (cmp : A -> A -> comparison).

Lemma insert_Permutation x l : JS.insert cmp x l ≡ₚ x :: l.
Proof.
  induction l as [|y l IH]; simpl; [done|].
  destruct (cmp x y); try done.
  rewrite IH. apply Permutation_swap.
Qed.

Lemma sort_Permutation l : JS.sort cmp l ≡ₚ l.
Proof.
  induction l as [|x l IH]; simpl; [done|].
  by rewrite insert_Permutation, IH.
Qed.

Hypothesis cmp_trans :
  forall a b c, notAfter cmp a b -> notAfter cmp b c -> notAfter cmp a c.
Hypothesis cmp_total : forall a b, cmp a b = Gt -> notAfter cmp b a.

Lemma insert_sorted x l :
  StronglySorted (notAfter cmp) l ->
  StronglySorted (notAfter cmp) (JS.insert cmp x l).
Proof.
  induction 1 as [|y l Hl IH Hy]; simpl.
  { repeat constructor. }
  destruct (cmp x y) eqn:Hxy.
  - constructor; [by constructor|]. constructor.
    + unfold notAfter. congruence.
    + eapply Forall_impl; [exact Hy|]. intros z Hz.
      apply (cmp_trans x y z); [unfold notAfter; congruence | done].
  - constructor; [by constructor|]. constructor.
    + unfold notAfter. congruence.
    + eapply Forall_impl; [exact Hy|]. intros z Hz.
      apply (cmp_trans x y z); [unfold notAfter; congruence | done].
  - constructor; [done|].
    rewrite insert_Permutation. constructor; [by apply cmp_total | done].
Qed.

Lemma sort_sorted l : StronglySorted (notAfter cmp) (JS.sort cmp l).
Proof.
  induction l as [|x l IH]; simpl; [constructor | by apply insert_sorted].
Qed.
End SortFacts.

Lemma StronglySorted_lookup {A} (R : relation A) (l : list A) i j a b :
  StronglySorted R l -> (i < j)%nat ->
  l !! i = Some a -> l !! j = Some b -> R a b.
Proof.
  intros Hs. revert i j. induction Hs as [|x l Hl IH Hx]; intros i j Hij Hi Hj.
  { by rewrite lookup_nil in Hi. }
  destruct j as [|j]; [lia|]. simpl in Hj.
  destruct i as [|i]; simpl in Hi.
  - injection Hi as ->. rewrite Forall_forall in Hx. apply Hx.
    by eapply list_elem_of_lookup_2.
  - apply (IH i j); [lia | done | done].
Qed.

Lemma lookup_StronglySorted {A} (R : relation A) (l : list A) :
  (forall i j a b, (i < j)%nat -> l !! i = Some a -> l !! j = Some b -> R a b) ->
  StronglySorted R l.
Proof.
  induction l as [|x l IH]; intros H; constructor.
  - apply IH. intros i j a b Hij Hi Hj. by apply (H (S i) (S j)); [lia| |].
  - apply Forall_forall. intros y [j Hj]%list_elem_of_lookup.
    by apply (H 0%nat (S j)); [lia| |].
Qed.

(** ** separateItems *)

Section OrderingFacts.
Variable selectedIds : list string.

Let selectedSet : gset string := list_to_set selectedIds.
Let order := selectedOrder selectedIds.

Lemma separate_fold (items sel uns : list Item) :
  foldl (fun '(selected, unselected) it =>
           if decide (id it ∈ selectedSet)
           then (selected ++ [it], unselected)
           else (selected, unselected ++ [it]))
        (sel, uns) items
  = (sel ++ filter (fun it => id it ∈ selectedSet) items,
     uns ++ filter (fun it => id it ∉ selectedSet) items).
Proof.
  revert sel uns. induction items as [|it items IH]; intros sel uns; simpl.
  { by rewrite !app_nil_r. }
  rewrite !filter_cons. destruct (decide (id it ∈ selectedSet)) as [Hin|Hin].
  - rewrite IH. rewrite decide_False by tauto. by rewrite <- app_assoc.
  - rewrite IH. rewrite decide_True by done. by rewrite <- app_assoc.
Qed.

Lemma separateItems_eq (items : list Item) :
  separateItems items selectedIds
  = (JS.sort (byOrder order)
       (filter (fun it => id it ∈ selectedSet) items),
     filter (fun it => id it ∉ selectedSet) items).
Proof. unfold separateItems. by rewrite separate_fold. Qed.

(** The order map sends an id to one of its positions in [selectedIds]. *)
Lemma setOrder_lookup i ids m x p :
  setOrder i ids m !! x = Some p ->
  (m !! x = Some p /\ x ∉ ids)
  \/ ((i <= p)%nat /\ ids !! (p - i)%nat = Some x).
Proof.
  revert i m. induction ids as [|y ids IH]; intros i m; simpl.
  { intros ?. left. split; [done | apply not_elem_of_nil]. }
  intros [[Hm Hnin]|[Hle Hp]]%IH.
  - destruct (decide (y = x)) as [->|Hne].
    + rewrite lookup_insert_eq in Hm. injection Hm as <-.
      right. split; [lia|]. by rewrite Nat.sub_diag.
    + rewrite lookup_insert_ne in Hm by done. left. split; [done|].
      apply not_elem_of_cons. split; [congruence | done].
  - right. split; [lia|].
    replace (p - i)%nat with (S (p - S i)) by lia. done.
Qed.

Lemma setOrder_is_Some i ids m x :
  x ∈ ids \/ is_Some (m !! x) -> is_Some (setOrder i ids m !! x).
Proof.
  revert i m. induction ids as [|y ids IH]; intros i m; simpl.
  { intros [H|H]; [by apply elem_of_nil in H | done]. }
  intros [H|H]; apply IH.
  - apply elem_of_cons in H as [->|H]; [right|by left].
    rewrite lookup_insert_eq. eauto.
  - right. destruct (decide (y = x)) as [->|Hne].
    + rewrite lookup_insert_eq. eauto.
    + by rewrite lookup_insert_ne.
Qed.

Lemma order_position x p : order !! x = Some p -> selectedIds !! p = Some x.
Proof.
  intros [[H _]|[_ H]]%setOrder_lookup.
  - by rewrite lookup_empty in H.
  - by rewrite Nat.sub_0_r in H.
Qed.

Lemma order_defined x : x ∈ selectedIds -> is_Some (order !! x).
Proof. intros H. apply setOrder_is_Some. by left. Qed.

Lemma byOrder_trans a b c :
  notAfter (byOrder order) a b -> notAfter (byOrder order) b c ->
  notAfter (byOrder order) a c.
Proof.
  unfold notAfter, byOrder.
  destruct (order !! id a) as [x|], (order !! id b) as [y|],
           (order !! id c) as [z|]; try congruence.
  rewrite !Nat.compare_gt_iff. lia.
Qed.

Lemma byOrder_total a b :
  byOrder order a b = Gt -> notAfter (byOrder order) b a.
Proof.
  unfold notAfter, byOrder.
  destruct (order !! id a) as [x|], (order !! id b) as [y|]; try congruence.
  rewrite !Nat.compare_gt_iff. lia.
Qed.

End OrderingFacts.

(** ** fuzzyFilter *)

Section FuzzyFilterFacts.
Context {T : Type} (getText : T -> string) (query : string).

Let candidate (it : T) : option (FuzzyCandidate T) :=
  Candidate it <$> fuzzyScore (getText it) query.

Lemma fuzzyFilter_fold (items : list T) (acc : list (FuzzyCandidate T)) :
  foldl (fun results it =>
           match fuzzyScore (getText it) query with
           | Some s => results ++ [Candidate it s]
           | None => results
           end) acc items
  = acc ++ omap candidate items.
Proof.
  revert acc. induction items as [|it items IH]; intros acc; simpl.
  { by rewrite app_nil_r. }
  rewrite IH. unfold candidate at 2.
  destruct (fuzzyScore (getText it) query); simpl; [|done].
  by rewrite <- app_assoc.
Qed.

Lemma item_candidates (items : list T) :
  item <$> omap candidate items
  = filter (fun it => is_Some (fuzzyScore (getText it) query)) items.
Proof.
  induction items as [|it items IH]; simpl; [done|].
  rewrite filter_cons. unfold candidate at 1.
  destruct (fuzzyScore (getText it) query) eqn:Hs; simpl.
  - f_equal. exact IH.
  - exact IH.
Qed.

(** The items kept by [fuzzyFilter] are the matching ones, each once. *)
Lemma fuzzyFilter_items (items : list T) :
  item <$> fuzzyFilter items getText query None
  ≡ₚ filter (fun it => is_Some (fuzzyScore (getText it) query)) items.
Proof.
  unfold fuzzyFilter. rewrite fuzzyFilter_fold. simpl.
  rewrite sort_Permutation. by rewrite item_candidates.
Qed.
End FuzzyFilterFacts.

(** ** orderItemsSync and orderItemsAsync *)

Lemma StronglySorted_filter {A} (R : relation A) (P : A -> Prop)
    `{forall x, Decision (P x)} (l : list A) :
  StronglySorted R l -> StronglySorted R (filter P l).
Proof.
  induction 1 as [|x l Hl IH Hx]; [constructor|].
  rewrite filter_cons. destruct (decide (P x)); [|done].
  constructor; [done|]. apply Forall_forall.
  intros y [_ Hy]%list_elem_of_filter. rewrite Forall_forall in Hx. auto.
Qed.

Lemma NoDup_fmap_eq {A B} (f : A -> B) (l : list A) a b :
  NoDup (f <$> l) -> a ∈ l -> b ∈ l -> f a = f b -> a = b.
Proof.
  intros Hnd [i Hi]%list_elem_of_lookup [j Hj]%list_elem_of_lookup Hf.
  assert (i = j) as ->.
  { eapply (NoDup_lookup _ _ _ (f a) Hnd); rewrite list_lookup_fmap.
    - by rewrite Hi.
    - rewrite Hj. simpl. by rewrite Hf. }
  congruence.
Qed.

Section OrderFacts.
Variables (items : list Item) (selectedIds : list string).
Hypothesis distinct_ids : NoDup (id <$> items).

Let selected := selectedPart items selectedIds.
Let unselected := unselectedPart items selectedIds.

Lemma unselectedPart_eq :
  unselected = filter (fun it => id it ∉ selectedIds) items.
Proof.
  unfold unselected, unselectedPart. rewrite separateItems_eq. simpl.
  apply list_filter_iff. intros it. by rewrite elem_of_list_to_set.
Qed.

Lemma selectedPart_Permutation :
  selected ≡ₚ filter (fun it => id it ∈ selectedIds) items.
Proof.
  unfold selected, selectedPart. rewrite separateItems_eq. simpl.
  rewrite sort_Permutation.
  erewrite list_filter_iff; [done|].
  intros it. simpl. by rewrite elem_of_list_to_set.
Qed.

Lemma selectedPart_elem_of it :
  it ∈ selected <-> it ∈ items /\ id it ∈ selectedIds.
Proof.
  rewrite selectedPart_Permutation, list_elem_of_filter. tauto.
Qed.

Lemma selectedPart_sorted :
  StronglySorted (notAfter (byOrder (selectedOrder selectedIds))) selected.
Proof.
  unfold selected, selectedPart. rewrite separateItems_eq. simpl.
  apply sort_sorted.
  - apply byOrder_trans.
  - apply byOrder_total.
Qed.

Lemma items_NoDup : NoDup items.
Proof. by eapply NoDup_fmap_1. Qed.

Lemma selectedPart_NoDup : NoDup selected.
Proof.
  rewrite selectedPart_Permutation. apply NoDup_filter, items_NoDup.
Qed.

(** Earlier in the selected partition means earlier in [selectedIds]. *)
Lemma selectedPart_positions i j a b :
  (i < j)%nat -> selected !! i = Some a -> selected !! j = Some b ->
  exists p q, (p < q)%nat /\ selectedIds !! p = Some (id a)
              /\ selectedIds !! q = Some (id b).
Proof.
  intros Hij Hi Hj.
  pose proof (StronglySorted_lookup _ _ _ _ _ _ selectedPart_sorted Hij Hi Hj)
    as Hle.
  assert (Ha : a ∈ selected) by (by eapply list_elem_of_lookup_2).
  assert (Hb : b ∈ selected) by (by eapply list_elem_of_lookup_2).
  apply selectedPart_elem_of in Ha as [Ha Hida].
  apply selectedPart_elem_of in Hb as [Hb Hidb].
  destruct (order_defined _ _ Hida) as [p Hp].
  destruct (order_defined _ _ Hidb) as [q Hq].
  unfold notAfter, byOrder in Hle. rewrite Hp, Hq in Hle.
  apply order_position in Hp, Hq.
  exists p, q. split_and!; [|done..].
  destruct (decide (p = q)) as [->|Hne].
  - exfalso. assert (a = b) as ->.
    { eapply (NoDup_fmap_eq id items); [done..|congruence]. }
    pose proof (NoDup_lookup _ _ _ _ selectedPart_NoDup Hi Hj). lia.
  - rewrite Nat.compare_gt_iff in Hle. lia.
Qed.

(** With no id repeated in [selectedIds], the selected partition lists
    the selected ids that have an item, in the order of [selectedIds]. *)
Lemma selectedPart_ids :
  NoDup selectedIds ->
  id <$> selected = filter (fun x => x ∈ id <$> items) selectedIds.
Proof.
  intros Hnd.
  set (R := fun x y : string =>
              exists p q, (p < q)%nat /\ selectedIds !! p = Some x
                          /\ selectedIds !! q = Some y).
  apply (StronglySorted_unique_strong R).
  - intros x y _ _ (p & q & Hpq & Hp & Hq) (q' & p' & Hqp & Hq' & Hp').
    pose proof (NoDup_lookup _ _ _ _ Hnd Hp Hp').
    pose proof (NoDup_lookup _ _ _ _ Hnd Hq Hq'). lia.
  - apply lookup_StronglySorted. intros i j x y Hij Hi Hj.
    rewrite list_lookup_fmap in Hi, Hj.
    destruct (selected !! i) as [a|] eqn:Ha; [|discriminate].
    destruct (selected !! j) as [b|] eqn:Hb; [|discriminate].
    simpl in Hi, Hj. injection Hi as <-. injection Hj as <-.
    by eapply selectedPart_positions.
  - apply StronglySorted_filter, lookup_StronglySorted.
    intros i j x y Hij Hi Hj. by exists i, j.
  - apply NoDup_Permutation.
    + apply NoDup_fmap_2_strong; [|apply selectedPart_NoDup].
      intros a b [Ha _]%selectedPart_elem_of [Hb _]%selectedPart_elem_of.
      by apply (NoDup_fmap_eq id items).
    + by apply NoDup_filter.
    + intros x. rewrite list_elem_of_filter, !list_elem_of_fmap. split.
      * intros (a & -> & [Ha Hin]%selectedPart_elem_of). eauto.
      * intros [(a & -> & Ha) Hin]. exists a. split; [done|].
        by apply selectedPart_elem_of.
Qed.

Lemma orderItemsSync_eq query :
  orderItemsSync items selectedIds query
  = selected ++ restOf items selectedIds query.
Proof.
  unfold orderItemsSync, restOf, selected, unselected, selectedPart,
    unselectedPart.
  destruct (separateItems items selectedIds) as [sel uns]. simpl.
  by destruct (JS.isEmpty query).
Qed.

Lemma restOf_sub query :
  exists keep : Item -> Prop, exists _ : forall it, Decision (keep it),
    restOf items selectedIds query ≡ₚ filter keep unselected.
Proof.
  unfold restOf. destruct (JS.isEmpty query).
  - exists (fun _ => True), _. fold unselected.
    induction unselected as [|x l IH]; [done|].
    rewrite filter_cons. simpl. by f_equiv.
  - eexists _, _. apply fuzzyFilter_items.
Qed.

Lemma restOf_elem_of query it :
  it ∈ restOf items selectedIds query -> it ∈ items /\ id it ∉ selectedIds.
Proof.
  destruct (restOf_sub query) as (keep & Hdec & Hp).
  rewrite Hp, unselectedPart_eq, !list_elem_of_filter. tauto.
Qed.

Lemma orderItemsSync_NoDup query :
  NoDup (id <$> orderItemsSync items selectedIds query).
Proof.
  rewrite orderItemsSync_eq.
  apply NoDup_fmap_2_strong.
  - intros a b Ha Hb. apply (NoDup_fmap_eq id items); [done| |].
    + apply elem_of_app in Ha as [Ha|Ha].
      * by apply selectedPart_elem_of in Ha as [? _].
      * by apply restOf_elem_of in Ha as [? _].
    + apply elem_of_app in Hb as [Hb|Hb].
      * by apply selectedPart_elem_of in Hb as [? _].
      * by apply restOf_elem_of in Hb as [? _].
  - apply NoDup_app. split_and!.
    + apply selectedPart_NoDup.
    + intros it [_ Hin]%selectedPart_elem_of [_ Hnin]%restOf_elem_of.
      contradiction.
    + destruct (restOf_sub query) as (keep & Hdec & ->).
      apply NoDup_filter. rewrite unselectedPart_eq.
      apply NoDup_filter, items_NoDup.
Qed.

End OrderFacts.

(** Dropping the log gives the functions of the source back. *)
Lemma counted_bind_fst {A B} (m : Counted.counted A)
    (f : A -> Counted.counted B) :
  fst (Counted.bind m f) = fst (f (fst m)).
Proof. unfold Counted.bind. by destruct (f (fst m)). Qed.

Lemma counted_fold_fst {T} (getText : T -> string) (query : string)
    (items : list T) (acc : Counted.counted (list (FuzzyCandidate T))) :
  fst (foldl (fun acc it =>
                Counted.bind acc (fun results =>
                Counted.bind (Counted.fuzzyScore (getText it) query) (fun s =>
                Counted.ret match s with
                            | Some s => results ++ [Candidate it s]
                            | None => results
                            end)))
             acc items)
  = foldl (fun results it =>
             match fuzzyScore (getText it) query with
             | Some s => results ++ [Candidate it s]
             | None => results
             end) (fst acc) items.
Proof.
  revert acc. induction items as [|it items IH]; intros acc; simpl; [done|].
  rewrite IH. by rewrite !counted_bind_fst.
Qed.

Lemma counted_fuzzyFilter_fst {T} (items : list T) getText query limit :
  fst (Counted.fuzzyFilter items getText query limit)
  = fuzzyFilter items getText query limit.
Proof.
  unfold Counted.fuzzyFilter, fuzzyFilter.
  rewrite counted_bind_fst. simpl. by rewrite counted_fold_fst.
Qed.

Lemma counted_orderItemsSync_fst items selectedIds query :
  fst (Counted.orderItemsSync items selectedIds query)
  = orderItemsSync items selectedIds query.
Proof.
  unfold Counted.orderItemsSync, orderItemsSync.
  destruct (separateItems items selectedIds) as [sel uns].
  destruct (JS.isEmpty query); [done|].
  rewrite counted_bind_fst. unfold Counted.ret. cbn [fst].
  by rewrite counted_fuzzyFilter_fst.
Qed.

(** C1. For items with pairwise distinct ids, the ordered view starts with
    exactly the items whose id is selected, ordered by their position in
    [selectedIds]; only unselected items follow; the selected prefix does not
    depend on the query; no item occurs twice.  [orderItemsAsync] is
    [orderItemsSync] without a query. *)
Theorem orderItems_selected_prefix (items : list Item)
    (selectedIds : list string) (query : string) :
  NoDup (id <$> items) ->
  let selected := selectedPart items selectedIds in
  exists rest,
    orderItemsSync items selectedIds query = selected ++ rest
    /\ orderItemsAsync items selectedIds = orderItemsSync items selectedIds ""
    /\ (forall it, it ∈ selected <-> it ∈ items /\ id it ∈ selectedIds)
    /\ (forall it, it ∈ rest -> it ∈ items /\ id it ∉ selectedIds)
    /\ (forall i j a b,
          (i < j)%nat -> selected !! i = Some a -> selected !! j = Some b ->
          exists p q, (p < q)%nat /\ selectedIds !! p = Some (id a)
                      /\ selectedIds !! q = Some (id b))
    /\ (NoDup selectedIds ->
        id <$> selected = filter (fun x => x ∈ id <$> items) selectedIds)
    /\ NoDup (id <$> orderItemsSync items selectedIds query).
Proof.
  intros Hnd selected. exists (restOf items selectedIds query). split_and!.
  - apply orderItemsSync_eq.
  - unfold orderItemsAsync, orderItemsSync.
    by destruct (separateItems items selectedIds).
  - apply selectedPart_elem_of.
  - apply restOf_elem_of.
  - by apply selectedPart_positions.
  - by apply selectedPart_ids.
  - by apply orderItemsSync_NoDup.
Qed.

Lemma mockItems_distinct : NoDup (id <$> mockItems).
Proof. apply (bool_decide_unpack _). vm_compute. reflexivity. Defined.

Lemma orderItems_selected_prefix_witness :
  exists rest,
    orderItemsSync mockItems ["4"; "2"] "al"
    = selectedPart mockItems ["4"; "2"] ++ rest
    /\ id <$> selectedPart mockItems ["4"; "2"] = ["4"; "2"].
Proof.
  destruct (orderItems_selected_prefix mockItems ["4"; "2"] "al"
              mockItems_distinct)
    as (rest & Heq & _ & _ & _ & _ & Hids & _).
  exists rest. split; [exact Heq|].
  rewrite Hids; [reflexivity|].
  apply (bool_decide_unpack _). vm_compute. reflexivity.
Defined.

(** The scenarios of the specification and of [ordering.test.ts]. *)
Example orderItemsSync_scenarios :
  id <$> orderItemsSync mockItems ["2"; "4"] "" = ["2"; "4"; "1"; "3"]
  /\ id <$> orderItemsSync mockItems [] "al" = ["1"]
  /\ id <$> orderItemsSync mockItems ["2"; "1"] "" = ["2"; "1"; "3"; "4"]
  /\ id <$> orderItemsAsync mockItems ["2"; "4"] = ["2"; "4"; "1"; "3"].
Proof. split_and!; vm_compute; reflexivity. Qed.

(** C4. With the empty query [orderItemsSync] returns the selected partition
    followed by the unselected items in input order; the output is as long
    as the input, brings no new id, and [fuzzyScore] is not called. *)
Theorem orderItemsSync_empty_query (items : list Item)
    (selectedIds : list string) :
  orderItemsSync items selectedIds ""
  = selectedPart items selectedIds
    ++ filter (fun it => id it ∉ selectedIds) items
  /\ selectedPart items selectedIds
     ≡ₚ filter (fun it => id it ∈ selectedIds) items
  /\ length (orderItemsSync items selectedIds "") = length items
  /\ id <$> orderItemsSync items selectedIds "" ⊆ id <$> items
  /\ Counted.orderItemsSync items selectedIds ""
     = (orderItemsSync items selectedIds "", 0%nat).
Proof.
  assert (Heq : orderItemsSync items selectedIds ""
                = selectedPart items selectedIds
                  ++ filter (fun it => id it ∉ selectedIds) items).
  { rewrite orderItemsSync_eq. unfold restOf. simpl.
    by rewrite unselectedPart_eq. }
  assert (Hperm : orderItemsSync items selectedIds "" ≡ₚ items).
  { rewrite Heq, selectedPart_Permutation. apply filter_app_complement. }
  split_and!.
  - exact Heq.
  - apply selectedPart_Permutation.
  - by rewrite Hperm.
  - by rewrite Hperm.
  - unfold Counted.orderItemsSync, orderItemsSync.
    by destruct (separateItems items selectedIds).
Qed.

Lemma counted_orderItemsSync_calls items selectedIds query :
  query <> "" ->
  snd (Counted.orderItemsSync items selectedIds query)
  = length (unselectedPart items selectedIds).
Proof.
  intros Hq. unfold Counted.orderItemsSync, unselectedPart.
  destruct (separateItems items selectedIds) as [sel uns]. simpl.
  destruct (JS.isEmpty query) eqn:He; [by apply isEmpty_true in He|].
  unfold Counted.bind at 1, Counted.fuzzyFilter, Counted.bind at 1.
  simpl. rewrite !Nat.add_0_r.
  assert (Hfold : forall acc : Counted.counted (list (FuzzyCandidate Item)),
    snd (foldl (fun acc it =>
                  Counted.bind acc (fun results =>
                  Counted.bind (Counted.fuzzyScore (label it) query) (fun s =>
                  Counted.ret match s with
                              | Some s => results ++ [Candidate it s]
                              | None => results
                              end)))
               acc uns) = (snd acc + length uns)%nat).
  { induction uns as [|it uns IH]; intros acc; simpl; [lia|].
    rewrite IH. unfold Counted.bind. simpl. lia. }
  by rewrite Hfold.
Qed.

(** ** VirtualList *)

Section WindowFacts.
Import VirtualList.
Context {T : Type}.
Variables (items : list T) (rowHeight height : Q) (overscan : Z)
          (scrollTop : Q).

Let start := startIndex rowHeight overscan scrollTop.
Let rows := renderedRows items rowHeight height overscan scrollTop.

(** Every rendered row carries the item found at its index. *)
Lemma renderedRows_lookup idx it :
  (idx, it) ∈ rows -> 0 <= idx /\ items !! Z.to_nat idx = Some it.
Proof.
  intros [i Hi]%list_elem_of_lookup.
  unfold rows, renderedRows in Hi. rewrite list_lookup_imap in Hi.
  fold start in Hi.
  destruct (visibleItems _ _ _ _ _ !! i) as [x|] eqn:Hx; [|discriminate].
  simpl in Hi. injection Hi as <- <-.
  unfold visibleItems, JS.slice in Hx. fold start in Hx.
  apply lookup_take_Some in Hx as [Hx _]. rewrite lookup_drop in Hx.
  assert (Hs : 0 <= start) by (unfold start, startIndex; lia).
  pose proof (lookup_lt_Some _ _ _ Hx) as Hlt.
  unfold JS.relIndex in Hx, Hlt.
  destruct (Z.ltb_spec start 0) as [?|_]; [lia|].
  split; [lia|]. rewrite <- Hx. f_equal. lia.
Qed.
End WindowFacts.

(** C7. For a non-negative scroll offset, a positive row height, a
    non-negative viewport height and a non-negative overscan, the window
    from [startIndex] to [endIndex] holds no index outside
    [0 .. totalCount - 1], every rendered row is a row of the list, and the
    window of an empty list is empty. *)
Theorem window_in_bounds {T} (items : list T) (rowHeight height : Q)
    (overscan : Z) (scrollTop : Q) :
  (0 <= scrollTop)%Q -> (0 < rowHeight)%Q -> (0 <= height)%Q ->
  0 <= overscan ->
  let total := VirtualList.total items in
  let start := VirtualList.startIndex rowHeight overscan scrollTop in
  let stop := VirtualList.endIndex items rowHeight height overscan scrollTop in
  let rows :=
    VirtualList.renderedRows items rowHeight height overscan scrollTop in
  (forall i, start <= i <= stop -> 0 <= i <= total - 1)
  /\ (forall idx it,
        (idx, it) ∈ rows ->
        0 <= idx <= total - 1 /\ items !! Z.to_nat idx = Some it)
  /\ (total = 0 ->
      stop < start
      /\ VirtualList.visibleItems items rowHeight height overscan scrollTop
         = []).
Proof.
  intros _ _ _ _ total start stop rows.
  assert (Hs : 0 <= start) by (unfold start, VirtualList.startIndex; lia).
  assert (He : stop <= total - 1)
    by (unfold stop, VirtualList.endIndex; fold total; lia).
  split_and!.
  - lia.
  - intros idx it Hin.
    apply renderedRows_lookup in Hin as [H0 Hit]. split; [|done].
    apply lookup_lt_Some in Hit. unfold total, VirtualList.total. lia.
  - intros H0. split; [lia|].
    unfold total, VirtualList.total in H0.
    destruct items; [|simpl in H0; lia].
    unfold VirtualList.visibleItems, JS.slice.
    rewrite drop_nil. apply take_nil.
Qed.

Lemma window_in_bounds_witness :
  VirtualList.startIndex 36 1 36 = 0
  /\ VirtualList.endIndex mockItems 36 72 1 36 = 3
  /\ 0 <= 3 <= VirtualList.total mockItems - 1.
Proof.
  split; [reflexivity|]. split; [reflexivity|].
  apply (window_in_bounds mockItems 36 72 1 36);
    [discriminate | reflexivity | discriminate | discriminate |].
  split; discriminate.
Defined.

(** ** useSelection and useKeyboardNavigation *)

Section WidgetFacts.
Import Widget.

Lemma filter_absent (x : string) (l : list string) :
  x ∉ l -> filter (fun y => y <> x) l = l.
Proof.
  induction l as [|y l IH]; [done|].
  intros [Hne Hnin]%not_elem_of_cons. rewrite filter_cons.
  rewrite decide_True by congruence. by rewrite IH.
Qed.

Lemma findById_None (x : string) (l : list Item) :
  x ∉ id <$> l -> findById x l = None.
Proof.
  induction l as [|it l IH]; [done|]. rewrite fmap_cons.
  intros [Hne Hnin]%not_elem_of_cons. unfold findById. simpl.
  rewrite bool_decide_eq_false_2 by congruence. by apply IH.
Qed.

(** [find] returns the first item with the id. *)
Lemma findById_first (x : string) (before after : list Item) (it : Item) :
  id it = x -> x ∉ id <$> before ->
  findById x (before ++ it :: after) = Some it.
Proof.
  intros Hid. induction before as [|y before IH]; unfold findById; simpl.
  - intros _. by rewrite bool_decide_eq_true_2.
  - intros [Hne Hnin]%not_elem_of_cons.
    rewrite bool_decide_eq_false_2 by congruence. by apply IH.
Qed.

Lemma first_with_id (x : string) (l : list Item) :
  x ∈ id <$> l ->
  exists before it after,
    l = before ++ it :: after /\ id it = x /\ (x ∉ id <$> before).
Proof.
  induction l as [|y l IH]; [by intros ?%elem_of_nil|].
  rewrite fmap_cons. intros Hin.
  destruct (decide (id y = x)) as [Hy|Hy].
  - exists [], y, l. split_and!; [done | done | apply not_elem_of_nil].
  - apply elem_of_cons in Hin as [Hin|Hin]; [congruence|].
    destruct (IH Hin) as (before & it & after & -> & Hid & Hnin).
    exists (y :: before), it, after. split_and!; [done | done |].
    rewrite fmap_cons. apply not_elem_of_cons. split; [congruence | done].
Qed.

End WidgetFacts.

Lemma commitSelection_adds_front (x : string) (w : Widget.widget) :
  x ∉ Widget.selectedIds w ->
  Widget.selectedIds (Widget.commitSelection x w) = x :: Widget.selectedIds w.
Proof.
  intros Hnin. unfold Widget.commitSelection. simpl.
  rewrite bool_decide_eq_false_2 by done. rewrite filter_absent by done.
  by destruct (Widget.isAsync w).
Qed.

(** C5. [commitSelection] is one transition of the widget: it clears the
    search text; a selected id is removed, the others keeping their order,
    and in server mode its cache entry is deleted; an unselected id is put
    at the front of the selection, and in server mode, when a fetched item
    carries that id, the first such item is stored in the cache under the
    id; nothing else changes. *)
Theorem commitSelection_toggles (w : Widget.widget) (x : string) :
  let w' := Widget.commitSelection x w in
  Widget.query w' = ""
  /\ (x ∈ Widget.selectedIds w ->
      Widget.selectedIds w'
      = filter (fun y => y <> x) (Widget.selectedIds w)
      /\ (Widget.isAsync w = true ->
          Widget.selectedItemsCache w'
          = delete x (Widget.selectedItemsCache w)))
  /\ (x ∉ Widget.selectedIds w ->
      Widget.selectedIds w' = x :: Widget.selectedIds w
      /\ (Widget.isAsync w = true ->
          (forall before it after,
             Widget.asyncItems w = before ++ it :: after ->
             id it = x -> x ∉ id <$> before ->
             Widget.selectedItemsCache w'
             = <[x := it]> (Widget.selectedItemsCache w))
          /\ (x ∈ id <$> Widget.asyncItems w ->
              exists it,
                it ∈ Widget.asyncItems w /\ id it = x
                /\ Widget.selectedItemsCache w' !! x = Some it
                /\ Widget.selectedItemsCache w'
                   = <[x := it]> (Widget.selectedItemsCache w))))
  /\ (Widget.isAsync w = false ->
      Widget.selectedItemsCache w' = Widget.selectedItemsCache w)
  /\ Widget.items w' = Widget.items w
  /\ Widget.isAsync w' = Widget.isAsync w
  /\ Widget.open w' = Widget.open w
  /\ Widget.activeIndex w' = Widget.activeIndex w
  /\ Widget.mruOrder w' = Widget.mruOrder w
  /\ Widget.asyncItems w' = Widget.asyncItems w.
Proof.
  assert (Hfirst : forall before it after,
    Widget.isAsync w = true -> x ∉ Widget.selectedIds w ->
    Widget.asyncItems w = before ++ it :: after ->
    id it = x -> x ∉ id <$> before ->
    Widget.selectedItemsCache (Widget.commitSelection x w)
    = <[x := it]> (Widget.selectedItemsCache w)).
  { intros before it after Hasync Hnin Hitems Hid Hbefore.
    unfold Widget.commitSelection. simpl. rewrite Hasync. simpl.
    rewrite bool_decide_eq_false_2 by done.
    by rewrite Hitems, findById_first. }
  unfold Widget.commitSelection in *. simpl in *. split_and!.
  - by destruct (Widget.isAsync w).
  - intros Hin. rewrite bool_decide_eq_true_2 by done.
    destruct (Widget.isAsync w); simpl; split; done.
  - intros Hnin. split.
    + rewrite bool_decide_eq_false_2 by done.
      rewrite filter_absent by done. by destruct (Widget.isAsync w).
    + intros Hasync. split.
      * intros before it after. by apply Hfirst.
      * intros Hin.
        destruct (first_with_id x _ Hin)
          as (before & it & after & Hitems & Hid & Hbefore).
        exists it.
        rewrite (Hfirst before it after Hasync Hnin Hitems Hid Hbefore).
        split_and!; [|done| |done].
        -- rewrite Hitems. apply elem_of_app. right. left.
        -- by rewrite lookup_insert_eq.
  - by intros ->.
  - by destruct (Widget.isAsync w).
  - destruct (Widget.isAsync w) eqn:E; simpl; congruence.
  - by destruct (Widget.isAsync w).
  - by destruct (Widget.isAsync w).
  - by destruct (Widget.isAsync w).
  - by destruct (Widget.isAsync w).
Qed.

Lemma commitSelection_toggles_witness :
  Widget.selectedIds (Widget.commitSelection "2" serverWidget) = ["2"]
  /\ Widget.selectedItemsCache (Widget.commitSelection "2" serverWidget)
     = <["2" := MkItem "2" "Beta" None]> ∅
  /\ Widget.selectedIds
       (Widget.commitSelection "2" (Widget.commitSelection "2" serverWidget))
     = []
  /\ Widget.selectedItemsCache
       (Widget.commitSelection "2" (Widget.commitSelection "2" serverWidget))
     = delete "2" (<["2" := MkItem "2" "Beta" None]> ∅).
Proof.
  destruct (commitSelection_toggles serverWidget "2")
    as (_ & _ & Hadd & _).
  destruct Hadd as [Hids [Hcache _]]; [by apply not_elem_of_nil | done |].
  specialize (Hcache [MkItem "1" "Alpha" None] (MkItem "2" "Beta" None) []
                eq_refl eq_refl).
  destruct (commitSelection_toggles
              (Widget.commitSelection "2" serverWidget) "2")
    as (_ & Hremove & _).
  destruct Hremove as [Hids' Hcache'].
  { rewrite Hids. left. }
  split_and!.
  - exact Hids.
  - apply Hcache. by apply (bool_decide_unpack _).
  - rewrite Hids'. rewrite Hids. reflexivity.
  - rewrite Hcache' by reflexivity. f_equal.
Defined.

(** C10. In server mode, committing an unselected id that no fetched item
    carries leaves the selected-item cache as it was; the token lookup for
    that id then answers from the old cache alone, with nothing when the
    cache has no entry for it. *)
Theorem commitSelection_unfetched_id (w : Widget.widget) (x : string) :
  serverMode w ->
  x ∉ Widget.selectedIds w ->
  x ∉ id <$> Widget.asyncItems w ->
  let w' := Widget.commitSelection x w in
  Widget.selectedIds w' = x :: Widget.selectedIds w
  /\ Widget.selectedItemsCache w' = Widget.selectedItemsCache w
  /\ selectedItemOf x w' = Widget.selectedItemsCache w !! x
  /\ (Widget.selectedItemsCache w !! x = None -> selectedItemOf x w' = None).
Proof.
  intros [Hasync Hitems] Hnin Hfetched w'.
  assert (Hcache : Widget.selectedItemsCache w' = Widget.selectedItemsCache w).
  { unfold w', Widget.commitSelection. simpl. rewrite Hasync. simpl.
    rewrite bool_decide_eq_false_2 by done.
    by rewrite findById_None. }
  assert (Hlookup : selectedItemOf x w' = Widget.selectedItemsCache w !! x).
  { unfold selectedItemOf, Widget.getSelectedItem. rewrite Hcache.
    replace (Widget.items w') with (Widget.items w)
      by (unfold w', Widget.commitSelection; simpl;
          by destruct (Widget.isAsync w)).
    replace (Widget.asyncItems w') with (Widget.asyncItems w)
      by (unfold w', Widget.commitSelection; simpl;
          by destruct (Widget.isAsync w)).
    rewrite Hitems. simpl.
    destruct (Widget.selectedItemsCache w !! x); [done|].
    by apply findById_None. }
  split_and!; [|done|done|by rewrite Hlookup].
  unfold w', Widget.commitSelection. simpl.
  rewrite bool_decide_eq_false_2 by done. rewrite filter_absent by done.
  by destruct (Widget.isAsync w).
Qed.

Lemma commitSelection_unfetched_id_witness :
  Widget.selectedItemsCache (Widget.commitSelection "9" serverWidget) = ∅
  /\ selectedItemOf "9" (Widget.commitSelection "9" serverWidget) = None.
Proof.
  destruct (commitSelection_unfetched_id serverWidget "9")
    as (_ & Hc & _ & Hn).
  - split; reflexivity.
  - apply not_elem_of_nil.
  - apply (bool_decide_unpack _). vm_compute. reflexivity.
  - split; [exact Hc | apply Hn; reflexivity].
Defined.

Lemma slice_drop_last {A} (l : list A) (x : A) : JS.slice (l ++ [x]) 0 (-1) = l.
Proof.
  unfold JS.slice, JS.relIndex. rewrite length_app. simpl.
  destruct (Z.ltb_spec (-1) 0) as [_|?]; [|lia].
  destruct (Z.ltb_spec 0 0) as [?|_]; [lia|].
  rewrite Z.min_l by lia. simpl. rewrite drop_0.
  replace (Z.to_nat _) with (length l) by lia.
  by rewrite take_app_length.
Qed.

Lemma at_last {A} (l : list A) (x : A) :
  JS.at_ (l ++ [x]) (Z.of_nat (length (l ++ [x])) - 1) = Some x.
Proof.
  unfold JS.at_. rewrite length_app. simpl.
  destruct (Z.ltb_spec (Z.of_nat (length l + 1) - 1) 0) as [?|_]; [lia|].
  replace (Z.to_nat _) with (length l) by lia.
  by rewrite list_lookup_middle.
Qed.

(** C8, as the code has it.  While the view is open and the search text is
    empty, Backspace removes the last id of the selection sequence, when it
    is not the empty string, and puts it at the front of the MRU order; the
    rest of the selection, and of the widget, stays as it was. *)
Theorem backspace_removes_last_id (w : Widget.widget) (rest : list string)
    (last : string) :
  Widget.open w = true ->
  Widget.query w = "" ->
  Widget.selectedIds w = rest ++ [last] ->
  last <> "" ->
  Widget.onKeyDown "Backspace" w
  = (Widget.set_mruOrder
       (last :: filter (fun y => y <> last) (Widget.mruOrder w))
       (Widget.set_selectedIds rest w),
     true).
Proof.
  intros Hopen Hq Hsel Hlast. unfold Widget.onKeyDown.
  rewrite Hopen, Hq, Hsel. simpl.
  assert (Hlen : (length (rest ++ [last]) =? 0)%nat = false).
  { apply Nat.eqb_neq. rewrite length_app. simpl. lia. }
  rewrite Hlen. simpl. rewrite at_last.
  destruct (JS.isEmpty last) eqn:He; [by apply isEmpty_true in He|].
  by rewrite slice_drop_last.
Qed.

(** [commitSelection] puts new ids at the front: after a series of
    additions the last id of the sequence is the one added first. *)
Lemma commitSelection_sequence (adds : list string) (w : Widget.widget) :
  NoDup adds ->
  (forall x, x ∈ adds -> x ∉ Widget.selectedIds w) ->
  Widget.selectedIds (foldl (fun w x => Widget.commitSelection x w) w adds)
  = reverse adds ++ Widget.selectedIds w.
Proof.
  revert w. induction adds as [|x adds IH]; intros w Hnd Hfresh; [done|].
  apply NoDup_cons in Hnd as [Hx Hnd]. simpl.
  assert (Hnin : x ∉ Widget.selectedIds w) by (apply Hfresh; left).
  pose proof (commitSelection_adds_front x w Hnin) as Hsel.
  rewrite IH; [|done|].
  - rewrite Hsel, reverse_cons, <- app_assoc. done.
  - intros y Hy. rewrite Hsel. apply not_elem_of_cons. split.
    + intros ->. contradiction.
    + apply Hfresh. by right.
Qed.

Lemma backspace_removes_last_id_witness :
  Widget.selectedIds
    (fst (Widget.onKeyDown "Backspace"
            (Widget.set_selectedIds ["1"; "2"] localWidget))) = ["1"].
Proof.
  rewrite (backspace_removes_last_id
             (Widget.set_selectedIds ["1"; "2"] localWidget) ["1"] "2");
    [reflexivity | reflexivity | reflexivity | reflexivity | discriminate].
Defined.

(** C8 as stated fails: select "1", then "2"; Backspace removes "1", the
    id selected first, and keeps "2", the id selected last. *)
Lemma backspace_keeps_latest_selection :
  let w :=
    Widget.commitSelection "2" (Widget.commitSelection "1" localWidget) in
  Widget.open w = true
  /\ Widget.query w = ""
  /\ Widget.selectedIds w = ["2"; "1"]
  /\ Widget.selectedIds (fst (Widget.onKeyDown "Backspace" w)) = ["2"]
  /\ Widget.selectedIds (fst (Widget.onKeyDown "Backspace" w)) <> ["1"].
Proof. split_and!; [reflexivity..|discriminate]. Qed.

(** Backspace does nothing while the view is closed, and nothing to a
    selection that ends with the empty string. *)
Example backspace_guards :
  (let w := Widget.set_open false
              (Widget.set_selectedIds ["1"; "2"] localWidget) in
   Widget.onKeyDown "Backspace" w = (w, false))
  /\ (let w := Widget.set_selectedIds ["1"; ""] localWidget in
      Widget.onKeyDown "Backspace" w = (w, true)).
Proof. split; reflexivity. Qed.

(** C9, as the code has it.  While the view is open, the space key commits
    the item at the cursor, if there is one, exactly when the search text is
    empty after trimming white space; otherwise it changes nothing and is
    left to the input as text. *)
Theorem space_commits_when_trimmed_query_empty (w : Widget.widget) :
  Widget.open w = true ->
  (JS.trim (Widget.query w) = "" ->
   Widget.onKeyDown " " w = (Widget.commitActive w, true))
  /\ (JS.trim (Widget.query w) <> "" ->
      Widget.onKeyDown " " w = (w, false))
  /\ (Widget.query w = "" ->
      Widget.onKeyDown " " w = (Widget.commitActive w, true)).
Proof.
  intros Hopen.
  assert (Hkey : Widget.onKeyDown " " w
                 = if JS.isEmpty (JS.trim (Widget.query w))
                   then (Widget.commitActive w, true) else (w, false)).
  { unfold Widget.onKeyDown. rewrite Hopen. reflexivity. }
  split_and!.
  - intros Ht. rewrite Hkey, Ht. reflexivity.
  - intros Ht. rewrite Hkey.
    destruct (JS.isEmpty _) eqn:He; [by apply isEmpty_true in He|done].
  - intros Hq. rewrite Hkey, Hq. reflexivity.
Qed.

Lemma space_commits_when_trimmed_query_empty_witness :
  Widget.onKeyDown " " (Widget.set_query "a " spacedWidget)
  = (Widget.set_query "a " spacedWidget, false).
Proof.
  apply (space_commits_when_trimmed_query_empty
           (Widget.set_query "a " spacedWidget)); [reflexivity | discriminate].
Defined.

(** C9 as stated fails: the search text [" "] is not empty, and the space
    key still commits the item at the cursor. *)
Lemma space_commits_on_blank_query :
  Widget.query spacedWidget <> ""
  /\ Widget.selectedIds spacedWidget = []
  /\ Widget.onKeyDown " " spacedWidget
     = (Widget.commitSelection "1" spacedWidget, true)
  /\ Widget.selectedIds (fst (Widget.onKeyDown " " spacedWidget)) = ["1"].
Proof. split_and!; [discriminate | reflexivity..]. Qed.

(** ** useAsyncItems *)

Section LoaderFacts.
Import AsyncItems.
Variable pageSize : nat.

(** The invariant only reads four fields. *)
Lemma inv_frame (s s' : loader) :
  inflight s' = inflight s -> nextId s' = nextId s ->
  abortControllerRef s' = abortControllerRef s ->
  aborted s' = aborted s ->
  inv s -> inv s'.
Proof.
  intros Hi Hn Hc Ha [H1 H2 H3].
  split; rewrite ?Hi, ?Hn, ?Hc, ?Ha; auto.
Qed.

Lemma inv_abortCurrent s : inv s -> inv (abortCurrent s).
Proof.
  intros Hinv. unfold abortCurrent.
  destruct (abortControllerRef s) as [c|] eqn:Hc; [|exact Hinv].
  destruct Hinv as [H1 H2 H3]. split; simpl; auto.
  intros rid Hr Hne. apply elem_of_union_r. by apply H3.
Qed.

Lemma abortCurrent_aborts s rid :
  inv s -> is_Some (inflight s !! rid) -> rid ∈ aborted (abortCurrent s).
Proof.
  intros Hinv Hr. unfold abortCurrent.
  destruct (abortControllerRef s) as [c|] eqn:Hc;
    destruct Hinv as [H1 H2 H3]; simpl.
  - destruct (decide (c = rid)) as [->|Hne]; [set_solver|].
    apply elem_of_union_r, H3; [done|]. rewrite Hc. congruence.
  - apply H3; [done|]. by rewrite Hc.
Qed.

Lemma loadMore_unfold reset s :
  loadMore reset s = s
  \/ (loadingRef s = false
      /\ nextId (loadMore reset s) = S (nextId s)
      /\ abortControllerRef (loadMore reset s) = Some (nextId s)
      /\ aborted (loadMore reset s) = aborted (abortCurrent s)
      /\ exists r, inflight (loadMore reset s)
                   = <[nextId s := r]> (inflight s)).
Proof.
  unfold loadMore. destruct (loadingRef s); [by left|]. right.
  assert (Hn : nextId (abortCurrent s) = nextId s).
  { unfold abortCurrent. by destruct (abortControllerRef s). }
  assert (Hi : inflight (abortCurrent s) = inflight s).
  { unfold abortCurrent. by destruct (abortControllerRef s). }
  destruct reset; simpl; rewrite Hn, Hi; split_and!; eauto.
Qed.

Lemma inv_loadMore reset s : inv s -> inv (loadMore reset s).
Proof.
  intros Hinv.
  destruct (loadMore_unfold reset s)
    as [->|(_ & Hn & Hc & Ha & r & Hi)]; [done|].
  pose proof (inv_abortCurrent s Hinv) as [H1 H2 H3].
  assert (Hi' : inflight (abortCurrent s) = inflight s).
  { unfold abortCurrent. by destruct (abortControllerRef s). }
  assert (Hn' : nextId (abortCurrent s) = nextId s).
  { unfold abortCurrent. by destruct (abortControllerRef s). }
  rewrite Hi', Hn' in *.
  split; rewrite ?Hn, ?Hc, ?Ha, ?Hi.
  - intros rid [Heq|[_ Hr]]%lookup_insert_is_Some; [lia|].
    apply H1 in Hr. lia.
  - intros c [= <-]. lia.
  - intros rid [Heq|[Hne Hr]]%lookup_insert_is_Some Hcur; [congruence|].
    by apply (abortCurrent_aborts s rid).
Qed.

Lemma inv_settle rid o s : inv s -> inv (settle pageSize rid o s).
Proof.
  intros Hinv. pose proof Hinv as [H1 H2 H3]. unfold settle.
  destruct (inflight s !! rid) as [r|] eqn:Hr; [|exact Hinv].
  assert (Hdel : forall k, is_Some (delete rid (inflight s) !! k) ->
                           k <> rid /\ is_Some (inflight s !! k)).
  { intros k [Hne Hk]%lookup_delete_is_Some. split; [congruence | done]. }
  simpl. destruct (decide (rid ∈ aborted s)) as [Hab|Hab].
  - split; simpl; auto.
    + intros k [_ Hk]%Hdel. auto.
    + intros k [_ Hk]%Hdel. auto.
  - (* the request is the current one *)
    assert (Hcur : abortControllerRef s = Some rid).
    { destruct (decide (abortControllerRef s = Some rid)); [done|].
      exfalso. apply Hab, H3; eauto. }
    destruct o as [fetched|message]; split; simpl; try done.
    + intros k [_ Hk]%Hdel. auto.
    + intros k [Hne Hk]%Hdel _. apply H3; [done|]. rewrite Hcur. congruence.
    + intros k [_ Hk]%Hdel. auto.
    + intros k [Hne Hk]%Hdel _. apply H3; [done|]. rewrite Hcur. congruence.
Qed.

Lemma inv_debounceEffect q s : inv s -> inv (debounceEffect q s).
Proof.
  intros Hinv. unfold debounceEffect. simpl.
  destruct (abortControllerRef s) as [c|] eqn:Hc.
  2:{ eapply inv_frame; [..|exact Hinv]; simpl; by rewrite ?Hc. }
  case_bool_decide as Hq.
  2:{ eapply inv_frame; [..|exact Hinv]; simpl; by rewrite ?Hc. }
  destruct Hinv as [H1 H2 H3]. split; simpl; auto; [done|].
  intros rid Hr _. destruct (decide (c = rid)) as [->|Hne]; [set_solver|].
  apply elem_of_union_r, H3; [done|congruence].
Qed.

Lemma inv_step s e : inv s -> inv (step pageSize s e).
Proof.
  intros Hinv. destruct e; simpl.
  - apply inv_debounceEffect. by eapply inv_frame; [..|exact Hinv].
  - by eapply inv_frame; [..|exact Hinv].
  - by eapply inv_frame; [..|exact Hinv].
  - destruct (timerArmed s); [|done].
    apply inv_loadMore. by eapply inv_frame; [..|exact Hinv].
  - by apply inv_loadMore.
  - destruct (_ && _); [by apply inv_loadMore | done].
  - apply inv_loadMore. by eapply inv_frame; [..|exact Hinv].
  - by apply inv_settle.
  - eapply inv_frame; [..|exact (inv_abortCurrent s Hinv)]; done.
Qed.

Lemma inv_mount q ids : inv (mount q ids).
Proof.
  unfold mount. simpl. apply inv_loadMore.
  split; simpl; [|done|].
  - intros rid [? H]. by rewrite lookup_empty in H.
  - intros rid [? H]. by rewrite lookup_empty in H.
Qed.

Lemma inv_run es s : inv s -> inv (run pageSize es s).
Proof.
  revert s. induction es as [|e es IH]; intros s Hinv; [done|].
  simpl. apply IH. by apply inv_step.
Qed.

Lemma aborted_loadMore reset s : aborted s ⊆ aborted (loadMore reset s).
Proof.
  destruct (loadMore_unfold reset s) as [->|(_ & _ & _ & -> & _)]; [done|].
  unfold abortCurrent. destruct (abortControllerRef s); simpl; set_solver.
Qed.

(** [signal.aborted] never goes back to false. *)
Lemma aborted_step s e : aborted s ⊆ aborted (step pageSize s e).
Proof.
  destruct e; simpl.
  - unfold debounceEffect. simpl.
    destruct (abortControllerRef s); [|done].
    case_bool_decide; simpl; set_solver.
  - done.
  - done.
  - destruct (timerArmed s); [|done].
    etrans; [|apply aborted_loadMore]. done.
  - apply aborted_loadMore.
  - destruct (_ && _); [apply aborted_loadMore | done].
  - etrans; [|apply aborted_loadMore]. done.
  - unfold settle. destruct (inflight s !! rid); [|done]. simpl.
    destruct (decide (rid ∈ aborted s)); [done|]. by destruct o.
  - unfold abortCurrent. destruct (abortControllerRef s); simpl; set_solver.
Qed.

Lemma aborted_run es s : aborted s ⊆ aborted (run pageSize es s).
Proof.
  revert s. induction es as [|e es IH]; intros s; [done|].
  simpl. etrans; [apply (aborted_step s e) | apply IH].
Qed.

(** The continuation of an aborted request only drops the request. *)
Lemma settle_aborted rid o s :
  is_Some (inflight s !! rid) -> rid ∈ aborted s ->
  settle pageSize rid o s = set_inflight (delete rid (inflight s)) s.
Proof.
  intros [r Hr] Hab. unfold settle. rewrite Hr. simpl.
  by rewrite decide_True.
Qed.

Lemma loadMore_aborts reset s rid :
  inv s -> is_Some (inflight s !! rid) ->
  (nextId s < nextId (loadMore reset s))%nat ->
  rid ∈ aborted (loadMore reset s).
Proof.
  intros Hinv Hr Hlt.
  destruct (loadMore_unfold reset s) as [Heq|(_ & _ & _ & -> & _)].
  - rewrite Heq in Hlt. lia.
  - by apply abortCurrent_aborts.
Qed.

Lemma supersedes_aborts s e rid :
  inv s -> is_Some (inflight s !! rid) -> supersedes pageSize s e ->
  rid ∈ aborted (step pageSize s e).
Proof.
  intros Hinv Hr [Hlt|(q & -> & Hq)].
  - destruct e; simpl in *.
    + unfold debounceEffect in Hlt. simpl in Hlt.
      destruct (abortControllerRef s); [|simpl in Hlt; lia].
      case_bool_decide; simpl in Hlt; lia.
    + lia.
    + lia.
    + destruct (timerArmed s); [|lia].
      apply loadMore_aborts; [|done|done].
      by eapply inv_frame; [..|exact Hinv].
    + by apply loadMore_aborts.
    + destruct (_ && _); [by apply loadMore_aborts | lia].
    + apply loadMore_aborts; [|done|done].
      by eapply inv_frame; [..|exact Hinv].
    + exfalso. revert Hlt. unfold settle.
      destruct (inflight s !! rid0); [|lia]. simpl.
      destruct (decide (rid0 ∈ aborted s)); [simpl; lia|].
      destruct o; simpl; lia.
    + unfold abortCurrent in Hlt.
      destruct (abortControllerRef s); simpl in Hlt; lia.
  - simpl. unfold debounceEffect. simpl.
    destruct (abortControllerRef s) as [c|] eqn:Hc.
    + rewrite bool_decide_eq_true_2 by done. simpl.
      destruct (decide (c = rid)) as [->|Hne]; [set_solver|].
      apply elem_of_union_r, (inv_stale_aborted s Hinv); [done|].
      rewrite Hc. congruence.
    + simpl. apply (inv_stale_aborted s Hinv); [done|]. by rewrite Hc.
Qed.

End LoaderFacts.

(** C2. Take any run of the loader from its mount, an outstanding request
    [rid], and an event that supersedes it: one that starts a newer request
    or changes the query.  After any further events, as long as [rid] is
    still outstanding, its completion, with a page or with a failure,
    changes nothing but the set of outstanding requests: no item is added,
    [loading], [hasMore], the error, the cache and the page counter keep
    their values. *)
Theorem superseded_completion_has_no_effect (pageSize : nat) (q0 : string)
    (ids0 : list string) (es1 : list AsyncItems.event) (e : AsyncItems.event)
    (es2 : list AsyncItems.event) (rid : nat) (o : AsyncItems.outcome) :
  let s1 := AsyncItems.run pageSize es1 (AsyncItems.mount q0 ids0) in
  let s2 := AsyncItems.run pageSize es2 (AsyncItems.step pageSize s1 e) in
  let s3 := AsyncItems.step pageSize s2 (AsyncItems.Settled rid o) in
  is_Some (AsyncItems.inflight s1 !! rid) ->
  supersedes pageSize s1 e ->
  is_Some (AsyncItems.inflight s2 !! rid) ->
  s3 = AsyncItems.set_inflight (delete rid (AsyncItems.inflight s2)) s2
  /\ AsyncItems.visible s3 = AsyncItems.visible s2
  /\ AsyncItems.pageRef s3 = AsyncItems.pageRef s2.
Proof.
  intros s1 s2 s3 Hr1 Hsup Hr2.
  assert (Hinv : inv s1) by apply inv_run, inv_mount.
  assert (Hab : rid ∈ AsyncItems.aborted s2).
  { apply aborted_run. by apply supersedes_aborts. }
  assert (Heq : s3 = AsyncItems.set_inflight
                       (delete rid (AsyncItems.inflight s2)) s2).
  { unfold s3. simpl. by apply settle_aborted. }
  rewrite Heq. by split_and!.
Qed.

Lemma superseded_completion_has_no_effect_witness :
  let s2 :=
    AsyncItems.run 2 [AsyncItems.TimerFired]
      (AsyncItems.step 2
         (AsyncItems.run 2 [AsyncItems.EffectsFlushed]
            (AsyncItems.mount "" []))
         (AsyncItems.QueryChanged "a")) in
  AsyncItems.visible
    (AsyncItems.step 2 s2
       (AsyncItems.Settled 0 (AsyncItems.Fulfilled mockItems)))
  = AsyncItems.visible s2.
Proof.
  apply (superseded_completion_has_no_effect 2 "" []
           [AsyncItems.EffectsFlushed] (AsyncItems.QueryChanged "a")
           [AsyncItems.TimerFired] 0%nat (AsyncItems.Fulfilled mockItems)).
  - eexists. vm_compute. reflexivity.
  - right. exists "a". split; [reflexivity | discriminate].
  - eexists. vm_compute. reflexivity.
Defined.

(** The same holds when the newer request comes from the timer that fires
    before the first render has flushed its effects, and for a failure. *)
Example superseded_by_timer :
  let s2 :=
    AsyncItems.run 2
      [AsyncItems.EffectsFlushed;
       AsyncItems.Settled 1 (AsyncItems.Fulfilled (take 2 mockItems))]
      (AsyncItems.step 2 (AsyncItems.mount "" []) AsyncItems.TimerFired) in
  AsyncItems.abortControllerRef (AsyncItems.mount "" []) = Some 0%nat
  /\ id <$> AsyncItems.asyncItems s2 = ["1"; "2"]
  /\ AsyncItems.visible
       (AsyncItems.step 2 s2 (AsyncItems.Settled 0 (AsyncItems.Rejected None)))
     = AsyncItems.visible s2.
Proof. split_and!; vm_compute; reflexivity. Qed.

(** Scenario D of the specification: with page size 2, a page of two items
    keeps [hasMore], a page of one item clears it. *)
Example hasMore_follows_page_length :
  let s1 :=
    AsyncItems.run 2
      [AsyncItems.EffectsFlushed;
       AsyncItems.Settled 0 (AsyncItems.Fulfilled (take 2 mockItems));
       AsyncItems.EffectsFlushed]
      (AsyncItems.mount "" []) in
  let s2 :=
    AsyncItems.run 2
      [AsyncItems.Scrolled true; AsyncItems.EffectsFlushed;
       AsyncItems.Settled 1 (AsyncItems.Fulfilled (take 1 (drop 2 mockItems)))]
      s1 in
  AsyncItems.hasMore s1 = true
  /\ id <$> AsyncItems.asyncItems s1 = ["1"; "2"]
  /\ AsyncItems.hasMore s2 = false
  /\ id <$> AsyncItems.asyncItems s2 = ["1"; "2"; "3"]
  /\ AsyncItems.pageRef s2 = 2%nat.
Proof. split_and!; vm_compute; reflexivity. Qed.

(** * Further properties of the code *)

(** ** fuzzyScore: case, prefixes, bounds *)

Lemma chars_toLowerCase (s : string) :
  JS.chars (JS.toLowerCase s) = map JS.lowerChar (JS.chars s).
Proof.
  unfold JS.toLowerCase, JS.chars. apply list_ascii_of_string_of_list_ascii.
Qed.

Lemma chars_length (s : string) : length (JS.chars s) = String.length s.
Proof. induction s as [|c s IH]; simpl; [done | by rewrite IH]. Qed.

Lemma isEmpty_length (s : string) :
  JS.isEmpty s = (String.length s =? 0)%nat.
Proof. by destruct s. Qed.

Lemma isEmpty_toLowerCase (s : string) :
  JS.isEmpty (JS.toLowerCase s) = JS.isEmpty s.
Proof. by destruct s. Qed.

Lemma lowerChar_idempotent (c : ascii) :
  JS.lowerChar (JS.lowerChar c) = JS.lowerChar c.
Proof. destruct c as [[] [] [] [] [] [] [] []]; reflexivity. Qed.

Lemma toLowerCase_idempotent (s : string) :
  JS.toLowerCase (JS.toLowerCase s) = JS.toLowerCase s.
Proof.
  unfold JS.toLowerCase at 1. rewrite chars_toLowerCase.
  unfold JS.toLowerCase. f_equal. rewrite map_map. apply map_ext.
  apply lowerChar_idempotent.
Qed.

(** X1. [fuzzyScore] reads its arguments only through their lower-case
    forms: haystacks, and needles, that differ in case only get the same
    score; in particular lower-casing either argument changes nothing. *)
Theorem fuzzyScore_ignores_case (h1 h2 n1 n2 : string) :
  JS.toLowerCase h1 = JS.toLowerCase h2 ->
  JS.toLowerCase n1 = JS.toLowerCase n2 ->
  fuzzyScore h1 n1 = fuzzyScore h2 n2
  /\ fuzzyScore (JS.toLowerCase h1) (JS.toLowerCase n1) = fuzzyScore h1 n1.
Proof.
  assert (Hgen : forall a b c d,
    JS.toLowerCase a = JS.toLowerCase b ->
    JS.toLowerCase c = JS.toLowerCase d ->
    fuzzyScore a c = fuzzyScore b d).
  { intros a b c d Hab Hcd. unfold fuzzyScore.
    rewrite <- (isEmpty_toLowerCase c), <- (isEmpty_toLowerCase d).
    by rewrite Hab, Hcd. }
  intros Hh Hn. split; [by apply Hgen|].
  apply Hgen; apply toLowerCase_idempotent.
Qed.

Lemma fuzzyScore_ignores_case_witness :
  fuzzyScore "Alpha Beta" "al" = fuzzyScore "ALPHA beta" "AL".
Proof.
  apply (fuzzyScore_ignores_case "Alpha Beta" "ALPHA beta" "al" "AL");
    reflexivity.
Defined.

Lemma seek_match_now (h n : list ascii) i ch st :
  h !! hIdx st = Some ch ->
  seek (length h) h n i ch st = (onMatch h n i st, true).
Proof.
  intros Hh. pose proof (lookup_lt_Some _ _ _ Hh) as Hlt.
  destruct (length h) as [|fuel]; [lia|]. simpl.
  by rewrite Hh, bool_decide_eq_true_2.
Qed.

Section PrefixScan.
Variables h n : list ascii.
Hypothesis prefix : take (length n) h = n.

Lemma prefix_lookup i ch : n !! i = Some ch -> h !! i = Some ch.
Proof.
  intros Hi. rewrite <- prefix in Hi.
  apply lookup_take_Some in Hi. tauto.
Qed.

(** On a haystack that starts with the needle nothing is skipped. *)
Lemma matchLoop_prefix rest i st :
  drop i n = rest -> hIdx st = i -> 0 <= consecutive st ->
  exists st',
    matchLoop h n i rest st = Some st'
    /\ penalty st' <= penalty st
    /\ 0 <= consecutive st'
    /\ (rest <> [] -> 1 <= consecutive st').
Proof.
  revert i st. induction rest as [|ch rest IH]; intros i st Hd Hi Hc0.
  { exists st. split_and!; [done | lia | done | done]. }
  assert (Hn : n !! i = Some ch).
  { rewrite <- (Nat.add_0_r i), <- lookup_drop, Hd. reflexivity. }
  pose proof (prefix_lookup _ _ Hn) as Hh.
  simpl. rewrite seek_match_now by (by rewrite Hi).
  assert (Hc1 : 1 <= consecutive (onMatch h n i st)).
  { simpl. destruct (continuesRun _ _ _ _); lia. }
  destruct (IH (S i) (onMatch h n i st)) as (st' & Hm & Hp & Hc & Hc').
  - replace (S i) with (i + 1)%nat by lia.
    rewrite <- drop_drop, Hd. reflexivity.
  - simpl. by rewrite Hi.
  - lia.
  - exists st'. split_and!; [done| |done|].
    + etrans; [exact Hp|]. simpl.
      destruct (isWordBoundary _ _); lia.
    + intros _. destruct rest as [|c rest]; [|by apply Hc'].
      simpl in Hm. by injection Hm as <-.
Qed.
End PrefixScan.

(** X2. A needle that is not empty and is, up to case, a prefix of the
    haystack gets the best score, 0. *)
Theorem fuzzyScore_prefix_is_perfect (haystack needle : string) :
  needle <> "" ->
  startsWith (JS.chars (JS.toLowerCase haystack))
             (JS.chars (JS.toLowerCase needle)) = true ->
  fuzzyScore haystack needle = Some 0.
Proof.
  intros Hne Hpre. unfold fuzzyScore.
  destruct (JS.isEmpty needle) eqn:He; [by apply isEmpty_true in He|].
  set (h := JS.chars (JS.toLowerCase haystack)) in *.
  set (n := JS.chars (JS.toLowerCase needle)) in *.
  assert (Hn : n <> []).
  { unfold n. rewrite chars_toLowerCase. by destruct needle. }
  unfold startsWith in Hpre. apply bool_decide_eq_true_1 in Hpre.
  destruct (matchLoop_prefix h n Hpre n 0%nat scan0)
    as (st & Hm & Hp & _ & Hc); [done | done | simpl; lia |].
  unfold runScan. rewrite Hm. f_equal.
  specialize (Hc Hn). simpl in Hp.
  unfold prefixBonus, startsWith. rewrite bool_decide_eq_true_2 by done.
  unfold wordBonus. destruct (isWordBoundary _ _); lia.
Qed.

Lemma fuzzyScore_prefix_is_perfect_witness :
  fuzzyScore "Alpha Beta" "ALPHA b" = Some 0.
Proof.
  apply fuzzyScore_prefix_is_perfect; [discriminate | reflexivity].
Defined.

(** The skipped characters bound the penalty. *)
Lemma matchLoop_penalty_bound (h n : list ascii) rest i st st' :
  matchLoop h n i rest st = Some st' ->
  (hIdx st <= length h)%nat ->
  (hIdx st' <= length h)%nat
  /\ penalty st' + Z.of_nat (length rest) - Z.of_nat (hIdx st')
     <= penalty st - Z.of_nat (hIdx st)
  /\ (0 <= consecutive st -> 0 <= consecutive st').
Proof.
  revert i st. induction rest as [|ch rest IH]; intros i st Hm Hle.
  { simpl in Hm. injection Hm as <-. simpl. split_and!; [done | lia | done]. }
  simpl in Hm.
  destruct (seek (length h) h n i ch st) as [st1 found] eqn:Hs.
  destruct found; [|discriminate].
  destruct (seek_true _ _ _ _ _ _ _ Hs) as (mid & Hd & _ & Hk & Hp & Hc & _).
  assert (Hlt : (hIdx st + length mid < length h)%nat).
  { assert (Hl : drop (hIdx st) h !! length mid = Some ch).
    { rewrite Hd. by apply list_lookup_middle. }
    rewrite lookup_drop in Hl. by apply lookup_lt_Some in Hl. }
  destruct (IH _ _ Hm) as (H1 & H2 & H3); [lia|].
  split_and!; [done| |].
  - rewrite length_cons.
    assert (penalty st1 <= penalty st + Z.of_nat (length mid)).
    { rewrite Hp. destruct (isWordBoundary _ _); lia. }
    lia.
  - intros H0. apply H3. rewrite Hc.
    destruct (continuesRun _ _ _ _); lia.
Qed.

(** X3. A score never exceeds the number of characters that the
    lower-cased needle leaves over in the lower-cased haystack, the two
    strings the scan works on; and a needle that matches is, lower-cased,
    no longer than the lower-cased haystack. *)
Theorem fuzzyScore_upper_bound (haystack needle : string) (s : Z) :
  fuzzyScore haystack needle = Some s ->
  s <= Z.of_nat (String.length (JS.toLowerCase haystack))
       - Z.of_nat (String.length (JS.toLowerCase needle))
  /\ (String.length (JS.toLowerCase needle)
      <= String.length (JS.toLowerCase haystack))%nat.
Proof.
  intros Hs. rewrite <- !chars_length.
  set (h := JS.chars (JS.toLowerCase haystack)) in *.
  set (n := JS.chars (JS.toLowerCase needle)) in *.
  assert (Hsub : n `sublist_of` h).
  { unfold fuzzyScore in Hs. destruct (JS.isEmpty needle) eqn:He.
    - apply isEmpty_true in He. subst needle. apply sublist_nil_l.
    - pose proof (matchLoop_iff_sublist h n n 0%nat scan0) as Hiff.
      simpl in Hiff. apply Hiff. unfold runScan in Hs. fold h n in Hs.
      destruct (matchLoop _ _ _ _ _); [eauto | discriminate]. }
  assert (Hlen : (length n <= length h)%nat) by (by apply sublist_length).
  split; [|done]. unfold fuzzyScore in Hs.
  destruct (JS.isEmpty needle) eqn:He.
  { injection Hs as <-. lia. }
  fold h n in Hs.
  destruct (runScan h n) as [st|] eqn:Hr; [|discriminate].
  injection Hs as <-. unfold runScan in Hr.
  destruct (matchLoop_penalty_bound h n n 0%nat scan0 st Hr)
    as (H1 & H2 & H3); [simpl; lia|].
  simpl in H2. specialize (H3 ltac:(simpl; lia)).
  assert (prefixBonus h n <= 0)
    by (unfold prefixBonus; destruct (startsWith _ _); lia).
  assert (wordBonus h st <= 0)
    by (unfold wordBonus; destruct (isWordBoundary _ _); lia).
  lia.
Qed.

Lemma fuzzyScore_upper_bound_witness :
  3 <= Z.of_nat (String.length (JS.toLowerCase "Beta Alpha"))
       - Z.of_nat (String.length (JS.toLowerCase "AL"))
  /\ (String.length (JS.toLowerCase "AL")
      <= String.length (JS.toLowerCase "Beta Alpha"))%nat.
Proof.
  apply (fuzzyScore_upper_bound "Beta Alpha" "AL" 3). reflexivity.
Defined.

(** ** fuzzyFilter: what it returns, in which order *)

Section FuzzyFilterOrder.
Context {T : Type} (getText : T -> string) (query : string).

Let candidate (it : T) : option (FuzzyCandidate T) :=
  Candidate it <$> fuzzyScore (getText it) query.

Lemma fuzzyFilter_unlimited (items : list T) :
  fuzzyFilter items getText query None
  = JS.sort byScore (omap candidate items).
Proof. unfold fuzzyFilter. by rewrite fuzzyFilter_fold. Qed.

Lemma byScore_trans (a b c : FuzzyCandidate T) :
  notAfter byScore a b -> notAfter byScore b c -> notAfter byScore a c.
Proof. unfold notAfter, byScore. rewrite !Z.compare_gt_iff. lia. Qed.

Lemma byScore_total (a b : FuzzyCandidate T) :
  byScore a b = Gt -> notAfter byScore b a.
Proof. unfold notAfter, byScore. rewrite !Z.compare_gt_iff. lia. Qed.

(** Inserting a candidate leaves the candidates of any one score in their
    order, the new one in front of them. *)
Lemma insert_same_score (s : Z) (x : FuzzyCandidate T)
    (l : list (FuzzyCandidate T)) :
  filter (fun c => score c = s) (JS.insert byScore x l)
  = filter (fun c => score c = s) (x :: l).
Proof.
  induction l as [|y l IH]; [done|]. simpl.
  destruct (byScore x y) eqn:Hxy; try done.
  unfold byScore in Hxy. apply Z.compare_gt_iff in Hxy.
  rewrite !filter_cons, IH, filter_cons.
  destruct (decide (score x = s)), (decide (score y = s)); try done. lia.
Qed.

Lemma sort_same_score (s : Z) (l : list (FuzzyCandidate T)) :
  filter (fun c => score c = s) (JS.sort byScore l)
  = filter (fun c => score c = s) l.
Proof.
  induction l as [|x l IH]; [done|]. simpl.
  rewrite insert_same_score, !filter_cons, IH. done.
Qed.

Lemma candidates_of_score (s : Z) (items : list T) :
  item <$> filter (fun c => score c = s) (omap candidate items)
  = filter (fun it => fuzzyScore (getText it) query = Some s) items.
Proof.
  induction items as [|it items IH]; [done|]. simpl.
  rewrite filter_cons. unfold candidate at 1.
  destruct (fuzzyScore (getText it) query) as [z|] eqn:Hz; simpl.
  - rewrite filter_cons. simpl.
    destruct (decide (z = s)) as [->|Hne].
    + rewrite decide_True by done. rewrite fmap_cons. simpl.
      f_equal. exact IH.
    + rewrite decide_False by congruence. exact IH.
  - exact IH.
Qed.
End FuzzyFilterOrder.

Lemma fuzzyFilter_sorted_matches_aux {T} (items : list T)
    (getText : T -> string) (query : string) :
  StronglySorted (fun a b => score a <= score b)
    (fuzzyFilter items getText query None)
  /\ (forall it s,
        Candidate it s ∈ fuzzyFilter items getText query None
        <-> it ∈ items /\ fuzzyScore (getText it) query = Some s).
Proof.
  rewrite fuzzyFilter_unlimited. split.
  - apply lookup_StronglySorted. intros i j a b Hij Hi Hj.
    pose proof (StronglySorted_lookup _ _ _ _ _ _
                  (sort_sorted byScore byScore_trans byScore_total _)
                  Hij Hi Hj) as Hle.
    unfold notAfter, byScore in Hle. rewrite Z.compare_gt_iff in Hle. lia.
  - intros it s. rewrite sort_Permutation, list_elem_of_omap. split.
    + intros (x & Hx & Hc).
      destruct (fuzzyScore (getText x) query) as [z|] eqn:Hz;
        [|discriminate].
      simpl in Hc. injection Hc as -> ->. done.
    + intros [Hin Hs]. exists it. split; [done|]. by rewrite Hs.
Qed.

(** X4. Without a limit, [fuzzyFilter] returns exactly the items that
    match, each with the score [fuzzyScore] gives its text, in ascending
    order of score. *)
Theorem fuzzyFilter_sorted_matches {T} (items : list T)
    (getText : T -> string) (query : string) :
  let results := fuzzyFilter items getText query None in
  StronglySorted (fun a b => score a <= score b) results
  /\ (forall it s,
        Candidate it s ∈ results
        <-> it ∈ items /\ fuzzyScore (getText it) query = Some s)
  /\ item <$> results
     ≡ₚ filter (fun it => is_Some (fuzzyScore (getText it) query)) items.
Proof.
  intros results. unfold results.
  destruct (fuzzyFilter_sorted_matches_aux items getText query)
    as [Hsorted Hmem].
  split_and!; [done | done | apply fuzzyFilter_items].
Qed.

(** X5. [fuzzyFilter] is stable: the items of one and the same score come
    out in the order they came in. *)
Theorem fuzzyFilter_stable {T} (items : list T) (getText : T -> string)
    (query : string) (s : Z) :
  item <$> filter (fun c => score c = s)
             (fuzzyFilter items getText query None)
  = filter (fun it => fuzzyScore (getText it) query = Some s) items.
Proof.
  rewrite fuzzyFilter_unlimited, sort_same_score.
  apply candidates_of_score.
Qed.

Lemma sort_equal_scores {T} (l : list (FuzzyCandidate T)) (z : Z) :
  Forall (fun c => score c = z) l -> JS.sort byScore l = l.
Proof.
  induction 1 as [|x l Hx Hl IH]; [done|].
  change (JS.sort byScore (x :: l))
    with (JS.insert byScore x (JS.sort byScore l)).
  rewrite IH. destruct Hl as [|y l' Hy _]; [done|].
  unfold JS.insert, byScore. by rewrite Hx, Hy, Z.compare_refl.
Qed.

(** X6. With the empty query [fuzzyFilter] keeps every item, in input
    order, each with score 0. *)
Theorem fuzzyFilter_empty_query {T} (items : list T) (getText : T -> string) :
  fuzzyFilter items getText "" None = (fun it => Candidate it 0) <$> items.
Proof.
  rewrite fuzzyFilter_unlimited. cbv zeta.
  assert (Hom : omap (fun it => Candidate it <$> fuzzyScore (getText it) "")
                  items = (fun it => Candidate it 0) <$> items).
  { induction items as [|it items IH]; [done|]. simpl. by f_equal. }
  rewrite Hom. apply (sort_equal_scores _ 0).
  apply Forall_fmap, Forall_forall. done.
Qed.

Lemma slice_prefix {A} (l : list A) (k : Z) :
  0 <= k -> JS.slice l 0 k = take (Z.to_nat k) l.
Proof.
  intros Hk. unfold JS.slice, JS.relIndex.
  destruct (Z.ltb_spec 0 0) as [?|_]; [lia|].
  destruct (Z.ltb_spec k 0) as [?|_]; [lia|].
  rewrite (Z.min_l 0) by lia. simpl. rewrite drop_0, Z.sub_0_r.
  destruct (Z.le_ge_cases k (Z.of_nat (length l))) as [Hle|Hge].
  - rewrite Z.min_l, Z.max_l by lia. done.
  - rewrite Z.min_r, Z.max_l by lia. rewrite Nat2Z.id.
    rewrite !take_ge by lia. done.
Qed.

(** X7. A limit that is not negative cuts the unlimited result down to its
    first [limit] candidates, the best ones. *)
Theorem fuzzyFilter_limit {T} (items : list T) (getText : T -> string)
    (query : string) (k : Z) :
  0 <= k ->
  fuzzyFilter items getText query (Some k)
  = take (Z.to_nat k) (fuzzyFilter items getText query None)
  /\ Z.of_nat (length (fuzzyFilter items getText query (Some k))) <= k.
Proof.
  intros Hk.
  assert (Heq : fuzzyFilter items getText query (Some k)
                = take (Z.to_nat k) (fuzzyFilter items getText query None)).
  { unfold fuzzyFilter. by rewrite slice_prefix. }
  split; [done|]. rewrite Heq, length_take. lia.
Qed.

Lemma fuzzyFilter_limit_witness :
  item <$> fuzzyFilter mockItems label "a" (Some 2)
  = take 2 (item <$> fuzzyFilter mockItems label "a" None).
Proof.
  destruct (fuzzyFilter_limit mockItems label "a" 2) as [-> _]; [lia|].
  by rewrite fmap_take.
Defined.

(** ** orderItemsSync: which items, in which order *)

Lemma fuzzyScore_is_Some (haystack needle : string) :
  is_Some (fuzzyScore haystack needle)
  <-> subsequenceIgnoringCase needle haystack.
Proof.
  unfold fuzzyScore, subsequenceIgnoringCase.
  destruct (JS.isEmpty needle) eqn:He.
  - apply isEmpty_true in He. subst needle. split; [|eauto].
    intros _. apply sublist_nil_l.
  - pose proof (matchLoop_iff_sublist
                  (JS.chars (JS.toLowerCase haystack))
                  (JS.chars (JS.toLowerCase needle))
                  (JS.chars (JS.toLowerCase needle)) 0%nat scan0) as Hiff.
    simpl in Hiff. rewrite <- Hiff. unfold runScan.
    destruct (matchLoop _ _ _ _ _).
    + split; intros _; eexists; reflexivity.
    + split; intros [? ?]; discriminate.
Qed.

Lemma orderItemsAsync_as_sync (items : list Item) (selectedIds : list string) :
  orderItemsAsync items selectedIds = orderItemsSync items selectedIds "".
Proof.
  unfold orderItemsAsync, orderItemsSync.
  by destruct (separateItems items selectedIds).
Qed.

(** X8. An item is in the ordered view exactly when it is an input item
    that is selected or whose label matches the query; nothing else gets
    in, and no selected or matching item is lost. *)
Theorem orderItemsSync_elem_of (items : list Item)
    (selectedIds : list string) (query : string) (it : Item) :
  it ∈ orderItemsSync items selectedIds query
  <-> it ∈ items
      /\ (id it ∈ selectedIds \/ subsequenceIgnoringCase query (label it)).
Proof.
  rewrite orderItemsSync_eq, elem_of_app, selectedPart_elem_of.
  assert (Hrest : it ∈ restOf items selectedIds query
                  <-> it ∈ items /\ (id it ∉ selectedIds)
                      /\ subsequenceIgnoringCase query (label it)).
  { unfold restOf. destruct (JS.isEmpty query) eqn:He.
    - apply isEmpty_true in He. subst query.
      rewrite unselectedPart_eq, list_elem_of_filter.
      assert (subsequenceIgnoringCase "" (label it))
        by apply sublist_nil_l.
      tauto.
    - rewrite fuzzyFilter_items, list_elem_of_filter, unselectedPart_eq,
        list_elem_of_filter, fuzzyScore_is_Some. tauto. }
  rewrite Hrest. destruct (decide (id it ∈ selectedIds)); tauto.
Qed.



(** ** The selection: commitSelection, clearAll, updateMRU *)

Lemma commitSelection_selectedIds (x : string) (w : Widget.widget) :
  Widget.selectedIds (Widget.commitSelection x w)
  = if bool_decide (x ∈ Widget.selectedIds w)
    then filter (fun y => y <> x) (Widget.selectedIds w)
    else x :: filter (fun y => y <> x) (Widget.selectedIds w).
Proof.
  unfold Widget.commitSelection. simpl.
  by destruct (Widget.isAsync w), (bool_decide _).
Qed.

Lemma commitSelection_cache (x : string) (w : Widget.widget) :
  Widget.selectedItemsCache (Widget.commitSelection x w)
  = if Widget.isAsync w
    then if bool_decide (x ∈ Widget.selectedIds w)
         then delete x (Widget.selectedItemsCache w)
         else match Widget.findById x (Widget.asyncItems w) with
              | Some it => <[x := it]> (Widget.selectedItemsCache w)
              | None => Widget.selectedItemsCache w
              end
    else Widget.selectedItemsCache w.
Proof.
  unfold Widget.commitSelection. simpl. by destruct (Widget.isAsync w).
Qed.

Lemma commitSelection_frame (x : string) (w : Widget.widget) :
  Widget.items (Widget.commitSelection x w) = Widget.items w
  /\ Widget.isAsync (Widget.commitSelection x w) = Widget.isAsync w
  /\ Widget.asyncItems (Widget.commitSelection x w) = Widget.asyncItems w
  /\ Widget.query (Widget.commitSelection x w) = "".
Proof.
  unfold Widget.commitSelection. simpl.
  by destruct (Widget.isAsync w) eqn:E; simpl; rewrite ?E.
Qed.

(** X10. [commitSelection] keeps the selection free of repetitions and
    toggles exactly the given id: afterwards the id is selected if and only
    if it was not, and every other id is selected if and only if it was. *)
Theorem commitSelection_toggles_membership (x : string) (w : Widget.widget) :
  let ids' := Widget.selectedIds (Widget.commitSelection x w) in
  (NoDup (Widget.selectedIds w) -> NoDup ids')
  /\ (x ∈ ids' <-> x ∉ Widget.selectedIds w)
  /\ (forall y, y <> x -> (y ∈ ids' <-> y ∈ Widget.selectedIds w)).
Proof.
  intros ids'. unfold ids'. rewrite commitSelection_selectedIds.
  case_bool_decide as Hin; split_and!.
  - apply NoDup_filter.
  - rewrite list_elem_of_filter. tauto.
  - intros y Hy. rewrite list_elem_of_filter. tauto.
  - intros Hnd. rewrite filter_absent by done. by apply NoDup_cons.
  - split; [done|]. intros _. left.
  - intros y Hy. rewrite filter_absent by done.
    rewrite elem_of_cons. tauto.
Qed.

(** X11. Selecting an unselected id and committing it again brings the
    selection back as it was; a cache that had no entry for the id is back
    as it was, too.  Deselecting and selecting again puts the id at the
    front of the selection. *)
Theorem commitSelection_twice (x : string) (w : Widget.widget) :
  let w2 := Widget.commitSelection x (Widget.commitSelection x w) in
  (x ∉ Widget.selectedIds w ->
   Widget.selectedIds w2 = Widget.selectedIds w
   /\ (Widget.selectedItemsCache w !! x = None ->
       Widget.selectedItemsCache w2 = Widget.selectedItemsCache w))
  /\ (x ∈ Widget.selectedIds w ->
      Widget.selectedIds w2
      = x :: filter (fun y => y <> x) (Widget.selectedIds w)).
Proof.
  intros w2. unfold w2.
  destruct (commitSelection_frame x w) as (_ & Hasync & Hfetched & _).
  split.
  - intros Hnin. split.
    + rewrite commitSelection_selectedIds, commitSelection_adds_front by done.
      rewrite bool_decide_eq_true_2 by left.
      rewrite filter_cons, decide_False by tauto. by apply filter_absent.
    + intros Hnone. rewrite commitSelection_cache, Hasync.
      rewrite (commitSelection_cache x w).
      destruct (Widget.isAsync w); [|done].
      rewrite commitSelection_adds_front by done.
      rewrite bool_decide_eq_true_2 by left.
      rewrite bool_decide_eq_false_2 by done.
      destruct (Widget.findById x (Widget.asyncItems w)).
      * by rewrite delete_insert_id.
      * by apply delete_id.
  - intros Hin.
    rewrite commitSelection_selectedIds, (commitSelection_selectedIds x w).
    rewrite (bool_decide_eq_true_2 (x ∈ Widget.selectedIds w)) by done.
    assert (Hnin : x ∉ filter (fun y => y <> x) (Widget.selectedIds w)).
    { rewrite list_elem_of_filter. tauto. }
    rewrite bool_decide_eq_false_2 by done. by rewrite filter_absent.
Qed.

(** X12. [updateMRU] puts the id first, drops its other occurrences, keeps
    the other ids in their order, keeps a list without repetitions so, and
    doing it twice is doing it once. *)
Theorem updateMRU_moves_to_front (x : string) (prev : list string) :
  head (updateMRU x prev) = Some x
  /\ (x ∉ tail (updateMRU x prev))
  /\ filter (fun y => y <> x) (updateMRU x prev)
     = filter (fun y => y <> x) prev
  /\ (forall y, y ∈ updateMRU x prev <-> y = x \/ y ∈ prev)
  /\ (NoDup prev -> NoDup (updateMRU x prev))
  /\ updateMRU x (updateMRU x prev) = updateMRU x prev.
Proof.
  unfold updateMRU. simpl.
  assert (Hnin : x ∉ filter (fun y => y <> x) prev).
  { rewrite list_elem_of_filter. tauto. }
  split_and!.
  - done.
  - done.
  - rewrite filter_cons, decide_False by tauto. by rewrite filter_absent.
  - intros y. rewrite elem_of_cons, list_elem_of_filter.
    destruct (decide (y = x)); tauto.
  - intros Hnd. apply NoDup_cons. split; [done | by apply NoDup_filter].
  - rewrite filter_cons, decide_False by tauto. by rewrite filter_absent.
Qed.

(** X13. After [clearAll] nothing is selected and, in server mode, the
    cache is empty; the ordered view for the empty query is then the source
    list in its own order. *)
Theorem clearAll_resets (w : Widget.widget) :
  let w' := clearAll w in
  Widget.selectedIds w' = []
  /\ (Widget.isAsync w = true -> Widget.selectedItemsCache w' = ∅)
  /\ (Widget.isAsync w = false ->
      Widget.selectedItemsCache w' = Widget.selectedItemsCache w)
  /\ (Widget.query w = "" ->
      Widget.orderedItems w'
      = match Widget.items w with
        | Some its => its
        | None => Widget.asyncItems w
        end).
Proof.
  intros w'. unfold w', clearAll. simpl.
  assert (Hall : forall its q,
            JS.isEmpty q = true -> orderItemsSync its [] q = its).
  { intros its q Hq. rewrite orderItemsSync_eq.
    assert (Hsel : selectedPart its [] = []).
    { apply Permutation_nil_r. rewrite selectedPart_Permutation.
      induction its as [|it its IH]; [done|].
      rewrite filter_cons, decide_False; [done | apply not_elem_of_nil]. }
    rewrite Hsel. unfold restOf. rewrite Hq, unselectedPart_eq. simpl.
    clear Hsel. induction its as [|it its IH]; [done|].
    rewrite filter_cons, decide_True; [by f_equal | apply not_elem_of_nil]. }
  destruct (Widget.isAsync w) eqn:Ha; simpl; split_and!; try done.
  - intros Hq. unfold Widget.orderedItems. simpl. rewrite Hq.
    destruct (Widget.items w); [by apply Hall|].
    rewrite orderItemsAsync_as_sync. by apply Hall.
  - intros Hq. unfold Widget.orderedItems. simpl. rewrite Hq.
    destruct (Widget.items w); [by apply Hall|].
    rewrite orderItemsAsync_as_sync. by apply Hall.
Qed.

(** X14. A newly selected item is shown first: after [commitSelection] of
    an unselected id that the source list carries, the ordered view starts
    with the item of that id. *)
Theorem commitSelection_shows_first (w : Widget.widget) (x : string) :
  let source := match Widget.items w with
                | Some its => its
                | None => Widget.asyncItems w
                end in
  NoDup (id <$> source) ->
  NoDup (Widget.selectedIds w) ->
  x ∉ Widget.selectedIds w ->
  x ∈ id <$> source ->
  head (id <$> Widget.orderedItems (Widget.commitSelection x w)) = Some x.
Proof.
  intros source Hsrc Hids Hnin Hin.
  destruct (commitSelection_frame x w) as (Hitems & _ & Hfetched & Hq).
  assert (Hfirst : forall its,
            NoDup (id <$> its) -> x ∈ id <$> its ->
            head (id <$> orderItemsSync its (x :: Widget.selectedIds w) "")
            = Some x).
  { intros its Hnd Hx. rewrite orderItemsSync_eq, fmap_app.
    rewrite selectedPart_ids; [|done|by apply NoDup_cons].
    rewrite filter_cons, decide_True by done. done. }
  unfold Widget.orderedItems.
  rewrite Hitems, Hfetched, Hq, commitSelection_adds_front by done.
  unfold source in *. destruct (Widget.items w) as [its|].
  - by apply Hfirst.
  - rewrite orderItemsAsync_as_sync. by apply Hfirst.
Qed.

Lemma commitSelection_shows_first_witness :
  head (id <$> Widget.orderedItems (Widget.commitSelection "3" localWidget))
  = Some "3".
Proof.
  apply (commitSelection_shows_first localWidget "3").
  - exact mockItems_distinct.
  - apply NoDup_nil_2.
  - apply not_elem_of_nil.
  - apply (bool_decide_unpack _). vm_compute. reflexivity.
Defined.

Lemma findById_Some (x : string) (l : list Item) (it : Item) :
  Widget.findById x l = Some it -> id it = x /\ it ∈ l.
Proof.
  unfold Widget.findById. induction l as [|y l IH]; [done|]. simpl.
  case_bool_decide as Hy.
  - intros [= <-]. split; [done | left].
  - intros [? ?]%IH. split; [done | by right].
Qed.

(** X15. In server mode a selected item keeps its token whatever is
    fetched later: once an unselected id of a fetched item is committed, the
    token lookup for it returns that item for every later [asyncItems]. *)
Theorem selected_item_survives_pages (w : Widget.widget) (x : string)
    (it : Item) (fetched : list Item) :
  serverMode w ->
  x ∉ Widget.selectedIds w ->
  Widget.findById x (Widget.asyncItems w) = Some it ->
  selectedItemOf x (withAsyncItems fetched (Widget.commitSelection x w))
  = Some it
  /\ id it = x.
Proof.
  intros [Hasync Hitems] Hnin Hfind.
  split; [|by apply findById_Some in Hfind as [? _]].
  destruct (commitSelection_frame x w) as (Hi & _ & _ & _).
  unfold selectedItemOf, withAsyncItems.
  cbn [Widget.items Widget.selectedItemsCache Widget.asyncItems].
  rewrite Hi, Hitems, commitSelection_cache, Hasync.
  rewrite bool_decide_eq_false_2 by done. rewrite Hfind.
  unfold Widget.getSelectedItem.
  rewrite bool_decide_eq_false_2 by done.
  by rewrite lookup_insert_eq.
Qed.

Lemma selected_item_survives_pages_witness :
  selectedItemOf "2"
    (withAsyncItems [] (Widget.commitSelection "2" serverWidget))
  = Some (MkItem "2" "Beta" None).
Proof.
  apply (selected_item_survives_pages serverWidget "2"
           (MkItem "2" "Beta" None) []).
  - split; reflexivity.
  - apply not_elem_of_nil.
  - reflexivity.
Defined.

(** ** useKeyboardNavigation: the cursor *)

(** X16. While the view is open and not empty, the arrow keys, Home and
    End leave the cursor on a row of the view (from a cursor that is at most
    one step off it), and the view itself as it is. *)
Theorem navigation_keeps_cursor_in_view (w : Widget.widget) (key : string) :
  Widget.open w = true ->
  key ∈ ["ArrowDown"; "ArrowUp"; "Home"; "End"] ->
  Widget.orderedItems w <> [] ->
  -1 <= Widget.activeIndex w <= Z.of_nat (length (Widget.orderedItems w)) ->
  let w' := fst (Widget.onKeyDown key w) in
  0 <= Widget.activeIndex w' < Z.of_nat (length (Widget.orderedItems w))
  /\ Widget.orderedItems w' = Widget.orderedItems w
  /\ is_Some (JS.at_ (Widget.orderedItems w') (Widget.activeIndex w'))
  /\ snd (Widget.onKeyDown key w) = true.
Proof.
  intros Hopen Hkey Hne Hidx w'.
  assert (Hlen : 0 < Z.of_nat (length (Widget.orderedItems w))).
  { destruct (Widget.orderedItems w); [done | simpl; lia]. }
  assert (Hat : forall l : list Item, forall i,
            0 <= i < Z.of_nat (length l) -> is_Some (JS.at_ l i)).
  { intros l i Hi. unfold JS.at_.
    destruct (Z.ltb_spec i 0); [lia|]. apply lookup_lt_is_Some. lia. }
  unfold w', Widget.onKeyDown. rewrite Hopen. simpl.
  repeat (apply elem_of_cons in Hkey as [->|Hkey]);
    [..|by apply elem_of_nil in Hkey]; simpl.
  all: split; [lia|]; split; [reflexivity|]; split; [|reflexivity].
  all: apply (Hat (Widget.orderedItems w)); lia.
Qed.

Lemma navigation_keeps_cursor_in_view_witness :
  Widget.activeIndex
    (fst (Widget.onKeyDown "ArrowDown"
            (Widget.set_activeIndex 3 localWidget))) = 3.
Proof.
  destruct (navigation_keeps_cursor_in_view
              (Widget.set_activeIndex 3 localWidget) "ArrowDown")
    as (_ & _ & _ & _).
  - reflexivity.
  - left.
  - discriminate.
  - vm_compute. split; discriminate.
  - reflexivity.
Defined.

(** X17. No key changes the selection, the search text, the cache or the
    MRU order while the view is closed; while it is open only Enter, the
    space key and Backspace can, and Enter and the space key do not when no
    item stands at the cursor, as on an empty view. *)
Theorem onKeyDown_keeps_selection (w : Widget.widget) (key : string) :
  Widget.open w = false
  \/ key ∉ ["Enter"; " "; "Backspace"]
  \/ (key <> "Backspace"
      /\ JS.at_ (Widget.orderedItems w) (Widget.activeIndex w) = None) ->
  let w' := fst (Widget.onKeyDown key w) in
  Widget.selectedIds w' = Widget.selectedIds w
  /\ Widget.query w' = Widget.query w
  /\ Widget.selectedItemsCache w' = Widget.selectedItemsCache w
  /\ Widget.mruOrder w' = Widget.mruOrder w.
Proof.
  intros Hcase w'. unfold w', Widget.onKeyDown.
  destruct (Widget.open w) eqn:Hopen; simpl.
  2:{ by destruct (_ || _). }
  destruct Hcase as [?|[Hkey|[Hkey Hnone]]]; [done| |].
  - repeat (case_bool_decide; [done|]).
    case_bool_decide as Ha; [subst; exfalso; apply Hkey; set_solver|].
    case_bool_decide as Hb; [subst; exfalso; apply Hkey; set_solver|].
    case_bool_decide; [done|].
    case_bool_decide as Hc; [subst; exfalso; apply Hkey; set_solver|].
    done.
  - unfold Widget.commitActive. rewrite Hnone.
    repeat (case_bool_decide; [done|]).
    case_bool_decide; [by destruct (JS.isEmpty _)|].
    case_bool_decide; [done|].
    case_bool_decide; [done|]. done.
Qed.

Lemma onKeyDown_keeps_selection_witness :
  Widget.selectedIds
    (fst (Widget.onKeyDown "Enter"
            (Widget.set_query "zzz" localWidget))) = [].
Proof.
  destruct (onKeyDown_keeps_selection
              (Widget.set_query "zzz" localWidget) "Enter") as [H _].
  - right. right. split; [discriminate | reflexivity].
  - exact H.
Defined.

(** ** useTokenNavigation *)

Lemma indexOf_first (l1 l2 : list string) (x : string) :
  x ∉ l1 -> TokenNavigation.indexOf (l1 ++ x :: l2) x = Z.of_nat (length l1).
Proof.
  induction l1 as [|y l1 IH]; simpl.
  { intros _. by rewrite bool_decide_eq_true_2. }
  intros [Hne Hnin]%not_elem_of_cons.
  rewrite bool_decide_eq_false_2 by congruence. rewrite IH by done.
  destruct (Z.ltb_spec (Z.of_nat (length l1)) 0); lia.
Qed.

Lemma at_app_r {A} (l1 l2 : list A) (k : nat) :
  JS.at_ (l1 ++ l2) (Z.of_nat (length l1 + k)) = l2 !! k.
Proof.
  unfold JS.at_. destruct (Z.ltb_spec (Z.of_nat (length l1 + k)) 0); [lia|].
  rewrite Nat2Z.id. by rewrite lookup_app_r, Nat.add_sub' by lia.
Qed.

Lemma last_lookup_pred {A} (l : list A) :
  l <> [] -> l !! (length l - 1)%nat = last l.
Proof. intros _. rewrite last_lookup. f_equal. lia. Qed.

(** The id the handler computes before the removal: the one after the
    token's, else the one before it. *)
Lemma afterRemoval_neighbour (before after : list string) (x : string) :
  x ∉ before ->
  TokenNavigation.afterRemoval (before ++ x :: after)
    (TokenNavigation.indexOf (before ++ x :: after) x)
  = match after with
    | t :: _ => Some t
    | [] => last before
    end.
Proof.
  intros Hx. rewrite indexOf_first by done.
  unfold TokenNavigation.afterRemoval, TokenNavigation.nextId,
    TokenNavigation.prevId.
  rewrite length_app.
  destruct after as [|t after]; cbn [length].
  - destruct (Z.ltb_spec (Z.of_nat (length before))
                (Z.of_nat (length before + 1) - 1)); [lia|].
    destruct (Z.ltb_spec 0 (Z.of_nat (length before))) as [Hpos|Hzero].
    + unfold JS.at_.
      destruct (Z.ltb_spec (Z.of_nat (length before) - 1) 0); [lia|].
      replace (Z.to_nat (Z.of_nat (length before) - 1))
        with (length before - 1)%nat by lia.
      rewrite lookup_app_l by lia. apply last_lookup_pred.
      intros ->. simpl in Hpos. lia.
    + destruct before; [done | simpl in Hzero; lia].
  - destruct (Z.ltb_spec (Z.of_nat (length before))
                (Z.of_nat (length before + S (S (length after))) - 1));
      [|lia].
    replace (Z.of_nat (length before) + 1)
      with (Z.of_nat (length before + 1)) by lia.
    by rewrite at_app_r.
Qed.

(** X18. Backspace or Delete on the token of a selected id removes that id
    alone and asks for the focus by the id that stood after it in the
    selection, else by the id that stood before it.  The focus goes to the
    token button of that id's item when the id is not empty and the lookup
    finds the item with a label that is not empty; in every other case, and
    when no id is left, it goes to the input.  The selection has no
    repetition. *)
Theorem token_removal_moves_focus (w : Widget.widget) (x key : string)
    (before after : list string) :
  Widget.selectedIds w = before ++ x :: after ->
  NoDup (Widget.selectedIds w) ->
  key = "Backspace" \/ key = "Delete" ->
  let target := match after with
                | t :: _ => Some t
                | [] => last before
                end in
  let lookup t :=
    Widget.getSelectedItem t (bool_decide (is_Some (Widget.items w)))
      (Widget.items w) (Widget.selectedItemsCache w) (Widget.asyncItems w) in
  exists f,
    TokenNavigation.handleTokenKeyDown x key w
    = (Widget.commitSelection x w, Some f, true)
    /\ Widget.selectedIds (Widget.commitSelection x w) = before ++ after
    /\ (target = None <-> before ++ after = [])
    /\ (forall t, target = Some t -> t ∈ before ++ after /\ t <> x)
    /\ (forall lbl,
          f = TokenNavigation.FocusToken lbl
          <-> exists t it,
                target = Some t /\ t <> "" /\ lookup t = Some it
                /\ label it = lbl /\ lbl <> "")
    /\ (f = TokenNavigation.FocusInput
        <-> target = None
            \/ exists t,
                 target = Some t
                 /\ (t = "" \/ lookup t = None
                     \/ exists it, lookup t = Some it /\ label it = "")).
Proof.
  intros Hids Hnd Hkey target lookup.
  assert (Hx : (x ∉ before) /\ (x ∉ after)).
  { rewrite Hids in Hnd. apply NoDup_app in Hnd as (_ & H1 & H2).
    apply NoDup_cons in H2 as [H2 _]. split; [|done].
    intros Hc. apply (H1 x Hc). left. }
  destruct Hx as [Hx1 Hx2].
  exists (TokenNavigation.focusTokenById lookup target).
  split_and!.
  - unfold TokenNavigation.handleTokenKeyDown. fold lookup.
    rewrite Hids, afterRemoval_neighbour by done. fold target.
    destruct Hkey as [-> | ->]; reflexivity.
  - rewrite commitSelection_selectedIds, Hids.
    rewrite bool_decide_eq_true_2
      by (apply elem_of_app; right; left).
    rewrite filter_app, filter_cons, decide_False by tauto.
    by rewrite !filter_absent.
  - unfold target. destruct after as [|t after].
    + rewrite app_nil_r, last_None. done.
    + split; [done|]. by destruct before.
  - intros t Ht. unfold target in Ht. destruct after as [|t' after].
    + apply last_Some in Ht as [l' ->]. rewrite app_nil_r. split.
      * apply elem_of_app. right. left.
      * intros ->. apply Hx1, elem_of_app. right. left.
    + injection Ht as ->. split.
      * apply elem_of_app. right. left.
      * intros ->. apply Hx2. left.
  - intros lbl. unfold TokenNavigation.focusTokenById.
    destruct target as [t|]; [|split; [done | by intros (? & ? & ? & _)]].
    destruct (JS.isEmpty t) eqn:Ht.
    { apply isEmpty_true in Ht. split; [done|].
      intros (t' & it & [= <-] & Hne & _). done. }
    assert (t <> "") by (intros ->; done).
    destruct (lookup t) as [it|] eqn:Hit.
    2:{ split; [done|]. intros (t' & it & [= <-] & _ & Hl & _).
        congruence. }
    destruct (JS.isEmpty (label it)) eqn:Hl.
    + apply isEmpty_true in Hl. split; [done|].
      intros (t' & it' & [= <-] & _ & Hit' & <- & Hne). congruence.
    + assert (label it <> "") by (intros E; by rewrite E in Hl).
      split.
      * intros [= <-]. by exists t, it.
      * intros (t' & it' & [= <-] & _ & Hit' & <- & _). congruence.
  - unfold TokenNavigation.focusTokenById.
    destruct target as [t|]; [|split; [by left | done]].
    destruct (JS.isEmpty t) eqn:Ht.
    { apply isEmpty_true in Ht. split; [|done].
      intros _. right. exists t. split; [done | by left]. }
    assert (t <> "") by (intros ->; done).
    destruct (lookup t) as [it|] eqn:Hit.
    2:{ split; [|done]. intros _. right. exists t.
        split; [done | right; by left]. }
    destruct (JS.isEmpty (label it)) eqn:Hl.
    + apply isEmpty_true in Hl. split; [|done]. intros _. right.
      exists t. split; [done|]. right. right. by exists it.
    + assert (label it <> "") by (intros E; by rewrite E in Hl).
      split; [done|].
      intros [?|(t' & [= <-] & [?|[?|(it' & ? & ?)]])]; congruence.
Qed.

Lemma token_removal_moves_focus_witness :
  exists f,
    TokenNavigation.handleTokenKeyDown "2" "Delete"
      (Widget.set_selectedIds ["1"; "2"; "3"] localWidget)
    = (Widget.commitSelection "2"
         (Widget.set_selectedIds ["1"; "2"; "3"] localWidget),
       Some f, true)
    /\ Widget.selectedIds
         (Widget.commitSelection "2"
            (Widget.set_selectedIds ["1"; "2"; "3"] localWidget))
       = ["1"; "3"]
    /\ f = TokenNavigation.FocusToken "Gamma".
Proof.
  destruct (token_removal_moves_focus
              (Widget.set_selectedIds ["1"; "2"; "3"] localWidget)
              "2" "Delete" ["1"] ["3"])
    as (f & Heq & Hsel & _ & _ & Hfocus & _).
  - reflexivity.
  - apply (bool_decide_unpack _). vm_compute. reflexivity.
  - by right.
  - exists f. split_and!; [exact Heq | exact Hsel |].
    apply Hfocus. exists "3", (MkItem "3" "Gamma" (Some "A")).
    split_and!; [reflexivity | discriminate | reflexivity | reflexivity
                | discriminate].
Defined.

(** ** VirtualList and useScrollIntoView *)

Lemma slice_lookup {A} (l : list A) (a b i : Z) :
  0 <= a <= i -> i < b -> i < Z.of_nat (length l) ->
  JS.slice l a b !! Z.to_nat (i - a) = l !! Z.to_nat i.
Proof.
  intros Ha Hb Hl. unfold JS.slice, JS.relIndex. cbv zeta.
  destruct (Z.ltb_spec a 0) as [?|_]; [lia|].
  destruct (Z.ltb_spec b 0) as [?|_]; [lia|].
  rewrite lookup_take, decide_True by lia.
  rewrite lookup_drop. f_equal. lia.
Qed.

Lemma renderedRows_covers {T} (items : list T) (rowHeight height : Q)
    (overscan : Z) (scrollTop : Q) (i : Z) :
  VirtualList.startIndex rowHeight overscan scrollTop <= i ->
  i <= VirtualList.endIndex items rowHeight height overscan scrollTop ->
  exists it,
    items !! Z.to_nat i = Some it
    /\ (i, it) ∈ VirtualList.renderedRows items rowHeight height overscan
                   scrollTop.
Proof.
  intros Hs He.
  set (start := VirtualList.startIndex rowHeight overscan scrollTop) in *.
  set (stop := VirtualList.endIndex items rowHeight height overscan
                 scrollTop) in *.
  assert (H0 : 0 <= start) by (unfold start, VirtualList.startIndex; lia).
  assert (Ht : stop <= VirtualList.total items - 1)
    by (unfold stop, VirtualList.endIndex; lia).
  unfold VirtualList.total in Ht.
  destruct (lookup_lt_is_Some_2 items (Z.to_nat i)) as [it Hit]; [lia|].
  exists it. split; [done|].
  apply list_elem_of_lookup. exists (Z.to_nat (i - start)).
  unfold VirtualList.renderedRows. rewrite list_lookup_imap.
  unfold VirtualList.visibleItems. fold start stop.
  rewrite slice_lookup by lia. rewrite Hit. simpl. do 2 f_equal. lia.
Qed.

Lemma window_of_band (rowHeight scrollTop height : Q) (i : Z) :
  (0 < rowHeight)%Q ->
  (scrollTop < inject_Z (i + 1) * rowHeight)%Q ->
  (inject_Z i * rowHeight <= scrollTop + height)%Q ->
  Qfloor (scrollTop / rowHeight) <= i
  /\ i <= Qceiling ((scrollTop + height) / rowHeight).
Proof.
  intros Hrh Htop Hbot. split.
  - assert (H1 : (scrollTop / rowHeight < inject_Z (i + 1))%Q)
      by (by apply Qlt_shift_div_r).
    pose proof (Qfloor_le (scrollTop / rowHeight)) as H2.
    assert (H3 : (inject_Z (Qfloor (scrollTop / rowHeight))
                  < inject_Z (i + 1))%Q) by (eapply Qle_lt_trans; eauto).
    rewrite <- Zlt_Qlt in H3. lia.
  - assert (H1 : (inject_Z i <= (scrollTop + height) / rowHeight)%Q)
      by (by apply Qle_shift_div_l).
    pose proof (Qle_ceiling ((scrollTop + height) / rowHeight)) as H2.
    assert (H3 : (inject_Z i
                  <= inject_Z (Qceiling ((scrollTop + height) / rowHeight)))%Q)
      by (eapply Qle_trans; eauto).
    by rewrite <- Zle_Qle in H3.
Qed.

(** *** The rounding of JS numbers *)

Section DoubleFacts.
Import Double.
Local Open Scope Q_scope.

Lemma pow2_pos (k : Z) : 0 < 2 ^ k.
Proof. by apply Qpower_0_lt. Qed.

Lemma pow2_add (a b : Z) : 2 ^ (a + b) == 2 ^ a * 2 ^ b.
Proof. by apply Qpower_plus. Qed.

Lemma pow2_le (a b : Z) : (a <= b)%Z -> 2 ^ a <= 2 ^ b.
Proof. intros H. by apply Qpower_le_compat_l. Qed.

Lemma pow2_lt (a b : Z) : (a < b)%Z -> 2 ^ a < 2 ^ b.
Proof. intros H. by apply Qpower_lt_compat_l. Qed.

Lemma pow2_lt_inv (a b : Z) : 2 ^ a < 2 ^ b -> (a < b)%Z.
Proof. intros H. by apply (Qpower_lt_compat_l_inv 2). Qed.

Lemma pow2_Z (k : Z) : (0 <= k)%Z -> 2 ^ k == inject_Z (2 ^ k).
Proof. intros H. by rewrite Zpower_Qpower. Qed.

Lemma pow2_succ (k : Z) : 2 ^ (k + 1) == 2 * 2 ^ k.
Proof. rewrite pow2_add. change (2 ^ 1) with 2. ring. Qed.

Lemma Z_log2_Q (a : Z) :
  (0 < a)%Z -> 2 ^ Z.log2 a <= inject_Z a /\ inject_Z a < 2 ^ (Z.log2 a + 1).
Proof.
  intros Ha. destruct (Z.log2_spec a Ha) as [H1 H2].
  pose proof (Z.log2_nonneg a).
  rewrite !pow2_Z by lia. rewrite <- Zle_Qle, <- Zlt_Qlt.
  split; [done|]. by rewrite <- Z.add_1_r in H2.
Qed.

Lemma ilog2_spec (x : Q) :
  0 < x -> 2 ^ ilog2 x <= x /\ x < 2 ^ (ilog2 x + 1).
Proof.
  intros Hx. unfold ilog2.
  set (a := Qnum x). set (b := Z.pos (Qden x)).
  assert (Ha : (0 < a)%Z).
  { unfold Qlt in Hx. simpl in Hx. unfold a. lia. }
  assert (Hb : (0 < b)%Z) by done.
  destruct (Z_log2_Q a Ha) as [Ha1 Ha2].
  destruct (Z_log2_Q b Hb) as [Hb1 Hb2].
  set (la := Z.log2 a) in *. set (lb := Z.log2 b) in *.
  assert (Hxab : x == inject_Z a / inject_Z b).
  { destruct x as [n d]. unfold a, b. simpl. apply Qmake_Qdiv. }
  assert (HB : 0 < inject_Z b) by (by rewrite <- (Zlt_Qlt 0)).
  pose proof (pow2_pos lb) as Hplb.
  pose proof (pow2_pos (la - lb)) as Hpd.
  assert (Hup : x < 2 ^ (la - lb + 1)).
  { rewrite Hxab. apply Qlt_shift_div_r; [done|].
    assert (E : 2 ^ (la - lb + 1) * 2 ^ lb == 2 ^ (la + 1)).
    { rewrite <- pow2_add. by replace (la - lb + 1 + lb)%Z with (la + 1)%Z
        by lia. }
    eapply Qlt_le_trans; [exact Ha2|]. rewrite <- E.
    apply Qmult_le_l; [apply pow2_pos | done]. }
  assert (Hlow : 2 ^ (la - lb - 1) <= x).
  { rewrite Hxab. apply Qle_shift_div_l; [done|].
    assert (E : 2 ^ (la - lb - 1) * 2 ^ (lb + 1) == 2 ^ la).
    { rewrite <- pow2_add. by replace (la - lb - 1 + (lb + 1))%Z with la
        by lia. }
    eapply Qle_trans; [|exact Ha1]. rewrite <- E.
    apply Qmult_le_l; [apply pow2_pos | by apply Qlt_le_weak]. }
  destruct (Qle_bool (2 ^ (la - lb)) x) eqn:Ht.
  - apply Qle_bool_iff in Ht. done.
  - split; [done|].
    replace (la - lb - 1 + 1)%Z with (la - lb)%Z by lia.
    apply Qnot_le_lt. intros Hc. apply Qle_bool_iff in Hc. congruence.
Qed.

Lemma ilog2_mono (x y : Q) : 0 < x -> x <= y -> (ilog2 x <= ilog2 y)%Z.
Proof.
  intros Hx Hxy.
  destruct (ilog2_spec x Hx) as [H1 _].
  destruct (ilog2_spec y) as [_ H2]; [by eapply Qlt_le_trans|].
  assert (H : 2 ^ ilog2 x < 2 ^ (ilog2 y + 1)).
  { eapply Qle_lt_trans; [exact H1|]. by eapply Qle_lt_trans. }
  apply pow2_lt_inv in H. lia.
Qed.

Lemma ilog2_lt (x : Q) (k : Z) : 0 < x -> x < 2 ^ k -> (ilog2 x < k)%Z.
Proof.
  intros Hx Hk. destruct (ilog2_spec x Hx) as [H1 _].
  apply pow2_lt_inv. by eapply Qle_lt_trans.
Qed.

Lemma ilog2_ge (x : Q) (k : Z) : 2 ^ k <= x -> (k <= ilog2 x)%Z.
Proof.
  intros Hk.
  assert (Hx : 0 < x) by (eapply Qlt_le_trans; [apply (pow2_pos k) | done]).
  destruct (ilog2_spec x Hx) as [_ H2].
  assert (H : 2 ^ k < 2 ^ (ilog2 x + 1)) by (by eapply Qle_lt_trans).
  apply pow2_lt_inv in H. lia.
Qed.


Lemma nearestEven_range (y : Q) :
  (Qfloor y <= nearestEven y <= Qfloor y + 1)%Z.
Proof.
  unfold nearestEven.
  destruct (y - inject_Z (Qfloor y) ?= 1 # 2); [destruct (Z.even _)|..]; lia.
Qed.

Lemma nearestEven_error (y : Q) :
  y - (1 # 2) <= inject_Z (nearestEven y)
  /\ inject_Z (nearestEven y) <= y + (1 # 2).
Proof.
  pose proof (Qfloor_le y) as Hf. pose proof (Qlt_floor y) as Hc.
  rewrite inject_Z_plus in Hc. change (inject_Z 1) with 1 in Hc.
  unfold nearestEven.
  destruct (Qcompare_spec (y - inject_Z (Qfloor y)) (1 # 2)) as [He|Hl|Hg].
  - destruct (Z.even _); rewrite ?inject_Z_plus; change (inject_Z 1) with 1;
      lra.
  - lra.
  - rewrite inject_Z_plus. change (inject_Z 1) with 1. lra.
Qed.

Lemma nearestEven_Z (n : Z) : nearestEven (inject_Z n) = n.
Proof.
  unfold nearestEven. rewrite Qfloor_Z.
  destruct (Qcompare_spec (inject_Z n - inject_Z n) (1 # 2)) as [He|Hl|Hg];
    [lra | done | lra].
Qed.

Lemma nearestEven_mono (y1 y2 : Q) :
  y1 <= y2 -> (nearestEven y1 <= nearestEven y2)%Z.
Proof.
  intros Hle.
  pose proof (Qfloor_resp_le _ _ Hle) as Hf.
  pose proof (nearestEven_range y1). pose proof (nearestEven_range y2).
  destruct (Z.eq_dec (Qfloor y1) (Qfloor y2)) as [E|NE]; [|lia].
  unfold nearestEven in *. rewrite <- E in *.
  set (f := Qfloor y1) in *.
  destruct (Qcompare_spec (y1 - inject_Z f) (1 # 2)) as [He|Hl|Hg];
    destruct (Qcompare_spec (y2 - inject_Z f) (1 # 2)) as [He'|Hl'|Hg'];
    try destruct (Z.even f); try lia; lra.
Qed.

Lemma nearestEven_ge (y : Q) (n : Z) :
  inject_Z n <= y -> (n <= nearestEven y)%Z.
Proof.
  intros H. rewrite <- (nearestEven_Z n). by apply nearestEven_mono.
Qed.

Lemma nearestEven_le (y : Q) (n : Z) :
  y <= inject_Z n -> (nearestEven y <= n)%Z.
Proof.
  intros H. rewrite <- (nearestEven_Z n). by apply nearestEven_mono.
Qed.


Lemma scaled (x : Q) (q : Z) : x / 2 ^ q * 2 ^ q == x.
Proof. field. apply Qpower_not_0. done. Qed.

Lemma roundPos_ge (x : Q) (m : Z) :
  inject_Z m * 2 ^ ulpExp x <= x -> inject_Z m * 2 ^ ulpExp x <= roundPos x.
Proof.
  intros H. unfold roundPos. pose proof (pow2_pos (ulpExp x)) as HP.
  apply Qmult_le_compat_r; [|by apply Qlt_le_weak].
  rewrite <- Zle_Qle. apply nearestEven_ge. by apply Qle_shift_div_l.
Qed.

Lemma roundPos_le (x : Q) (m : Z) :
  x <= inject_Z m * 2 ^ ulpExp x -> roundPos x <= inject_Z m * 2 ^ ulpExp x.
Proof.
  intros H. unfold roundPos. pose proof (pow2_pos (ulpExp x)) as HP.
  apply Qmult_le_compat_r; [|by apply Qlt_le_weak].
  rewrite <- Zle_Qle. apply nearestEven_le. by apply Qle_shift_div_r.
Qed.

Lemma roundPos_error (x : Q) :
  x - 2 ^ ulpExp x * (1 # 2) <= roundPos x
  /\ roundPos x <= x + 2 ^ ulpExp x * (1 # 2).
Proof.
  unfold roundPos. pose proof (pow2_pos (ulpExp x)) as HP.
  pose proof (scaled x (ulpExp x)) as Hs.
  destruct (nearestEven_error (x / 2 ^ ulpExp x)) as [H1 H2].
  set (P := 2 ^ ulpExp x) in *. set (y := x / P) in *.
  set (n := inject_Z (nearestEven y)) in *.
  split.
  - assert (H : (y - (1 # 2)) * P <= n * P)
      by (apply Qmult_le_compat_r; [done | by apply Qlt_le_weak]).
    lra.
  - assert (H : n * P <= (y + (1 # 2)) * P)
      by (apply Qmult_le_compat_r; [done | by apply Qlt_le_weak]).
    lra.
Qed.

Lemma roundPos_nonneg (x : Q) : 0 <= x -> 0 <= roundPos x.
Proof.
  intros Hx. pose proof (roundPos_ge x 0) as H.
  rewrite Qmult_0_l in H. by apply H.
Qed.

Lemma ulpExp_mono (x y : Q) : 0 < x -> x <= y -> (ulpExp x <= ulpExp y)%Z.
Proof.
  intros Hx Hxy. unfold ulpExp. pose proof (ilog2_mono x y Hx Hxy). lia.
Qed.

Lemma roundPos_mono (x y : Q) : 0 < x -> x <= y -> roundPos x <= roundPos y.
Proof.
  intros Hx Hxy.
  assert (Hy : 0 < y) by (by eapply Qlt_le_trans).
  pose proof (ulpExp_mono x y Hx Hxy) as Hq.
  destruct (Z.eq_dec (ulpExp x) (ulpExp y)) as [E|NE].
  - unfold roundPos. rewrite <- E.
    pose proof (pow2_pos (ulpExp x)) as HP.
    apply Qmult_le_compat_r; [|by apply Qlt_le_weak].
    rewrite <- Zle_Qle. apply nearestEven_mono.
    apply Qmult_le_compat_r; [done|].
    apply Qlt_le_weak, Qinv_lt_0_compat, HP.
  - assert (Hlt : (ulpExp x < ulpExp y)%Z) by lia.
    destruct (ilog2_spec x Hx) as [_ Hx2].
    destruct (ilog2_spec y Hy) as [Hy1 _].
    unfold ulpExp in Hlt.
    assert (Hqy : ulpExp y = (ilog2 y - 52)%Z) by (unfold ulpExp; lia).
    assert (Hxe : (ilog2 x + 1 <= ilog2 y)%Z) by lia.
    assert (Hqx : (0 <= ilog2 y - ulpExp x)%Z) by (unfold ulpExp; lia).
    apply Qle_trans with (2 ^ ilog2 y).
    + assert (E : 2 ^ ilog2 y
                  == inject_Z (2 ^ (ilog2 y - ulpExp x)) * 2 ^ ulpExp x).
      { rewrite <- pow2_Z by done. rewrite <- pow2_add.
        by replace (ilog2 y - ulpExp x + ulpExp x)%Z with (ilog2 y) by lia. }
      rewrite E. apply roundPos_le. rewrite <- E.
      apply Qlt_le_weak. eapply Qlt_le_trans; [exact Hx2|].
      by apply pow2_le.
    + assert (E : 2 ^ ilog2 y == inject_Z (2 ^ 52) * 2 ^ ulpExp y).
      { rewrite <- pow2_Z by done. rewrite <- pow2_add.
        by replace (52 + ulpExp y)%Z with (ilog2 y) by lia. }
      rewrite E. apply roundPos_ge. by rewrite <- E.
Qed.


Lemma round_pos (x : Q) : 0 < x -> round x = roundPos x.
Proof.
  intros Hx. unfold round. unfold Qlt in Hx. simpl in Hx.
  destruct (Qnum x); [lia | done | lia].
Qed.

Lemma round_zero (x : Q) : x == 0 -> round x = 0.
Proof.
  intros Hx. unfold round. unfold Qeq in Hx. simpl in Hx.
  destruct (Qnum x); [done | lia | lia].
Qed.

Lemma round_nonneg (x : Q) : 0 <= x -> 0 <= round x.
Proof.
  intros Hx. destruct (Qlt_le_dec 0 x) as [Hpos|Hle].
  - rewrite round_pos by done. by apply roundPos_nonneg.
  - rewrite round_zero; [done | by apply Qle_antisym].
Qed.

(** Rounding keeps the order. *)
Lemma round_mono (x y : Q) : 0 <= x -> x <= y -> round x <= round y.
Proof.
  intros Hx Hxy. destruct (Qlt_le_dec 0 x) as [Hpos|Hle].
  - rewrite !round_pos; [by apply roundPos_mono | by eapply Qlt_le_trans
                        | done].
  - rewrite (round_zero x) by (by apply Qle_antisym).
    apply round_nonneg. by eapply Qle_trans.
Qed.

(** The integers below [2^53] are numbers. *)
Lemma round_Z (n : Z) :
  (0 <= n < 2 ^ 53)%Z -> round (inject_Z n) == inject_Z n.
Proof.
  intros [H0 Hn]. destruct (Z.eq_dec n 0%Z) as [->|Hne]; [done|].
  assert (Hpos : 0 < inject_Z n) by (rewrite <- (Zlt_Qlt 0); lia).
  rewrite round_pos by done.
  assert (Hlo : (0 <= ilog2 (inject_Z n))%Z).
  { apply ilog2_ge. change (2 ^ 0) with (inject_Z 1). rewrite <- Zle_Qle.
    lia. }
  assert (Hhi : (ilog2 (inject_Z n) < 53)%Z).
  { apply ilog2_lt; [done|]. rewrite pow2_Z by done.
    by rewrite <- Zlt_Qlt. }
  assert (Hq : ulpExp (inject_Z n) = (ilog2 (inject_Z n) - 52)%Z)
    by (unfold ulpExp; lia).
  assert (E : inject_Z n
              == inject_Z (n * 2 ^ (- ulpExp (inject_Z n)))
                 * 2 ^ ulpExp (inject_Z n)).
  { rewrite inject_Z_mult, <- pow2_Z by lia. rewrite <- Qmult_assoc.
    rewrite <- pow2_add.
    replace (- ulpExp (inject_Z n) + ulpExp (inject_Z n))%Z with 0%Z by lia.
    change (2 ^ 0) with 1. ring. }
  set (m := (n * 2 ^ (- ulpExp (inject_Z n)))%Z) in *.
  assert (E1 : inject_Z n <= inject_Z m * 2 ^ ulpExp (inject_Z n))
    by (rewrite <- E; apply Qle_refl).
  assert (E2 : inject_Z m * 2 ^ ulpExp (inject_Z n) <= inject_Z n)
    by (rewrite <- E; apply Qle_refl).
  apply Qle_antisym.
  - eapply Qle_trans; [by apply roundPos_le | done].
  - eapply Qle_trans; [exact E1 | by apply roundPos_ge].
Qed.

(** Rounding loses at most a part in [2^53] of a number, or [2^-1075]. *)
Lemma round_lower (x : Q) :
  0 < x -> x - x * 2 ^ (-53) - 2 ^ (-1075) <= round x.
Proof.
  intros Hx. rewrite round_pos by done.
  destruct (roundPos_error x) as [H1 _].
  destruct (ilog2_spec x Hx) as [He _].
  assert (Hu : 2 ^ ulpExp x * (1 # 2) <= x * 2 ^ (-53) + 2 ^ (-1075)).
  { pose proof (pow2_pos (-53)) as Hp.
    pose proof (pow2_pos (-1075)) as Hp'.
    assert (Hxp : 0 <= x * 2 ^ (-53))
      by (apply Qmult_le_0_compat; by apply Qlt_le_weak).
    unfold ulpExp.
    destruct (Z.max_spec (ilog2 x - 52) (-1074)) as [[_ ->]|[_ ->]].
    - assert (E : 2 ^ (-1074) * (1 # 2) == 2 ^ (-1075)) by reflexivity.
      rewrite E. lra.
    - assert (E : 2 ^ (ilog2 x - 52) * (1 # 2) == 2 ^ ilog2 x * 2 ^ (-53)).
      { replace (ilog2 x - 52)%Z with (ilog2 x + -53 + 1)%Z by lia.
        rewrite pow2_succ, pow2_add. ring. }
      rewrite E.
      assert (2 ^ ilog2 x * 2 ^ (-53) <= x * 2 ^ (-53))
        by (apply Qmult_le_compat_r; [done | by apply Qlt_le_weak]).
      lra. }
  lra.
Qed.

(** A positive number is at least [2^-1074]. *)
Lemma isDouble_min (x : Q) : 0 < x -> isDouble x -> 2 ^ (-1074) <= x.
Proof.
  intros Hx Hd. unfold isDouble in Hd. rewrite round_pos in Hd by done.
  unfold roundPos in Hd.
  set (n := nearestEven (x / 2 ^ ulpExp x)) in *.
  pose proof (pow2_pos (ulpExp x)) as HP.
  assert (Hn : (1 <= n)%Z).
  { destruct (Z_lt_le_dec n 1) as [Hlt|]; [|done]. exfalso.
    assert (Hn0 : inject_Z n <= inject_Z 0) by (rewrite <- Zle_Qle; lia).
    change (inject_Z 0) with 0 in Hn0.
    assert (inject_Z n * 2 ^ ulpExp x <= 0 * 2 ^ ulpExp x)
      by (apply Qmult_le_compat_r; [done | by apply Qlt_le_weak]).
    lra. }
  assert (H1 : 1 * 2 ^ ulpExp x <= inject_Z n * 2 ^ ulpExp x).
  { apply Qmult_le_compat_r; [|by apply Qlt_le_weak].
    change 1 with (inject_Z 1). by rewrite <- Zle_Qle. }
  assert (H2 : 2 ^ (-1074) <= 2 ^ ulpExp x)
    by (apply pow2_le; unfold ulpExp; lia).
  lra.
Qed.

End DoubleFacts.

Lemma renderedRows64_covers {T} (items : list T) (rowHeight height : Q)
    (overscan : Z) (scrollTop : Q) (i : Z) :
  VirtualList64.startIndex rowHeight overscan scrollTop <= i ->
  i <= VirtualList64.endIndex items rowHeight height overscan scrollTop ->
  exists it,
    items !! Z.to_nat i = Some it
    /\ (i, it) ∈ VirtualList64.renderedRows items rowHeight height overscan
                   scrollTop.
Proof.
  intros Hs He.
  set (start := VirtualList64.startIndex rowHeight overscan scrollTop) in *.
  set (stop := VirtualList64.endIndex items rowHeight height overscan
                 scrollTop) in *.
  assert (H0 : 0 <= start) by (unfold start, VirtualList64.startIndex; lia).
  assert (Ht : stop <= VirtualList.total items - 1)
    by (unfold stop, VirtualList64.endIndex; lia).
  unfold VirtualList.total in Ht.
  destruct (lookup_lt_is_Some_2 items (Z.to_nat i)) as [it Hit]; [lia|].
  exists it. split; [done|].
  apply list_elem_of_lookup. exists (Z.to_nat (i - start)).
  unfold VirtualList64.renderedRows. rewrite list_lookup_imap.
  unfold VirtualList64.visibleItems. fold start stop.
  rewrite slice_lookup by lia. rewrite Hit. simpl. do 2 f_equal. lia.
Qed.

(** The rounded quotients miss the row of a band by less than one row. *)
Lemma window64_of_band (rowHeight scrollTop height : Q) (i : Z) :
  (0 <= scrollTop)%Q -> (0 <= height)%Q ->
  (0 < rowHeight)%Q -> Double.isDouble rowHeight ->
  0 <= i < 2 ^ 32 ->
  (scrollTop < inject_Z (i + 1) * rowHeight)%Q ->
  (inject_Z i * rowHeight <= scrollTop + height)%Q ->
  Qfloor (Double.round (scrollTop / rowHeight)) <= i + 1
  /\ i - 1
     <= Qceiling (Double.round (Double.round (scrollTop + height)
                                / rowHeight)).
Proof.
  intros Hst Hh Hrh Hd Hi Htop Hbot. split.
  - assert (H1 : (scrollTop / rowHeight <= inject_Z (i + 1))%Q)
      by (apply Qlt_le_weak; by apply Qlt_shift_div_r).
    assert (H0 : (0 <= scrollTop / rowHeight)%Q)
      by (apply Qle_shift_div_l; [done | lra]).
    pose proof (round_mono _ _ H0 H1) as H2.
    rewrite round_Z in H2 by lia.
    apply Qfloor_resp_le in H2. by rewrite Qfloor_Z in H2.
  - set (z := Double.round (Double.round (scrollTop + height) / rowHeight)).
    assert (Hsum : (0 <= scrollTop + height)%Q) by lra.
    pose proof (round_nonneg _ Hsum) as HX.
    assert (Hz : (0 <= z)%Q).
    { apply round_nonneg. apply Qle_shift_div_l; [done | lra]. }
    pose proof (Qle_ceiling z) as Hc.
    destruct (Z_lt_le_dec i 2) as [Hsmall|Hbig].
    { assert (H : (inject_Z 0 <= inject_Z (Qceiling z))%Q)
        by (change (inject_Z 0) with 0%Q; lra).
      rewrite <- Zle_Qle in H. lia. }
    assert (Hi2 : (2 <= inject_Z i)%Q)
      by (change 2%Q with (inject_Z 2); by rewrite <- Zle_Qle).
    assert (Hi32 : (inject_Z i <= inject_Z (2 ^ 32))%Q)
      by (rewrite <- Zle_Qle; lia).
    pose proof (isDouble_min _ Hrh Hd) as Hmin.
    assert (Hpos : (0 < scrollTop + height)%Q).
    { assert (0 < inject_Z i * rowHeight)%Q
        by (apply Qmult_lt_0_compat; lra).
      lra. }
    pose proof (round_lower _ Hpos) as Hlow.
    set (s := (scrollTop + height)%Q) in *.
    set (X := Double.round s) in *.
    assert (He : (inject_Z (2 ^ 32) * 2 ^ (-53) <= 1 # 2)%Q) by done.
    assert (Ht : (2 * 2 ^ (-1075) == 2 ^ (-1074))%Q) by reflexivity.
    pose proof (pow2_pos (-53)) as Hp53.
    assert (HX' : (inject_Z (i - 1) * rowHeight <= X)%Q).
    { unfold Z.sub. rewrite inject_Z_plus, inject_Z_opp.
      change (inject_Z 1) with 1%Q.
      assert (Hie : (inject_Z i * 2 ^ (-53) <= 1 # 2)%Q).
      { eapply Qle_trans; [|exact He].
        apply Qmult_le_compat_r; [done | by apply Qlt_le_weak]. }
      assert (Hprod : (inject_Z i * rowHeight * 2 ^ (-53)
                       <= rowHeight * (1 # 2))%Q).
      { assert (E : (inject_Z i * rowHeight * 2 ^ (-53)
                     == inject_Z i * 2 ^ (-53) * rowHeight)%Q) by ring.
        rewrite E. rewrite (Qmult_comm rowHeight).
        apply Qmult_le_compat_r; [done | by apply Qlt_le_weak]. }
      assert (Hs53 : (inject_Z i * rowHeight * (1 - 2 ^ (-53))
                      <= s * (1 - 2 ^ (-53)))%Q).
      { apply Qmult_le_compat_r; [done|].
        assert (2 ^ (-53) <= 1)%Q by done. lra. }
      lra. }
    assert (Hquot : (inject_Z (i - 1) <= X / rowHeight)%Q)
      by (by apply Qle_shift_div_l).
    assert (H0 : (0 <= inject_Z (i - 1))%Q)
      by (change 0%Q with (inject_Z 0); rewrite <- Zle_Qle; lia).
    pose proof (round_mono _ _ H0 Hquot) as Hr.
    rewrite round_Z in Hr by lia. fold z in Hr.
    assert (H : (inject_Z (i - 1) <= inject_Z (Qceiling z))%Q) by lra.
    by rewrite <- Zle_Qle in H.
Qed.

(** X19. With an overscan of one row or more, the window leaves out no row
    that shows, in the arithmetic of JS numbers: every row of the list
    whose band of pixels [index * rowHeight .. (index + 1) * rowHeight]
    meets the viewport [scrollTop .. scrollTop + height] is rendered, with
    the item of its index.  The scroll offset and the height are not
    negative, the row height is a positive number, the list has at most
    [2^32] items as every array, and the quantities are below [2^1023],
    where the arithmetic has no overflow. *)
Theorem window_covers_viewport {T} (items : list T) (rowHeight height : Q)
    (overscan : Z) (scrollTop : Q) (i : Z) :
  (0 <= scrollTop)%Q -> (0 <= height)%Q ->
  (0 < rowHeight)%Q -> Double.isDouble rowHeight ->
  (scrollTop + height < 2 ^ 1023)%Q ->
  ((scrollTop + height) / rowHeight < 2 ^ 1023)%Q ->
  1 <= overscan ->
  VirtualList.total items <= 2 ^ 32 ->
  0 <= i < VirtualList.total items ->
  (scrollTop < inject_Z (i + 1) * rowHeight)%Q ->
  (inject_Z i * rowHeight <= scrollTop + height)%Q ->
  exists it,
    items !! Z.to_nat i = Some it
    /\ (i, it) ∈ VirtualList64.renderedRows items rowHeight height overscan
                   scrollTop.
Proof.
  intros Hst Hh Hrh Hd _ _ Hov Htotal Hi Htop Hbot.
  destruct (window64_of_band rowHeight scrollTop height i)
    as [Hf Hc]; [done | done | done | done | lia | done | done |].
  apply renderedRows64_covers.
  - unfold VirtualList64.startIndex. lia.
  - unfold VirtualList64.endIndex. lia.
Qed.

Lemma window_covers_viewport_witness :
  exists it,
    seq 0 12 !! Z.to_nat 9 = Some it
    /\ (9, it) ∈ VirtualList64.renderedRows (seq 0 12)
                   (Double.round (201 # 10)) 72 1 201.
Proof.
  apply (window_covers_viewport (seq 0 12) (Double.round (201 # 10)) 72 1
           201 9);
    [vm_compute; discriminate | vm_compute; discriminate
    | vm_compute; reflexivity | vm_compute; reflexivity
    | vm_compute; reflexivity | vm_compute; reflexivity
    | lia | vm_compute; discriminate
    | split; vm_compute; [discriminate | reflexivity]
    | vm_compute; reflexivity | vm_compute; discriminate].
Defined.

(** Without overscan the rounding can leave out a row at the edge of the
    viewport: at scroll offset 201, with rows of 20.1 pixels, row 9 still
    shows by a sliver, the exact quotient is just below 10, and the
    program's quotient is 10. *)
Example boundary_row_without_overscan :
  (201 < inject_Z 10 * Double.round (201 # 10))%Q
  /\ VirtualList.startIndex (Double.round (201 # 10)) 0 201 = 9
  /\ VirtualList64.startIndex (Double.round (201 # 10)) 0 201 = 10
  /\ VirtualList64.startIndex (Double.round (201 # 10)) 1 201 = 9.
Proof. split_and!; vm_compute; reflexivity. Qed.



Lemma row_below (rowHeight : Q) (i : Z) :
  (inject_Z (i + 1) * rowHeight == inject_Z i * rowHeight + rowHeight)%Q.
Proof. rewrite inject_Z_plus. change (inject_Z 1) with 1%Q. ring. Qed.

(** X21. In the virtualised mode the effect leaves the active row wholly in
    view: with the list open and not empty, an active index that is not
    negative and a row no higher than the container, the row of the active
    index lies between [scrollTop] and [scrollTop + clientHeight] when the
    effect ends; and the effect does not scroll when it lay there before. *)
Theorem scrollIntoView_shows_active (activeIndex itemCount : Z)
    (rowHeight : Q) (found : option ScrollIntoView.element)
    (c : ScrollIntoView.container) :
  itemCount <> 0 -> 0 <= activeIndex ->
  (rowHeight <= ScrollIntoView.clientHeight c)%Q ->
  let top := (inject_Z activeIndex * rowHeight)%Q in
  exists s',
    ScrollIntoView.scrollIntoView activeIndex true itemCount true rowHeight
      found (Some c) = Some s'
    /\ (s' <= top)%Q
    /\ (top + rowHeight <= s' + ScrollIntoView.clientHeight c)%Q
    /\ ((ScrollIntoView.scrollTop c <= top)%Q ->
        (top + rowHeight
         <= ScrollIntoView.scrollTop c + ScrollIntoView.clientHeight c)%Q ->
        s' = ScrollIntoView.scrollTop c).
Proof.
  intros Hcount Hact Hfit top.
  unfold ScrollIntoView.scrollIntoView. simpl.
  destruct (Z.eqb_spec itemCount 0) as [?|_]; [done|].
  destruct (Z.ltb_spec activeIndex 0) as [?|_]; [lia|]. simpl.
  fold top.
  destruct (Qlt_le_dec top (ScrollIntoView.scrollTop c)) as [Hlt|Hle].
  - eexists. split; [reflexivity|]. split_and!; [lra | lra |].
    intros H1 _. lra.
  - destruct (Qlt_le_dec _ _) as [Hlt'|Hle'].
    + eexists. split; [reflexivity|]. split_and!; [lra | lra |].
      intros _ H2. lra.
    + eexists. split; [reflexivity|]. split_and!; [lra | lra | done].
Qed.

Lemma scrollIntoView_shows_active_witness :
  exists s',
    ScrollIntoView.scrollIntoView 5 true 10 true 36 None
      (Some (ScrollIntoView.Container 0 72)) = Some s'
    /\ (s' <= inject_Z 5 * 36)%Q
    /\ (inject_Z 5 * 36 + 36 <= s' + 72)%Q.
Proof.
  destruct (scrollIntoView_shows_active 5 10 36 None
              (ScrollIntoView.Container 0 72))
    as (s' & H1 & H2 & H3 & _); [lia | lia | discriminate |].
  exists s'. split_and!; [exact H1 | exact H2 | exact H3].
Defined.

(** X22. The two halves of the virtualised list agree: once the effect has
    run for an active index of the list, the window that [VirtualList]
    computes from the new scroll offset renders the active row, whatever
    the offset was before.  The container is not empty and no higher than
    the [height] of the list. *)
Theorem scrolled_active_row_is_rendered {T} (items : list T)
    (rowHeight height : Q) (overscan activeIndex : Z)
    (found : option ScrollIntoView.element) (c : ScrollIntoView.container) :
  (0 < rowHeight)%Q -> 0 <= overscan ->
  (0 < ScrollIntoView.clientHeight c)%Q ->
  (ScrollIntoView.clientHeight c <= height)%Q ->
  0 <= activeIndex < VirtualList.total items ->
  exists s' it,
    ScrollIntoView.scrollIntoView activeIndex true (VirtualList.total items)
      true rowHeight found (Some c) = Some s'
    /\ items !! Z.to_nat activeIndex = Some it
    /\ (activeIndex, it)
       ∈ VirtualList.renderedRows items rowHeight height overscan s'.
Proof.
  intros Hrh Hov Hch Hheight Hact.
  pose proof (row_below rowHeight activeIndex) as Hrow.
  assert (Hgoal : forall s',
    (s' < inject_Z (activeIndex + 1) * rowHeight)%Q ->
    (inject_Z activeIndex * rowHeight <= s' + height)%Q ->
    exists it,
      items !! Z.to_nat activeIndex = Some it
      /\ (activeIndex, it)
         ∈ VirtualList.renderedRows items rowHeight height overscan s').
  { intros s' Htop Hbot.
    destruct (window_of_band _ _ _ _ Hrh Htop Hbot) as [Hf Hc].
    apply renderedRows_covers.
    - unfold VirtualList.startIndex. lia.
    - unfold VirtualList.endIndex. lia. }
  unfold ScrollIntoView.scrollIntoView. simpl.
  destruct (Z.eqb_spec (VirtualList.total items) 0) as [?|_]; [lia|].
  destruct (Z.ltb_spec activeIndex 0) as [?|_]; [lia|]. simpl.
  set (top := (inject_Z activeIndex * rowHeight)%Q) in *.
  destruct (Qlt_le_dec top (ScrollIntoView.scrollTop c)) as [Hlt|Hle].
  - destruct (Hgoal top) as (it & ? & ?); [lra | lra |]. by exists top, it.
  - destruct (Qlt_le_dec _ _) as [Hlt'|Hle'].
    + destruct (Hgoal (top + rowHeight - ScrollIntoView.clientHeight c)%Q)
        as (it & ? & ?); [lra | lra |].
      by eexists _, it.
    + destruct (Hgoal (ScrollIntoView.scrollTop c)) as (it & ? & ?);
        [lra | lra |].
      by eexists _, it.
Qed.

Lemma scrolled_active_row_is_rendered_witness :
  exists s' it,
    ScrollIntoView.scrollIntoView 3 true (VirtualList.total mockItems) true
      36 None (Some (ScrollIntoView.Container 0 72)) = Some s'
    /\ mockItems !! Z.to_nat 3 = Some it
    /\ (3, it) ∈ VirtualList.renderedRows mockItems 36 72 0 s'.
Proof.
  apply (scrolled_active_row_is_rendered mockItems 36 72 0 3 None
           (ScrollIntoView.Container 0 72));
    [reflexivity | lia | reflexivity | discriminate | by vm_compute].
Defined.

(** ** The demo backend *)

Lemma slice_take_drop {A} (l : list A) (a b : Z) :
  0 <= a <= b ->
  JS.slice l a b = take (Z.to_nat (b - a)) (drop (Z.to_nat a) l).
Proof.
  intros Hab. unfold JS.slice, JS.relIndex. cbv zeta.
  destruct (Z.ltb_spec a 0) as [?|_]; [lia|].
  destruct (Z.ltb_spec b 0) as [?|_]; [lia|].
  apply list_eq. intros i. rewrite !lookup_take, !lookup_drop.
  destruct (decide (Z.of_nat (length l) <= a + Z.of_nat i)) as [Hout|Hin].
  - rewrite !lookup_ge_None_2 by lia. by repeat case_decide.
  - rewrite (Z.min_l a) by lia.
    destruct (Z.le_ge_cases b (Z.of_nat (length l))).
    + by rewrite Z.min_l, Z.max_l by lia.
    + rewrite Z.min_r, Z.max_l by lia. by rewrite !decide_True by lia.
Qed.

Lemma fetchItems_eq (allItems : list Item) (query : string) (page : nat) :
  Backend.fetchItems allItems query page
  = take 50 (drop (50 * page)
               (if JS.isEmpty query then allItems
                else List.filter (Backend.matches query) allItems)).
Proof.
  unfold Backend.fetchItems. cbv zeta. rewrite slice_take_drop by lia.
  f_equal; [lia|]. f_equal. lia.
Qed.

Lemma includes_spec (s t : list ascii) :
  Backend.includes s t = true <-> exists pre post, s = pre ++ t ++ post.
Proof.
  split.
  - induction s as [|c s IH]; simpl.
    + rewrite orb_false_r. intros Ht%bool_decide_eq_true.
      exists [], []. rewrite take_nil in Ht. by subst.
    + intros [Ht%bool_decide_eq_true | Hs]%orb_true_iff.
      * exists [], (drop (length t) (c :: s)). simpl.
        rewrite <- Ht at 1. by rewrite take_drop.
      * destruct (IH Hs) as (pre & post & ->). by exists (c :: pre), post.
  - intros (pre & post & ->). induction pre as [|c pre IH].
    + simpl. destruct (t ++ post) eqn:E; simpl; rewrite <- ?E;
        rewrite take_app_length, bool_decide_eq_true_2; done.
    + simpl. rewrite IH. apply orb_true_r.
Qed.

(** X23. The pages of the backend tile the list of the matching items, in
    its order: the pages 0 to [n - 1] put end to end are its first
    [50 * n] items, and no page holds more than 50. *)
Theorem fetchItems_pages_tile (allItems : list Item) (query : string)
    (n : nat) :
  let filtered :=
    if JS.isEmpty query then allItems
    else List.filter (Backend.matches query) allItems in
  concat (map (Backend.fetchItems allItems query) (seq 0 n))
  = take (50 * n) filtered
  /\ forall page,
       (length (Backend.fetchItems allItems query page) <= 50)%nat.
Proof.
  intros filtered. split.
  - induction n as [|n IH]; [done|].
    rewrite seq_S, map_app, concat_app, IH. simpl.
    rewrite app_nil_r, fetchItems_eq. fold filtered.
    rewrite take_take_drop. f_equal. lia.
  - intros page. rewrite fetchItems_eq, length_take. lia.
Qed.

(** X24. A page of fewer than 50 items is the last one: every later page
    is empty. *)
Theorem fetchItems_short_page_is_last (allItems : list Item)
    (query : string) (page page' : nat) :
  (length (Backend.fetchItems allItems query page) < 50)%nat ->
  (page < page')%nat ->
  Backend.fetchItems allItems query page' = [].
Proof.
  rewrite !fetchItems_eq. rewrite length_take, length_drop.
  intros Hshort Hlt. rewrite drop_ge; [apply take_nil | lia].
Qed.

Lemma fetchItems_short_page_is_last_witness :
  Backend.fetchItems mockItems "a" 1 = [].
Proof.
  apply (fetchItems_short_page_is_last mockItems "a" 0 1);
    [vm_compute; lia | lia].
Defined.

(** X25. The backend returns items of its data set only, and for a query
    that is not empty only items whose label or group holds the query as a
    substring, whatever the case of the letters. *)
Theorem fetchItems_only_matches (allItems : list Item) (query : string)
    (page : nat) (it : Item) :
  it ∈ Backend.fetchItems allItems query page ->
  it ∈ allItems
  /\ (query <> "" ->
      let q := JS.chars (JS.toLowerCase query) in
      (exists pre post,
         JS.chars (JS.toLowerCase (label it)) = pre ++ q ++ post)
      \/ (exists g pre post,
            group it = Some g
            /\ JS.chars (JS.toLowerCase g) = pre ++ q ++ post)).
Proof.
  rewrite fetchItems_eq. intros Hin.
  apply (sublist_subseteq _ _ (sublist_take _ _)) in Hin.
  apply (sublist_subseteq _ _ (sublist_drop _ _)) in Hin.
  destruct (JS.isEmpty query) eqn:Hq.
  - split; [done|]. apply isEmpty_true in Hq. done.
  - apply list_elem_of_In, filter_In in Hin as [Hin Hm].
    apply list_elem_of_In in Hin. split; [done|]. intros _ q.
    unfold Backend.matches in Hm. fold q in Hm.
    apply orb_true_iff in Hm as [Hl|Hg].
    + left. by apply includes_spec.
    + right. destruct (group it) as [g|]; [|done].
      apply includes_spec in Hg as (pre & post & Hg). by exists g, pre, post.
Qed.

Lemma fetchItems_only_matches_witness :
  MkItem "3" "Gamma" (Some "A") ∈ mockItems
  /\ ("MM" <> "" ->
      (exists pre post, JS.chars "gamma" = pre ++ JS.chars "mm" ++ post)
      \/ (exists g pre post,
            Some "A" = Some g
            /\ JS.chars (JS.toLowerCase g) = pre ++ JS.chars "mm" ++ post)).
Proof.
  apply (fetchItems_only_matches mockItems "MM" 0
           (MkItem "3" "Gamma" (Some "A"))).
  apply list_elem_of_lookup. exists 0%nat. vm_compute. reflexivity.
Defined.

(** ** useAsyncItems: the requests and the loading flag *)

Section LoaderStates.
Import AsyncItems.
Variable pageSize : nat.

Lemma liveReportsLoading_loadMore reset s :
  liveReportsLoading s -> liveReportsLoading (loadMore reset s).
Proof.
  intros Hs. unfold loadMore. destruct (loadingRef s); [done|].
  intros c _ _. by destruct reset.
Qed.

Lemma liveReportsLoading_step s e :
  liveReportsLoading s -> liveReportsLoading (step pageSize s e).
Proof.
  intros Hs. destruct e; simpl.
  - unfold debounceEffect. simpl.
    destruct (abortControllerRef s) as [c|] eqn:Hc.
    + case_bool_decide; simpl; [done|].
      intros c' Hc'. simpl in Hc'. rewrite Hc in Hc'. apply Hs. congruence.
    + intros c' Hc'. simpl in Hc'. congruence.
  - exact Hs.
  - exact Hs.
  - destruct (timerArmed s); [|done]. by apply liveReportsLoading_loadMore.
  - by apply liveReportsLoading_loadMore.
  - destruct (_ && _); [|done]. by apply liveReportsLoading_loadMore.
  - apply liveReportsLoading_loadMore.
    intros c Hc Hab. simpl. split; [|done]. by apply (Hs c).
  - unfold settle. destruct (inflight s !! rid) as [r|]; [|done]. simpl.
    destruct (decide (rid ∈ aborted s)); [exact Hs|].
    by destruct o.
  - unfold abortCurrent.
    destruct (abortControllerRef s) as [c|] eqn:Hc; simpl.
    + intros c' Hc' Hab. simpl in *. rewrite Hc in Hc'. set_solver.
    + intros c' Hc'. simpl in Hc'. congruence.
Qed.

Lemma liveReportsLoading_run es s :
  liveReportsLoading s -> liveReportsLoading (run pageSize es s).
Proof.
  revert s. induction es as [|e es IH]; intros s Hs; [done|].
  simpl. apply IH. by apply liveReportsLoading_step.
Qed.

Lemma liveReportsLoading_mount q ids : liveReportsLoading (mount q ids).
Proof. apply liveReportsLoading_loadMore. by intros c Hc. Qed.

Lemma stalled_loadMore reset s : stalled s -> loadMore reset s = s.
Proof. intros (_ & Hl & _). unfold loadMore. by rewrite Hl. Qed.

Lemma stalled_step s e :
  stalled s ->
  stalled (step pageSize s e)
  /\ nextId (step pageSize s e) = nextId s
  /\ asyncItems (step pageSize s e) = asyncItems s
  /\ hasMore (step pageSize s e) = hasMore s
  /\ selectedItemsCache (step pageSize s e) = selectedItemsCache s.
Proof.
  intros Hst. pose proof Hst as (Hl & Hr & Hab). destruct e; simpl.
  - unfold debounceEffect. simpl.
    destruct (abortControllerRef s) as [c|]; [case_bool_decide|]; simpl;
      (split; [|done]); split_and!; simpl; try done.
    intros rid Hrid. apply elem_of_union_r. by apply Hab.
  - split; [|done]. by split_and!.
  - split; [|done]. by split_and!.
  - destruct (timerArmed s); [|done].
    rewrite stalled_loadMore by (by split_and!). split; [|done].
    by split_and!.
  - by rewrite stalled_loadMore.
  - destruct (_ && _); [|done]. by rewrite stalled_loadMore.
  - rewrite stalled_loadMore by (by split_and!). split; [|done].
    by split_and!.
  - unfold settle. destruct (inflight s !! rid) as [r|] eqn:Hrid; [|done].
    simpl. rewrite decide_True by (by apply Hab). split; [|done].
    split_and!; simpl; try done.
    intros k [_ Hk]%lookup_delete_is_Some. by apply Hab.
  - unfold abortCurrent. destruct (abortControllerRef s) as [c|]; simpl;
      (split; [|done]); split_and!; simpl; try done.
    intros rid Hrid. apply elem_of_union_r. by apply Hab.
Qed.

Lemma stalled_run es s :
  stalled s ->
  loading (run pageSize es s) = true
  /\ nextId (run pageSize es s) = nextId s
  /\ asyncItems (run pageSize es s) = asyncItems s
  /\ hasMore (run pageSize es s) = hasMore s
  /\ selectedItemsCache (run pageSize es s) = selectedItemsCache s.
Proof.
  revert s. induction es as [|e es IH]; intros s Hst.
  { by destruct Hst. }
  destruct (stalled_step s e Hst) as (Hst' & Hn & Ha & Hh & Hc).
  simpl. destruct (IH _ Hst') as (? & ? & ? & ? & ?).
  split_and!; [done | congruence..].
Qed.

Lemma stalled_after_query_change s q :
  inv s -> loading s = true -> q <> lastQueryRef s ->
  stalled (step pageSize s (QueryChanged q)).
Proof.
  intros [H1 H2 H3] Hl Hq. simpl. unfold debounceEffect. simpl.
  destruct (abortControllerRef s) as [c|] eqn:Hc.
  - rewrite bool_decide_eq_true_2 by done. simpl. split_and!; [done..|].
    simpl. intros rid Hrid.
    destruct (decide (c = rid)) as [->|Hne]; [set_solver|].
    apply elem_of_union_r, H3; [done | congruence].
  - split_and!; [done..|]. simpl. intros rid Hrid. by apply H3.
Qed.

End LoaderStates.

(** X26. At most one request is live: in every state the hook reaches, a
    pending request that is not cancelled is the request of the current
    controller, so two of them are the same request. *)
Theorem one_live_request (pageSize : nat) (q : string) (ids : list string)
    (es : list AsyncItems.event) (r1 r2 : nat) :
  let s := AsyncItems.run pageSize es (AsyncItems.mount q ids) in
  is_Some (AsyncItems.inflight s !! r1) -> r1 ∉ AsyncItems.aborted s ->
  is_Some (AsyncItems.inflight s !! r2) -> r2 ∉ AsyncItems.aborted s ->
  r1 = r2 /\ AsyncItems.abortControllerRef s = Some r1.
Proof.
  intros s H1 Ha1 H2 Ha2.
  pose proof (inv_run pageSize es _ (inv_mount q ids)) as [_ _ Hstale].
  fold s in Hstale.
  assert (Hc : forall r, is_Some (AsyncItems.inflight s !! r) ->
                         r ∉ AsyncItems.aborted s ->
                         AsyncItems.abortControllerRef s = Some r).
  { intros r Hr Ha.
    destruct (decide (AsyncItems.abortControllerRef s = Some r)); [done|].
    destruct Ha. by apply Hstale. }
  split; [|by apply Hc].
  pose proof (Hc r1 H1 Ha1). pose proof (Hc r2 H2 Ha2). congruence.
Qed.

Lemma one_live_request_witness :
  0%nat = 0%nat
  /\ AsyncItems.abortControllerRef
       (AsyncItems.run 2 [AsyncItems.EffectsFlushed] (AsyncItems.mount "" []))
     = Some 0%nat.
Proof.
  apply (one_live_request 2 "" [] [AsyncItems.EffectsFlushed] 0 0);
    [eexists; vm_compute; reflexivity | by apply (bool_decide_unpack _)
    | eexists; vm_compute; reflexivity | by apply (bool_decide_unpack _)].
Defined.

(** X27. While a request is live the hook says so: in every state the hook
    reaches, a pending request that is not cancelled goes with
    [loading = true] and no error. *)
Theorem live_request_reports_loading (pageSize : nat) (q : string)
    (ids : list string) (es : list AsyncItems.event) (rid : nat) :
  let s := AsyncItems.run pageSize es (AsyncItems.mount q ids) in
  is_Some (AsyncItems.inflight s !! rid) -> rid ∉ AsyncItems.aborted s ->
  AsyncItems.loading s = true /\ AsyncItems.error s = None.
Proof.
  intros s Hr Ha.
  pose proof (inv_run pageSize es _ (inv_mount q ids)) as [_ _ Hstale].
  pose proof (liveReportsLoading_run pageSize es _
                (liveReportsLoading_mount q ids)) as Hlive.
  fold s in Hstale, Hlive. apply (Hlive rid); [|done].
  destruct (decide (AsyncItems.abortControllerRef s = Some rid)); [done|].
  destruct Ha. by apply Hstale.
Qed.

Lemma live_request_reports_loading_witness :
  AsyncItems.loading
    (AsyncItems.run 2 [AsyncItems.RetryClicked] (AsyncItems.mount "" []))
  = true
  /\ AsyncItems.error
       (AsyncItems.run 2 [AsyncItems.RetryClicked] (AsyncItems.mount "" []))
     = None.
Proof.
  apply (live_request_reports_loading 2 "" [] [AsyncItems.RetryClicked] 1);
    [eexists; vm_compute; reflexivity | by apply (bool_decide_unpack _)].
Defined.

(** X28. A query that changes while the hook is loading cancels the current
    request without clearing [loading]; from then on every call of
    [loadMore] returns at its guard: whatever events follow (timer, scroll,
    retry, completions), the hook starts no request, keeps its items, its
    [hasMore] and its cache, and still reports [loading = true]. *)
Theorem query_change_while_loading (pageSize : nat) (q0 : string)
    (ids : list string) (es0 : list AsyncItems.event) (q : string)
    (es : list AsyncItems.event) :
  let s := AsyncItems.run pageSize es0 (AsyncItems.mount q0 ids) in
  let s' :=
    AsyncItems.run pageSize es
      (AsyncItems.step pageSize s (AsyncItems.QueryChanged q)) in
  AsyncItems.loading s = true -> q <> AsyncItems.lastQueryRef s ->
  AsyncItems.loading s' = true
  /\ AsyncItems.nextId s' = AsyncItems.nextId s
  /\ AsyncItems.asyncItems s' = AsyncItems.asyncItems s
  /\ AsyncItems.hasMore s' = AsyncItems.hasMore s
  /\ AsyncItems.selectedItemsCache s' = AsyncItems.selectedItemsCache s.
Proof.
  intros s s' Hl Hq.
  pose proof (inv_run pageSize es0 _ (inv_mount q0 ids)) as Hinv.
  fold s in Hinv.
  pose proof (stalled_after_query_change pageSize s q Hinv Hl Hq) as Hst.
  destruct (stalled_run pageSize es _ Hst) as (H1 & H2 & H3 & H4 & H5).
  fold s' in H1, H2, H3, H4, H5.
  split; [done|]. rewrite H2, H3, H4, H5. clear.
  simpl. unfold AsyncItems.debounceEffect. simpl.
  destruct (AsyncItems.abortControllerRef s); [case_bool_decide|]; done.
Qed.

Lemma query_change_while_loading_witness :
  AsyncItems.loading
    (AsyncItems.run 2
       [AsyncItems.Settled 0 (AsyncItems.Fulfilled mockItems);
        AsyncItems.TimerFired; AsyncItems.RetryClicked]
       (AsyncItems.step 2
          (AsyncItems.run 2 [AsyncItems.EffectsFlushed]
             (AsyncItems.mount "" []))
          (AsyncItems.QueryChanged "a")))
  = true.
Proof.
  apply (query_change_while_loading 2 "" [] [AsyncItems.EffectsFlushed] "a"
           [AsyncItems.Settled 0 (AsyncItems.Fulfilled mockItems);
            AsyncItems.TimerFired; AsyncItems.RetryClicked]);
    [reflexivity | discriminate].
Defined.

(** ** useAsyncItems: the cache of the selected items *)

Lemma cacheFetched_snoc (selected : gset string) (fetched : list Item)
    (x : Item) (cache : gmap string Item) :
  AsyncItems.cacheFetched selected (fetched ++ [x]) cache
  = if decide (id x ∈ selected)
    then <[id x := x]> (AsyncItems.cacheFetched selected fetched cache)
    else AsyncItems.cacheFetched selected fetched cache.
Proof. unfold AsyncItems.cacheFetched. by rewrite foldl_app. Qed.

(** X29. A loaded page changes the cache at the ids of its selected items
    only: the entry of any other id is as before, and the entry of a
    selected id of the page is an item of the page with that id. *)
Theorem cacheFetched_lookup (selected : gset string) (fetched : list Item)
    (cache : gmap string Item) (k : string) :
  (k ∉ selected \/ k ∉ id <$> fetched ->
   AsyncItems.cacheFetched selected fetched cache !! k = cache !! k)
  /\ (k ∈ selected -> k ∈ id <$> fetched ->
      exists it,
        it ∈ fetched /\ id it = k
        /\ AsyncItems.cacheFetched selected fetched cache !! k = Some it).
Proof.
  induction fetched as [|x fetched [IH1 IH2]] using rev_ind.
  { split; [done|]. intros _ Hin. by apply elem_of_nil in Hin. }
  rewrite cacheFetched_snoc, fmap_app. simpl.
  assert (Hleft : k ∉ (id <$> fetched) ++ [id x] -> k ∉ id <$> fetched).
  { intros Hk Hc. apply Hk, elem_of_app. by left. }
  split.
  - intros Hk. case_decide as Hsel.
    + destruct (decide (id x = k)) as [<-|Hne].
      * destruct Hk as [Hk|Hk]; [done|].
        destruct Hk. apply elem_of_app. right. left.
      * rewrite lookup_insert_ne by done. apply IH1.
        destruct Hk as [Hk|Hk]; [by left | right; by apply Hleft].
    + apply IH1. destruct Hk as [Hk|Hk]; [by left | right; by apply Hleft].
  - intros Hsel Hin. destruct (decide (id x = k)) as [<-|Hne].
    + rewrite decide_True by done. exists x. split_and!.
      * apply elem_of_app. right. left.
      * done.
      * by rewrite lookup_insert_eq.
    + assert (Hin' : k ∈ id <$> fetched).
      { apply elem_of_app in Hin as [?|Hx%list_elem_of_singleton];
          [done | congruence]. }
      destruct (IH2 Hsel Hin') as (it & Hit & Hid & Hlook).
      exists it. split_and!; [apply elem_of_app; by left | done |].
      case_decide; [by rewrite lookup_insert_ne|done].
Qed.

Lemma cacheFetched_keyed (selected : gset string) (fetched : list Item)
    (cache : gmap string Item) :
  (forall k it, cache !! k = Some it -> id it = k) ->
  forall k it,
    AsyncItems.cacheFetched selected fetched cache !! k = Some it ->
    id it = k.
Proof.
  intros Hcache.
  induction fetched as [|x fetched IH] using rev_ind; [done|].
  intros k it. rewrite cacheFetched_snoc. case_decide; [|by apply IH].
  destruct (decide (id x = k)) as [<-|Hne].
  - rewrite lookup_insert_eq. congruence.
  - rewrite lookup_insert_ne by done. by apply IH.
Qed.

Lemma cache_keyed_step (pageSize : nat) (s : AsyncItems.loader)
    (e : AsyncItems.event) :
  (forall k it, AsyncItems.selectedItemsCache s !! k = Some it -> id it = k) ->
  forall k it,
    AsyncItems.selectedItemsCache (AsyncItems.step pageSize s e) !! k
    = Some it ->
    id it = k.
Proof.
  intros Hs.
  assert (Hload : forall reset s0,
    AsyncItems.selectedItemsCache (AsyncItems.loadMore reset s0)
    = AsyncItems.selectedItemsCache s0).
  { intros reset s0. unfold AsyncItems.loadMore, AsyncItems.abortCurrent.
    destruct (AsyncItems.loadingRef s0); [done|].
    by destruct (AsyncItems.abortControllerRef s0), reset. }
  destruct e; simpl; rewrite ?Hload; try exact Hs.
  - unfold AsyncItems.debounceEffect. simpl.
    by destruct (AsyncItems.abortControllerRef s); [case_bool_decide|].
  - destruct (AsyncItems.timerArmed s); rewrite ?Hload; exact Hs.
  - destruct (_ && _); rewrite ?Hload; exact Hs.
  - unfold AsyncItems.settle.
    destruct (AsyncItems.inflight s !! rid); [|exact Hs]. simpl.
    destruct (decide (rid ∈ AsyncItems.aborted s)); [exact Hs|].
    destruct o; simpl; [|exact Hs]. by apply cacheFetched_keyed.
  - unfold AsyncItems.abortCurrent.
    by destruct (AsyncItems.abortControllerRef s).
Qed.

(** X30. The cache of the hook is keyed by item id: in every state the hook
    reaches, the item stored under a key has that key as its id. *)
Theorem cache_keyed_by_id (pageSize : nat) (q : string) (ids : list string)
    (es : list AsyncItems.event) (k : string) (it : Item) :
  AsyncItems.selectedItemsCache
    (AsyncItems.run pageSize es (AsyncItems.mount q ids)) !! k = Some it ->
  id it = k.
Proof.
  assert (Hrun : forall s,
    (forall k it,
       AsyncItems.selectedItemsCache s !! k = Some it -> id it = k) ->
    forall k it,
      AsyncItems.selectedItemsCache (AsyncItems.run pageSize es s) !! k
      = Some it ->
      id it = k).
  { induction es as [|e es IH]; intros s Hs; [exact Hs|].
    simpl. apply IH. by apply cache_keyed_step. }
  apply Hrun. intros k' it'. unfold AsyncItems.mount. simpl.
  by rewrite lookup_empty.
Qed.

Lemma cache_keyed_by_id_witness :
  id (MkItem "2" "Beta" (Some "B")) = "2".
Proof.
  apply (cache_keyed_by_id 2 "" ["2"]
           [AsyncItems.EffectsFlushed;
            AsyncItems.Settled 0 (AsyncItems.Fulfilled (take 2 mockItems))]).
  vm_compute. reflexivity.
Defined.
